(** * laitos: DNS blacklist extraction, maintenance daemon and feature set

    A shallow embedding of
      - daemon/dnsd/blacklist.go        (package dnsd),
      - the maintenance daemon          (package maintenance),
      - the feature set initialisation  (package feature),
    followed by the properties proved about them.

    Conventions of the embedding.
      - A Go [string] is a byte sequence; it is embedded as [string]
        (a list of 8-bit characters).  [strings.TrimSpace] and
        [strings.ToLower] are embedded on their ASCII behaviour: the six
        ASCII white space bytes and the letters A-Z.  Statements that depend
        on these two functions are made for ASCII contents ([isASCII]).
      - A Go [int] is embedded as [Z]; the text of an [error] as [string],
        a nil-able [error] as [option string].
      - A Go [map] is a [gmap]; the order in which [range] visits a map is
        not fixed by the language, so a function that ranges over a map is
        embedded as a function of the visiting order, and its possible
        results are those at the permutations of [map_to_list].  The order
        in which the entries of a map literal are assigned is not fixed
        either, and is embedded in the same way.
      - Calls that leave the process (HTTP download, TCP dial, program
        invocation, clock reads, file stat) are answered by an oracle that
        the embedded function receives as an argument.
*)

From Stdlib Require Import ZArith Lia Ascii String.
From stdpp Require Import base option list gmap strings.

Local Open Scope Z_scope.

(** ** Go strings *)

Module GoStrings.

(** One-byte strings used to build literals that hold control bytes. *)
Definition LF : string := String "010"%char EmptyString.
Definition TAB : string := String "009"%char EmptyString.
Definition QUOTE : string := String "034"%char EmptyString.

Definition len (s : string) : Z := Z.of_nat (String.length s).

(** [s[n:]] *)
Fixpoint sliceFrom (n : nat) (s : string) : string :=
  match n, s with
  | O, _ => s
  | S n', String _ s' => sliceFrom n' s'
  | S _, EmptyString => EmptyString
  end.

(** [s[:n]] *)
Fixpoint sliceTo (n : nat) (s : string) : string :=
  match n, s with
  | O, _ => EmptyString
  | S n', String c s' => String c (sliceTo n' s')
  | S _, EmptyString => EmptyString
  end.

(** The white space of [strings.TrimSpace] below 0x80:
    '\t', '\n', '\v', '\f', '\r', ' '. *)
Definition isSpace (c : ascii) : bool :=
  match c with
  | "009" | "010" | "011" | "012" | "013" | " " => true
  | _ => false
  end%char.

Definition isEmpty (s : string) : bool :=
  match s with EmptyString => true | String _ _ => false end.

Fixpoint TrimLeftSpace (s : string) : string :=
  match s with
  | EmptyString => EmptyString
  | String c s' => if isSpace c then TrimLeftSpace s' else s
  end.

Fixpoint TrimRightSpace (s : string) : string :=
  match s with
  | EmptyString => EmptyString
  | String c s' =>
      let t := TrimRightSpace s' in
      if isSpace c && isEmpty t then EmptyString else String c t
  end.

(** [strings.TrimSpace] *)
Definition TrimSpace (s : string) : string :=
  TrimRightSpace (TrimLeftSpace s).

(** [strings.IndexRune(s, c)] for a rune [c] below 0x80: the index of its
    first occurrence, -1 when there is none. *)
Fixpoint IndexRune (s : string) (c : ascii) : Z :=
  match s with
  | EmptyString => -1
  | String d s' =>
      if Ascii.eqb d c then 0
      else let i := IndexRune s' c in
           if i =? -1 then -1 else i + 1
  end.

Definition isUpper (c : ascii) : bool :=
  let n := nat_of_ascii c in (65 <=? n)%nat && (n <=? 90)%nat.

Definition toLowerByte (c : ascii) : ascii :=
  if isUpper c then ascii_of_nat (nat_of_ascii c + 32) else c.

(** [strings.ToLower] *)
Fixpoint ToLower (s : string) : string :=
  match s with
  | EmptyString => EmptyString
  | String c s' => String (toLowerByte c) (ToLower s')
  end.

(** [strings.HasPrefix] *)
Fixpoint HasPrefix (s prefix : string) : bool :=
  match prefix, s with
  | EmptyString, _ => true
  | String _ _, EmptyString => false
  | String p prefix', String c s' => Ascii.eqb c p && HasPrefix s' prefix'
  end.

(** [strings.HasSuffix]:
    [len(s) >= len(suffix) && s[len(s)-len(suffix):] == suffix] *)
Definition HasSuffix (s suffix : string) : bool :=
  (String.length suffix <=? String.length s)%nat
  && String.eqb (sliceFrom (String.length s - String.length suffix) s) suffix.

(** [strings.Contains] *)
Fixpoint Contains (s substr : string) : bool :=
  HasPrefix s substr
  || match s with
     | EmptyString => false
     | String _ s' => Contains s' substr
     end.

(** [strings.Split(s, sep)] for a one-byte separator. *)
Fixpoint Split (s : string) (sep : ascii) : list string :=
  match s with
  | EmptyString => [EmptyString]
  | String c s' =>
      if Ascii.eqb c sep then EmptyString :: Split s' sep
      else match Split s' sep with
           | h :: t => String c h :: t
           | [] => [String c EmptyString]
           end
  end.

(** [strings.Join] *)
Fixpoint Join (a : list string) (sep : string) : string :=
  match a with
  | [] => EmptyString
  | [x] => x
  | x :: rest => x +:+ sep +:+ Join rest sep
  end.

Definition isASCIIByte (c : ascii) : bool := (nat_of_ascii c <? 128)%nat.

Fixpoint isASCII (s : string) : bool :=
  match s with
  | EmptyString => true
  | String c s' => isASCIIByte c && isASCII s'
  end.

(** Decimal digits of a positive number, most significant first. *)
Definition digitChar (d : Z) : ascii := ascii_of_nat (48 + Z.to_nat d).

Fixpoint itoaDigits (fuel : nat) (n : Z) (acc : string) : string :=
  match fuel with
  | O => acc
  | S fuel' =>
      let acc' := String (digitChar (n mod 10)) acc in
      if n <? 10 then acc' else itoaDigits fuel' (n / 10) acc'
  end.

(** [strconv.Itoa] *)
Definition Itoa (n : Z) : string :=
  if n <? 0 then String "-"%char (itoaDigits (S (Z.to_nat (Z.log2 (- n)))) (- n) EmptyString)
  else itoaDigits (S (Z.to_nat (Z.log2 n))) n EmptyString.

End GoStrings.

Import GoStrings.

(** ** What the Go runtime leaves open *)

Module GoRuntime.

(** The order in which [range] visits the keys of a map: some permutation of
    its keys. *)
Record MapRange := {
  rangeKeys : ∀ V : Type, gmap string V → list string;
  rangeKeys_perm : ∀ V (m : gmap string V), rangeKeys V m ≡ₚ (map_to_list m).*1
}.

(** The entries in visiting order. *)
Definition rangeEntries (r : MapRange) {V} (m : gmap string V) : list (string * V) :=
  omap (λ k, (λ v, (k, v)) <$> m !! k) (rangeKeys r V m).

(** The order in which goroutines started together reach their effects: some
    permutation of the order in which they were started. *)
Record Scheduler := {
  schedule : ∀ A : Type, list A → list A;
  schedule_perm : ∀ A (l : list A), schedule A l ≡ₚ l
}.

(** One possible runtime: maps are visited in the order of [map_to_list],
    goroutines finish in the order they were started. *)
Definition plainRange : MapRange :=
  {| rangeKeys := λ V m, (map_to_list m).*1;
     rangeKeys_perm := λ V m, reflexivity _ |}.

Definition fifoScheduler : Scheduler :=
  {| schedule := λ A l, l; schedule_perm := λ A l, reflexivity _ |}.

(** Another one: maps are visited from the last entry to the first, and the
    goroutine started last finishes first. *)
Definition reverseRange : MapRange :=
  {| rangeKeys := λ V m, reverse (map_to_list m).*1;
     rangeKeys_perm := λ V m, reverse_Permutation _ |}.

Definition lifoScheduler : Scheduler :=
  {| schedule := λ A l, reverse l; schedule_perm := λ A l, reverse_Permutation l |}.

End GoRuntime.

Import GoRuntime.

(** ** Package dnsd: blacklist.go *)

Module dnsd.

(** HostsFileURLs is a collection of URLs where up-to-date blacklist hosts
    files are published. *)
Definition HostsFileURLs : list string :=
  [ "http://winhelp2002.mvps.org/hosts.txt";
    "http://pgl.yoyo.org/adservers/serverlist.php?hostformat=hosts&showintro=0&mimetype=plaintext";
    "http://www.malwaredomainlist.com/hostslist/hosts.txt";
    "http://someonewhocares.org/hosts/hosts" ].

(** The body of the loop of [ExtractNamesFromHostsContent]: the name that one
    line contributes, [None] where the loop says [continue]. *)
Definition extractName (line : string) : option string :=
  let line := TrimSpace line in
  if (len line =? 0) || HasPrefix line "#" then None (* blank and comments *)
  else
    (* Find the second field *)
    let space := IndexRune line " " in
    if space =? -1 then None (* malformed line *)
    else
      let line := TrimSpace (sliceFrom (Z.to_nat space) line) in
      let nameEnd := IndexRune line "#" in
      (* Name may be followed by a comment *)
      let nameEnd := if nameEnd =? -1 then len line else nameEnd in
      (* Extract the name itself *)
      let aName := ToLower (TrimSpace (sliceTo (Z.to_nat nameEnd) line)) in
      if isEmpty aName
         || HasSuffix aName "localhost"
         || HasSuffix aName "localdomain"
         || (len aName <? 4)
      then None (* empty names, local names, and overly short names *)
      else Some aName.

(** ExtractNamesFromHostsContent extracts domain names from hosts file
    content. *)
Definition ExtractNamesFromHostsContent (content : string) : list string :=
  fold_left
    (fun ret line =>
       match extractName line with
       | Some aName => ret ++ [aName]
       | None => ret
       end)
    (Split content "010") [].

(** The map [m] of [UniqueStrings] after its first loop; a nil array is
    [None]. *)
Definition uniqueMap (arrays : list (option (list string))) : gmap string unit :=
  fold_left
    (fun m array =>
       match array with
       | None => m
       | Some strs => fold_left (fun m str => <[str := tt]> m) strs m
       end)
    arrays ∅.

(** UniqueStrings returns unique strings among input string arrays. *)
Definition UniqueStrings (r : MapRange) (arrays : list (option (list string)))
  : list string :=
  let m := uniqueMap arrays in
  fold_left (fun ret str => ret ++ [str]) (rangeKeys r unit m) [].

(** The answer of [inet.DoHTTP]: the response body (empty when the request
    failed) and the error. *)
Record HTTPResponse := { Body : string; Err : option string }.

(** A line of the log: function, action, error, and the number in the
    message. *)
Record LogLine := { logFun : string; logAction : string;
                    logErr : option string; logCount : Z }.

Record DownloadState := { lists : list (option (list string)); log : list LogLine }.

(** The goroutine that [DownloadAllBlacklists] starts for URL number [i]. *)
Definition downloadOne (DoHTTP : string → HTTPResponse) (st : DownloadState)
           (job : nat * string) : DownloadState :=
  let '(i, url) := job in
  let resp := DoHTTP url in
  let names := ExtractNamesFromHostsContent (Body resp) in
  {| log := log st ++ [ {| logFun := "DownloadAllBlacklists"; logAction := url;
                           logErr := Err resp; logCount := Z.of_nat (length names) |} ];
     lists := <[ i := Some (ExtractNamesFromHostsContent (Body resp)) ]> (lists st) |}.

(** DownloadAllBlacklists attempts to download all hosts files and return
    combined list of domain names to block.  The result is the returned list
    and the lines logged. *)
Definition DownloadAllBlacklists (DoHTTP : string → HTTPResponse)
           (sch : Scheduler) (r : MapRange) : list string * list LogLine :=
  let st0 := {| lists := replicate (length HostsFileURLs) None; log := [] |} in
  let st := fold_left (downloadOne DoHTTP) (schedule sch _ (imap pair HostsFileURLs)) st0 in
  let ret := UniqueStrings r (lists st) in
  (ret, log st ++ [ {| logFun := "DownloadAllBlacklists"; logAction := EmptyString;
                       logErr := None; logCount := Z.of_nat (length ret) |} ]).

(** The variant that parses the content of each URL once: the goroutine
    stores [names] instead of parsing the body again. *)
Definition downloadOne_parseOnce (DoHTTP : string → HTTPResponse) (st : DownloadState)
           (job : nat * string) : DownloadState :=
  let '(i, url) := job in
  let resp := DoHTTP url in
  let names := ExtractNamesFromHostsContent (Body resp) in
  {| log := log st ++ [ {| logFun := "DownloadAllBlacklists"; logAction := url;
                           logErr := Err resp; logCount := Z.of_nat (length names) |} ];
     lists := <[ i := Some names ]> (lists st) |}.

Definition DownloadAllBlacklists_parseOnce (DoHTTP : string → HTTPResponse)
           (sch : Scheduler) (r : MapRange) : list string * list LogLine :=
  let st0 := {| lists := replicate (length HostsFileURLs) None; log := [] |} in
  let st := fold_left (downloadOne_parseOnce DoHTTP)
                      (schedule sch _ (imap pair HostsFileURLs)) st0 in
  let ret := UniqueStrings r (lists st) in
  (ret, log st ++ [ {| logFun := "DownloadAllBlacklists"; logAction := EmptyString;
                       logErr := None; logCount := Z.of_nat (length ret) |} ]).

End dnsd.

(** ** Package maintenance *)

Module maintenance.

Definition TCPPortCheckTimeoutSec : Z := 10.
(** MinimumIntervalSec is the lowest acceptable value of system maintenance
    interval. *)
Definition MinimumIntervalSec : Z := 3600.

(** [time.Duration] is an int64 count of nanoseconds; a [time.Time] is
    embedded as a count of nanoseconds that does not overflow. *)
Definition Second : Z := 1000000000.
Definition Minute : Z := 60 * Second.
Definition minDuration : Z := - 2 ^ 63.
Definition maxDuration : Z := 2 ^ 63 - 1.
Definition wrap64 (x : Z) : Z := (x + 2 ^ 63) mod 2 ^ 64 - 2 ^ 63.
(** [t.Sub(u)], which saturates. *)
Definition timeSub (t u : Z) : Z := Z.max minDuration (Z.min maxDuration (t - u)).
(** [t.After(u)] *)
Definition After (t u : Z) : bool := u <? t.

Record Logger := { ComponentName : string; ComponentID : string }.

Inductive LogLevel := Info | Warning.

Record LogLine := { logLevel : LogLevel; logFun : string; logAction : string;
                    logErr : option string; logMessage : string }.

Record Invocation := { invEnv : list string; invTimeoutSec : Z;
                       invProgram : string; invArgs : list string }.

Record Mail := { mailSubject : string; mailBody : string; mailTo : list string }.

(** The statistics that [GetLatestStats] formats. *)
Inductive DurationStats :=
| commonStats | dnsdTCPStats | dnsdUDPStats | handlerStats | mailcmdStats
| plainsocketTCPStats | plainsocketUDPStats | smtpdStats
| sockdTCPStats | sockdUDPStats | telegrambotStats.

(** What the daemon asks of the rest of the program and of the system. *)
Record World := {
  IsGCE : bool;
  IsAzure : bool;
  (** [net.DialTimeout(network, address, timeout)]: the error. *)
  DialTimeout : string → string → Z → option string;
  (** [os.Stat(path)]: the error. *)
  Stat : string → option string;
  (** [misc.InvokeProgram(env, timeoutSec, program, args...)], answered by
      the number of programs invoked before. *)
  InvokeProgram : nat → list string → Z → string → list string → string * option string;
  (** [time.Now()], answered by the number of earlier readings. *)
  Now : nat → Z;
  (** [stats.Format(factor, numDecimals)] *)
  Format : DurationStats → string;
  GetRuntimeInfo : string;
  GetLatestWarnings : string;
  GetLatestLog : string;
  GetGoroutineStacktraces : string;
  OutgoingMailSubjectKeyword : string;
  CommonPATH : string;
  (** [MailClient.Send(subject, body, recipients...)]: the error. *)
  Send : string → string → list string → option string;
  LintMailBody : string → string
}.

(** What a run changes. *)
Record State := {
  StartupTime : Z; (* misc.StartupTime *)
  invoked : list Invocation;
  clockReads : nat;
  dialed : list (string * Z);
  logged : list LogLine;
  mailed : list Mail
}.

Definition M (A : Type) : Type := State → A * State.

Definition ret {A} (a : A) : M A := λ s, (a, s).
Definition bind {A B} (m : M A) (k : A → M B) : M B :=
  λ s, let '(a, s') := m s in k a s'.

Notation "'do' x <- m ; k" := (bind m (λ x, k))
  (at level 10, x pattern, m at level 100, k at level 200).
Notation "'perform' m ; k" := (bind m (λ _, k))
  (at level 10, m at level 100, k at level 200).

Definition logLine (lvl : LogLevel) (fn action : string) (err : option string)
           (msg : string) : M unit :=
  λ s, (tt, {| StartupTime := StartupTime s; invoked := invoked s;
              clockReads := clockReads s; dialed := dialed s;
              logged := logged s ++ [ {| logLevel := lvl; logFun := fn; logAction := action;
                                         logErr := err; logMessage := msg |} ];
              mailed := mailed s |}).

Definition invokeProgram (w : World) (env : list string) (timeoutSec : Z)
           (program : string) (args : list string) : M (string * option string) :=
  λ s, (InvokeProgram w (length (invoked s)) env timeoutSec program args,
        {| StartupTime := StartupTime s;
           invoked := invoked s ++ [ {| invEnv := env; invTimeoutSec := timeoutSec;
                                        invProgram := program; invArgs := args |} ];
           clockReads := clockReads s; dialed := dialed s;
           logged := logged s; mailed := mailed s |}).

Definition timeNow (w : World) : M Z :=
  λ s, (Now w (clockReads s),
        {| StartupTime := StartupTime s; invoked := invoked s;
           clockReads := S (clockReads s); dialed := dialed s;
           logged := logged s; mailed := mailed s |}).

Definition getStartupTime : M Z := λ s, (StartupTime s, s).

Definition setStartupTime (t : Z) : M unit :=
  λ s, (tt, {| StartupTime := t; invoked := invoked s; clockReads := clockReads s;
              dialed := dialed s; logged := logged s; mailed := mailed s |}).

Definition recordDials (ds : list (string * Z)) : M unit :=
  λ s, (tt, {| StartupTime := StartupTime s; invoked := invoked s;
              clockReads := clockReads s; dialed := dialed s ++ ds;
              logged := logged s; mailed := mailed s |}).

Definition sendMail (w : World) (subject body : string) (recipients : list string)
  : M (option string) :=
  λ s, (Send w subject body recipients,
        {| StartupTime := StartupTime s; invoked := invoked s;
           clockReads := clockReads s; dialed := dialed s; logged := logged s;
           mailed := mailed s ++ [ {| mailSubject := subject; mailBody := body;
                                      mailTo := recipients |} ] |}).

(** A collaborator that is tested during the health check, by the error its
    [SelfTest()] returns. *)
Record SelfTester := { SelfTest : option string }.

(** Daemon is a system maintenance daemon that periodically triggers health
    check and software updates.  A nil map, slice or pointer is [None]. *)
Record Daemon := {
  CheckTCPPorts : option (gmap string (option (list Z)));
  IntervalSec : Z;
  Recipients : list string;
  FeaturesToTest : option SelfTester;
  MailCmdRunnerToTest : option SelfTester;
  HTTPHandlersToCheck : option SelfTester;
  loopIsRunning : Z; (* Value is 1 only when maintenance loop is running *)
  stop : bool;       (* whether the channel has been made *)
  logger : Logger
}.

(** [%v] of an error *)
Definition fmtErr (err : option string) : string :=
  match err with
  | None => "<nil>"
  | Some e => e
  end.

(** GetLatestStats returns statistic information from all front-end daemons,
    each on their own line. *)
Definition GetLatestStats (w : World) : string :=
  "Web and bot commands: " +:+ Format w commonStats +:+ LF
  +:+ "DNS server  TCP|UDP:  " +:+ Format w dnsdTCPStats +:+ " | " +:+ Format w dnsdUDPStats +:+ LF
  +:+ "Web servers:          " +:+ Format w handlerStats +:+ LF
  +:+ "Mail commands:        " +:+ Format w mailcmdStats +:+ LF
  +:+ "Text server TCP|UDP:  " +:+ Format w plainsocketTCPStats +:+ " | "
  +:+ Format w plainsocketUDPStats +:+ LF
  +:+ "Mail server:          " +:+ Format w smtpdStats +:+ LF
  +:+ "Sock server TCP|UDP:  " +:+ Format w sockdTCPStats +:+ " | " +:+ Format w sockdUDPStats +:+ LF
  +:+ "Telegram commands:    " +:+ Format w telegrambotStats +:+ LF.

(** [net.JoinHostPort] *)
Definition JoinHostPort (host port : string) : string :=
  if 0 <=? IndexRune host ":" then "[" +:+ host +:+ "]:" +:+ port
  else host +:+ ":" +:+ port.

(** The inner loop of [runPortsCheck] over the ports of one host: the
    goroutines it starts and the lines it logs. *)
Fixpoint knockHost (w : World) (host : string) (ports : list Z)
  : list (string * Z) * list string :=
  match ports with
  | [] => ([], [])
  | port :: rest =>
      let '(jobs, skipped) := knockHost w host rest in
      if (port =? 25) && (IsGCE w || IsAzure w)
      then (jobs,
            ("because Google cloud forbids connection to port 25, port check will skip "
               +:+ host +:+ ":25") :: skipped)
      else ((host, port) :: jobs, skipped)
  end.

(** The outer loop of [runPortsCheck] over the entries of the map. *)
Fixpoint knockHosts (w : World) (entries : list (string * option (list Z)))
  : list (string * Z) * list string :=
  match entries with
  | [] => ([], [])
  | (host, ports) :: rest =>
      let '(jobs, skipped) := knockHosts w rest in
      match ports with
      | None => (jobs, skipped)
      | Some ports =>
          if isEmpty host || (Z.of_nat (length ports) =? 0) then (jobs, skipped)
          else let '(jobs1, skipped1) := knockHost w host ports in
               (jobs1 ++ jobs, skipped1 ++ skipped)
      end
  end.

(** The goroutine of [runPortsCheck] for one port: it dials, and adds the
    destination to [portErrs] when the connection fails. *)
Definition knock (w : World) (portErrs : list string) (job : string * Z) : list string :=
  let '(host, port) := job in
  (* Expect connection to open very shortly *)
  let dest := JoinHostPort host (Itoa port) in
  match DialTimeout w "tcp" dest (TCPPortCheckTimeoutSec * Second) with
  | Some _ => portErrs ++ [dest]
  | None => portErrs
  end.

Fixpoint logAll (fn : string) (msgs : list string) : M unit :=
  match msgs with
  | [] => ret tt
  | msg :: rest => perform logLine Info fn EmptyString None msg; logAll fn rest
  end.

(** runPortsCheck knocks on TCP ports that are to be checked in parallel, it
    returns an error if any of the ports fails to connect. *)
Definition runPortsCheck (w : World) (r : MapRange) (sch : Scheduler) (daemon : Daemon)
  : M (option string) :=
  match CheckTCPPorts daemon with
  | None => ret None
  | Some checkTCPPorts =>
      let '(jobs, skipped) := knockHosts w (rangeEntries r checkTCPPorts) in
      perform logAll "runPortsCheck" skipped;
      let finished := schedule sch _ jobs in
      perform recordDials finished;
      let portErrs := fold_left (knock w) finished [] in
      if Z.of_nat (length portErrs) =? 0 then ret None
      else ret (Some ("failed to connect to " +:+ Join portErrs ", "))
  end.

(** [path.Join] of a directory and a file name that are both clean. *)
Definition pathJoin (dir name : string) : string := dir +:+ "/" +:+ name.

(** The search for a system package manager: the inner loop over the names
    of executables, which stops at the first one that exists. *)
Fixpoint findExec (w : World) (binPrefix : string) (execNames : list string)
         (pkgManagerPath pkgManagerName : string) : string * string :=
  match execNames with
  | [] => (pkgManagerPath, pkgManagerName)
  | execName :: rest =>
      let pkgManagerPath := pathJoin binPrefix execName in
      match Stat w pkgManagerPath with
      | None => (pkgManagerPath, execName)
      | Some _ => findExec w binPrefix rest pkgManagerPath pkgManagerName
      end
  end.

(** The outer loop over the directories. *)
Fixpoint findPkgManager (w : World) (binPrefixes : list string)
         (pkgManagerPath pkgManagerName : string) : string * string :=
  match binPrefixes with
  | [] => (pkgManagerPath, pkgManagerName)
  | binPrefix :: rest =>
      (* Prefer zypper over apt-get *)
      let '(pkgManagerPath, pkgManagerName) :=
        findExec w binPrefix ["yum"; "zypper"; "apt-get"] pkgManagerPath pkgManagerName in
      if negb (isEmpty pkgManagerName) then (pkgManagerPath, pkgManagerName)
      else findPkgManager w rest pkgManagerPath pkgManagerName
  end.

Definition binPrefixes : list string :=
  ["/sbin"; "/bin"; "/usr/sbin"; "/usr/bin"; "/usr/sbin/local"; "/usr/bin/local"].

(** If package manager output contains any of the strings, the output is
    reduced. *)
Definition suppressOutputMarkers : list string :=
  ["No packages marked for update"; "Nothing to do"; "0 upgraded, 0 newly installed";
   "Unable to locate"].

(** The loop over the markers: [result] becomes [replacement] at the first
    marker that [result] contains. *)
Fixpoint suppressOutput (markers : list string) (replacement result : string) : string :=
  match markers with
  | [] => result
  | marker :: rest =>
      if Contains result marker then replacement
      else suppressOutput rest replacement result
  end.

(** Additional software packages. *)
Definition pkgs : list string :=
  [ (* Soft and hard dependencies of phantomJS *)
    "bzip2-libs"; "cjkuni-fonts-common"; "cjkuni-ukai-fonts"; "cjkuni-uming-fonts";
    "dejavu-fonts-common"; "dejavu-sans-fonts"; "dejavu-serif-fonts"; "expat"; "fontconfig";
    "fontconfig-config"; "fontpackages-filesystem"; "fonts-arphic-ukai"; "fonts-arphic-uming";
    "fonts-dejavu-core"; "fonts-liberation"; "freetype"; "intlfonts-chinese-big-bitmap-fonts";
    "intlfonts-chinese-bitmap-fonts"; "lib64z1"; "libbz2-1"; "libbz2-1.0"; "liberation2-fonts";
    "liberation-fonts-common"; "liberation-mono-fonts"; "liberation-sans-fonts";
    "liberation-serif-fonts"; "libexpat1"; "libfontconfig1"; "libfontenc"; "libfreetype6";
    "libpng"; "libpng16-16"; "libXfont"; "xorg-x11-fonts-Type1"; "xorg-x11-font-utils"; "zlib";
    "zlib1g";
    (* Time maintenance utilities *)
    "chrony"; "ntp"; "ntpd"; "ntpdate";
    (* Application zip bundle maintenance utilities *)
    "unzip"; "zip";
    (* Network diagnosis utilities *)
    "curl"; "nc"; "net-tools"; "netcat"; "nmap"; "telnet"; "tcpdump"; "traceroute"; "wget";
    "whois";
    (* busybox *)
    "busybox";
    (* System maintenance utilities *)
    "lsof"; "strace"; "sudo"; "vim" ].

(** The body of the loop that installs the packages one after another: it
    returns what it writes to the output. *)
Definition installPackage (w : World) (pkgManagerEnv : list string)
           (pkgManagerPath : string) (installArgs : list string) (name : string)
  : M string :=
  (* Put software name next to installation parameters *)
  let pkgInstallArgs := installArgs ++ [name] in
  (* Five minutes should be good enough for every package *)
  perform logLine Info "SystemMaintenance" EmptyString None ("installing package " +:+ name);
  do (result, err) <- invokeProgram w pkgManagerEnv (5 * 60) pkgManagerPath pkgInstallArgs;
  perform logLine Info "SystemMaintenance" EmptyString err
      ("finished installing package " +:+ name);
  (* If nothing was done about the package, suppress the rather useless output. *)
  let result := suppressOutput suppressOutputMarkers "Nothing to do" result in
  ret ("--- Installing/upgrading " +:+ name +:+ LF
       +:+ "--- " +:+ name +:+ " installation/upgrade result: " +:+ fmtErr err
       +:+ " - " +:+ TrimSpace result +:+ LF +:+ LF).

Fixpoint installPackages (w : World) (pkgManagerEnv : list string)
         (pkgManagerPath : string) (installArgs names : list string) (out : string)
  : M string :=
  match names with
  | [] => ret out
  | name :: rest =>
      do written <- installPackage w pkgManagerEnv pkgManagerPath installArgs name;
      installPackages w pkgManagerEnv pkgManagerPath installArgs rest (out +:+ written)
  end.

Definition aptArgs : list string :=
  ["-q"; "-y"; "-f"; "-m"; "-o"; "Dpkg::Options::=--force-confdef"; "-o";
   "Dpkg::Options::=--force-confold"].

(** Package manager invocation parameters; the text is what the default
    case of the switch writes. *)
Definition pkgManagerArgs (pkgManagerName : string) : list string * list string * string :=
  if String.eqb pkgManagerName "yum" then
    (["-y"; "-t"; "--skip-broken"; "update"], ["-y"; "-t"; "--skip-broken"; "install"],
     EmptyString)
  else if String.eqb pkgManagerName "apt-get" then
    (aptArgs ++ ["upgrade"], aptArgs ++ ["install"], EmptyString)
  else if String.eqb pkgManagerName "zypper" then
    (["--non-interactive"; "update"; "--recommends"; "--auto-agree-with-licenses";
      "--skip-interactive"; "--replacefiles"; "--force-resolution"],
     ["--non-interactive"; "install"; "--recommends"; "--auto-agree-with-licenses";
      "--replacefiles"; "--force-resolution"],
     EmptyString)
  else
    ([], [],
     "--- Will not install system software: missing implementation for package manager "
       +:+ pkgManagerName +:+ LF).

(** The update of the apt manifests. *)
Definition updateAptManifests (w : World) (pkgManagerName pkgManagerPath : string)
  : M (list string * string) :=
  if String.eqb pkgManagerName "apt-get" then
    let pkgManagerEnv := ["DEBIAN_FRONTEND=noninteractive"] in
    (* Five minutes should be enough to grab the latest manifest *)
    perform logLine Info "SystemMaintenance" EmptyString None "updating apt manifests";
    do (result, err) <- invokeProgram w pkgManagerEnv (5 * 60) pkgManagerPath ["update"];
    perform logLine Info "SystemMaintenance" EmptyString err "finished updating apt manifests";
    (* There is no need to suppress this output according to markers *)
    ret (pkgManagerEnv,
         "--- Updating apt manifests..." +:+ LF
         +:+ "--- apt-get result: " +:+ fmtErr err +:+ " - " +:+ TrimSpace result +:+ LF +:+ LF)
  else ret ([], EmptyString).

(** The upgrade of the system packages, and the installation of the
    additional ones. *)
Definition upgradeAndInstall (w : World) (pkgManagerEnv : list string)
           (pkgManagerName pkgManagerPath : string) (sysUpgradeArgs installArgs : list string)
  : M string :=
  if negb (isEmpty pkgManagerName) then
    (* Upgrade system packages with a time constraint of two hours *)
    perform logLine Info "SystemMaintenance" EmptyString None "updating system packages";
    do (result, err) <- invokeProgram w pkgManagerEnv (2 * 3600) pkgManagerPath sysUpgradeArgs;
    perform logLine Info "SystemMaintenance" EmptyString err "finished updating system packages";
    (* If nothing was done during system update, suppress the rather useless output. *)
    let result := suppressOutput suppressOutputMarkers "skipped" result in
    installPackages w pkgManagerEnv pkgManagerPath installArgs pkgs
      ("--- Upgrading system packages..." +:+ LF
       +:+ "--- System upgrade result: " +:+ fmtErr err +:+ " - " +:+ TrimSpace result
       +:+ LF +:+ LF)
  else ret EmptyString.

Definition clockEnv (w : World) : list string := ["PATH=" +:+ CommonPATH w].

(** Use three tools to immediately synchronise system clock. *)
Definition synchroniseClock (w : World) : M string :=
  do (result, err) <- invokeProgram w (clockEnv w) 60 "ntpdate"
       ["-4"; "0.pool.ntp.org"; "us.pool.ntp.org"; "de.pool.ntp.org"; "nz.pool.ntp.org"];
  let out1 := "--- clock synchronisation result (ntpdate): " +:+ fmtErr err +:+ " - "
              +:+ TrimSpace result +:+ LF +:+ LF in
  do (result, err) <- invokeProgram w (clockEnv w) 60 "chronyd"
       ["-q"; "pool pool.ntp.org iburst"];
  let out2 := "--- clock synchronisation result (chronyd): " +:+ fmtErr err +:+ " - "
              +:+ TrimSpace result +:+ LF +:+ LF in
  do (result, err) <- invokeProgram w (clockEnv w) 60 "busybox"
       ["ntpd"; "-n"; "-q"; "-p"; "ie.pool.ntp.org"; "ca.pool.ntp.org"; "au.pool.ntp.org"];
  let out3 := "--- clock synchronisation result (busybox): " +:+ fmtErr err +:+ " - "
              +:+ TrimSpace result +:+ LF +:+ LF in
  ret (out1 +:+ out2 +:+ out3).

(** The correction of a program startup time that lies in the future. *)
Definition correctStartupTime (w : World) : M string :=
  do startupTime <- getStartupTime;
  do now <- timeNow w;
  if After startupTime now then
    (* The earliest possible opportunity for system maintenance to run is now
       minus minimum interval *)
    do now <- timeNow w;
    perform setStartupTime (now + (- MinimumIntervalSec * Second));
    ret ("--- clock was severely skewed, reset program startup time." +:+ LF)
  else ret EmptyString.

(** SystemMaintenance uses Linux package manager to ensure that all system
    packages are up to date and laitos dependencies are installed and up to
    date.  Returns human-readable result output. *)
Definition SystemMaintenance (w : World) (daemon : Daemon) : M string :=
  let out := "--- Conducting system maintenance..." +:+ LF in
  (* Find a system package manager *)
  let '(pkgManagerPath, pkgManagerName) :=
    findPkgManager w binPrefixes EmptyString EmptyString in
  perform logLine Info "SystemMaintenance" EmptyString None
      ("package manager is " +:+ QUOTE +:+ pkgManagerPath +:+ QUOTE);
  let out := out +:+ "--- Package manage is " +:+ QUOTE +:+ pkgManagerPath +:+ QUOTE +:+ LF in
  (* apt-get is too old to be convenient, it has to update the manifest first. *)
  do (pkgManagerEnv, written) <- updateAptManifests w pkgManagerName pkgManagerPath;
  let out := out +:+ written in
  (* Determine package manager invocation parameters *)
  let '(sysUpgradeArgs, installArgs, written) := pkgManagerArgs pkgManagerName in
  let out := out +:+ written in
  do written <- upgradeAndInstall w pkgManagerEnv pkgManagerName pkgManagerPath
                  sysUpgradeArgs installArgs;
  let out := out +:+ written in
  do written <- synchroniseClock w;
  let out := out +:+ written in
  do written <- correctStartupTime w;
  let out := out +:+ written in
  let out := out +:+ "--- System maintenance has finished." +:+ LF in
  perform logLine Info "SystemMaintenance" EmptyString None "maintenance is finished";
  ret out.

Definition selfTestOf (t : option SelfTester) : option string :=
  match t with
  | Some tester => SelfTest tester
  | None => None
  end.

Definition isNil (err : option string) : bool :=
  match err with None => true | Some _ => false end.

(** The lines of the report about one self test. *)
Definition checkLines (okText errText : string) (err : option string) : string :=
  match err with
  | None => LF +:+ okText +:+ LF
  | Some e => LF +:+ errText +:+ e +:+ LF
  end.

(** The mail body that [Execute] composes. *)
Definition composeReport (w : World) (allOK : bool) (maintResult : string)
           (portsErr featureErr mailCmdRunnerErr httpHandlersErr : option string) : string :=
  (if allOK then "All OK" +:+ LF else "There are errors!!!" +:+ LF)
  (* Latest runtime info *)
  +:+ GetRuntimeInfo w
  (* Latest stats *)
  +:+ LF +:+ "Daemon stats - low/avg/high/total seconds and (count):" +:+ LF
  +:+ GetLatestStats w
  (* Self test results *)
  +:+ checkLines "Ports: OK" "Port errors: " portsErr
  +:+ checkLines "Features: OK" "Feature errors: " featureErr
  +:+ checkLines "Mail processor: OK" "Mail processor errors: " mailCmdRunnerErr
  +:+ checkLines "HTTP handlers: OK" "HTTP handler errors: " httpHandlersErr
  (* Maintenance results, warnings, logs, and stack traces, in that order. *)
  +:+ LF +:+ "System maintenance:" +:+ LF
  +:+ maintResult
  +:+ LF +:+ "Warnings:" +:+ LF
  +:+ GetLatestWarnings w
  +:+ LF +:+ "Logs:" +:+ LF
  +:+ GetLatestLog w
  +:+ LF +:+ "Stack traces:" +:+ LF
  +:+ GetGoroutineStacktraces w.

(** Check TCP ports and features, return all-OK or not. *)
Definition Execute (w : World) (r : MapRange) (sch : Scheduler) (daemon : Daemon)
  : M (string * bool) :=
  perform logLine Info "Execute" EmptyString None "running now";
  (* Conduct system maintenance first *)
  do maintResult <- SystemMaintenance w daemon;
  (* Checks in parallel: ports, toolbox features, mail command runner and HTTP
     handlers; only the port check touches the state. *)
  do portsErr <- runPortsCheck w r sch daemon;
  let featureErr := selfTestOf (FeaturesToTest daemon) in
  let mailCmdRunnerErr := selfTestOf (MailCmdRunnerToTest daemon) in
  let httpHandlersErr := selfTestOf (HTTPHandlersToCheck daemon) in
  (* Results are ready, time to compose mail body. *)
  let allOK := isNil portsErr && isNil featureErr && isNil mailCmdRunnerErr
               && isNil httpHandlersErr in
  let result := composeReport w allOK maintResult portsErr featureErr mailCmdRunnerErr
                              httpHandlersErr in
  (* Send away! *)
  perform (if allOK
       then logLine Info "Execute" EmptyString None "completed with everything being OK"
       else logLine Warning "Execute" EmptyString None "completed with some errors");
  do err <- sendMail w (OutgoingMailSubjectKeyword w +:+ "-maintenance") result
              (Recipients daemon);
  perform (match err with
       | Some _ => logLine Warning "Execute" EmptyString err "failed to send notification mail"
       | None => ret tt
       end);
  ret (LintMailBody w result, allOK).

Definition setIntervalSec (daemon : Daemon) (v : Z) : Daemon :=
  {| CheckTCPPorts := CheckTCPPorts daemon; IntervalSec := v;
     Recipients := Recipients daemon; FeaturesToTest := FeaturesToTest daemon;
     MailCmdRunnerToTest := MailCmdRunnerToTest daemon;
     HTTPHandlersToCheck := HTTPHandlersToCheck daemon;
     loopIsRunning := loopIsRunning daemon; stop := stop daemon; logger := logger daemon |}.

Definition setLoopIsRunning (daemon : Daemon) (v : Z) : Daemon :=
  {| CheckTCPPorts := CheckTCPPorts daemon; IntervalSec := IntervalSec daemon;
     Recipients := Recipients daemon; FeaturesToTest := FeaturesToTest daemon;
     MailCmdRunnerToTest := MailCmdRunnerToTest daemon;
     HTTPHandlersToCheck := HTTPHandlersToCheck daemon;
     loopIsRunning := v; stop := stop daemon; logger := logger daemon |}.

(** The two assignments at the end of [Initialise].  [stop] records that a
    channel has been made; which channel it is (every [Initialise] makes a new
    one) is not embedded. *)
Definition makeStopAndLogger (daemon : Daemon) : Daemon :=
  {| CheckTCPPorts := CheckTCPPorts daemon; IntervalSec := IntervalSec daemon;
     Recipients := Recipients daemon; FeaturesToTest := FeaturesToTest daemon;
     MailCmdRunnerToTest := MailCmdRunnerToTest daemon;
     HTTPHandlersToCheck := HTTPHandlersToCheck daemon;
     loopIsRunning := loopIsRunning daemon; stop := true;
     logger := {| ComponentName := "maintenance";
                  ComponentID := Itoa (IntervalSec daemon) |} |}.

(** [Initialise]: the daemon it leaves and the error it returns. *)
Definition Initialise (daemon : Daemon) : Daemon * option string :=
  if IntervalSec daemon <? 1 then
    (* quite reasonable to run maintenance daily *)
    (makeStopAndLogger (setIntervalSec daemon (24 * 3600)), None)
  else if IntervalSec daemon <? MinimumIntervalSec then
    (daemon, Some ("maintenance.StartAndBlock: IntervalSec must be at or above "
                     +:+ Itoa MinimumIntervalSec))
  else (makeStopAndLogger daemon, None).

(** The only error that [StartAndBlock] returns. *)
Inductive LoopError := ErrEmergencyLockDown.

(** One [Execute] of the loop: the time it was scheduled at, and the times
    on the timer clock at which it started and finished. *)
Record Run := { scheduledAt : Z; startedAt : Z; finishedAt : Z;
                report : string; reportOK : bool }.

(** The variables of [StartAndBlock], the daemon and the process state, and
    the runs made so far. *)
Record Loop := {
  firstTime : bool;
  nextRunAt : Z;
  clock : Z; (* the timer clock *)
  loopDaemon : Daemon;
  loopState : State;
  runs : list Run
}.

(** What one iteration of the loop meets: the value of
    [misc.EmergencyLockDown] at its top, whether [select] receives from the
    stop channel before the timer fires, the world in which [Execute] runs,
    and how long [Execute] takes. *)
Record Iteration := {
  EmergencyLockDown : bool;
  stopReceived : bool;
  world : World;
  executeTakes : Z
}.

Definition withDaemon (l : Loop) (daemon : Daemon) : Loop :=
  {| firstTime := firstTime l; nextRunAt := nextRunAt l; clock := clock l;
     loopDaemon := daemon; loopState := loopState l; runs := runs l |}.

(** The case of [select] in which the timer fires: at [nextRunAt], or at
    once when that time has passed. *)
Definition timerFires (r : MapRange) (sch : Scheduler) (it : Iteration) (l : Loop) : Loop :=
  let daemon := loopDaemon l in
  let wait := timeSub (nextRunAt l) (clock l) in (* time.Until(nextRunAt) *)
  let fired := clock l + Z.max 0 wait in
  let nextRunAt' := nextRunAt l + wrap64 (IntervalSec daemon * Second) in
  let '(result, st) := Execute (world it) r sch daemon (loopState l) in
  let finished := fired + executeTakes it in
  {| firstTime := false; nextRunAt := nextRunAt'; clock := finished;
     loopDaemon := daemon; loopState := st;
     runs := runs l ++ [ {| scheduledAt := nextRunAt l; startedAt := fired;
                            finishedAt := finished;
                            report := result.1; reportOK := result.2 |} ] |}.

(** One iteration of the loop of [StartAndBlock]: the loop goes on ([inl]) or
    the function returns ([inr]). *)
Definition iterate (r : MapRange) (sch : Scheduler) (it : Iteration) (l : Loop)
  : Loop + (Loop * option LoopError) :=
  if EmergencyLockDown it then
    inr (withDaemon l (setLoopIsRunning (loopDaemon l) 0), Some ErrEmergencyLockDown)
  else
    let l := withDaemon l (setLoopIsRunning (loopDaemon l) 1) in
    if firstTime l then
      if stopReceived it then inr (withDaemon l (setLoopIsRunning (loopDaemon l) 0), None)
      else inl (timerFires r sch it l)
    else
      (* Afterwards, try to maintain a steady rate of execution. *)
      if stopReceived it then inr (withDaemon l (setLoopIsRunning (loopDaemon l) 0), None)
      else inl (timerFires r sch it l).

Fixpoint loopFrom (r : MapRange) (sch : Scheduler) (its : list Iteration) (l : Loop)
  : Loop + (Loop * option LoopError) :=
  match its with
  | [] => inl l
  | it :: rest =>
      match iterate r sch it l with
      | inl l' => loopFrom r sch rest l'
      | inr returned => inr returned
      end
  end.

(** Start health check loop and block caller until Stop function is called.
    [now] is the time at which the function starts; the loop runs through the
    iterations [its], and is still in the loop ([inl]) when they do not make
    it return. *)
Definition StartAndBlock (r : MapRange) (sch : Scheduler) (daemon : Daemon) (st : State)
           (now : Z) (its : list Iteration) : Loop + (Loop * option LoopError) :=
  (* The very first health check is executed soon (10 minutes) after health
     check daemon starts up *)
  loopFrom r sch its
           {| firstTime := true; nextRunAt := now + 10 * Minute; clock := now;
              loopDaemon := daemon; loopState := st; runs := [] |}.

(** Stop previously started health check loop: the daemon it leaves, and
    whether it sends on the stop channel (and blocks until the loop
    receives). *)
Definition Stop (daemon : Daemon) : Daemon * bool :=
  if loopIsRunning daemon =? 1 (* atomic.CompareAndSwapInt32 *)
  then (setLoopIsRunning daemon 0, true)
  else (daemon, false).

End maintenance.

(** ** Package feature *)

Module feature.

(** A feature, by what its methods answer: [Trigger()], [IsConfigured()] and
    the error of [Initialise()]. *)
Record Feature := {
  Trigger : string;
  IsConfigured : bool;
  Initialise : option string
}.

(** A pointer to one of the features of the set ([&fs.Facebook], ...). *)
Inductive FeatureRef :=
| RefFacebook | RefShell | RefTwilio | RefTwitter | RefWolframAlpha | RefUndocumented1.

(** Aggregate all available features together. *)
Record FeatureSet := {
  Facebook : Feature;
  Shell : Feature;
  Twilio : Feature;
  Twitter : Feature;
  WolframAlpha : Feature;
  Undocumented1 : Feature;
  LookupByPrefix : gmap string FeatureRef
}.

Definition deref (fs : FeatureSet) (ref : FeatureRef) : Feature :=
  match ref with
  | RefFacebook => Facebook fs
  | RefShell => Shell fs
  | RefTwilio => Twilio fs
  | RefTwitter => Twitter fs
  | RefWolframAlpha => WolframAlpha fs
  | RefUndocumented1 => Undocumented1 fs
  end.

Definition setLookupByPrefix (fs : FeatureSet) (m : gmap string FeatureRef) : FeatureSet :=
  {| Facebook := Facebook fs; Shell := Shell fs; Twilio := Twilio fs; Twitter := Twitter fs;
     WolframAlpha := WolframAlpha fs; Undocumented1 := Undocumented1 fs;
     LookupByPrefix := m |}.

(** The order in which the entries of the map literal [prefixes] are
    assigned.  The language does not specify the order of the map assignments
    of a composite literal, so of two features with one trigger either one may
    stay: the literal is embedded as a function of this order. *)
Record LiteralOrder := {
  assignments : list FeatureRef;
  assignments_perm :
    assignments
    ≡ₚ [RefFacebook; RefShell; RefTwilio; RefTwitter; RefWolframAlpha; RefUndocumented1]
}.

(** One possible order: the entries are assigned as they are written. *)
Definition writtenOrder : LiteralOrder :=
  {| assignments :=
       [RefFacebook; RefShell; RefTwilio; RefTwitter; RefWolframAlpha; RefUndocumented1];
     assignments_perm := reflexivity _ |}.

(** Another one: from the last entry to the first. *)
Definition reverseOrder : LiteralOrder :=
  {| assignments :=
       reverse
         [RefFacebook; RefShell; RefTwilio; RefTwitter; RefWolframAlpha; RefUndocumented1];
     assignments_perm := reverse_Permutation _ |}.

(** The map literal [prefixes]: the entry of each feature is stored under its
    trigger, an entry that is assigned later replacing one with the same
    trigger. *)
Definition prefixes (o : LiteralOrder) (fs : FeatureSet) : gmap string FeatureRef :=
  fold_left (λ m ref, <[Trigger (deref fs ref) := ref]> m) (assignments o) ∅.

(** The loop of [Initialise] over the entries of [prefixes], which returns at
    the first feature that fails to initialise. *)
Fixpoint initialiseAll (fs : FeatureSet) (entries : list (string * FeatureRef))
  : FeatureSet * option string :=
  match entries with
  | [] => (fs, None)
  | (prefix, featureRef) :: rest =>
      if IsConfigured (deref fs featureRef) then
        match Initialise (deref fs featureRef) with
        | Some err => (fs, Some err)
        | None =>
            initialiseAll
              (setLookupByPrefix fs (<[prefix := featureRef]> (LookupByPrefix fs))) rest
        end
      else initialiseAll fs rest
  end.

(** Run initialisation routine on all features, and then populate lookup
    table for all configured features. *)
Definition FeatureSet_Initialise (o : LiteralOrder) (r : MapRange) (fs : FeatureSet)
  : FeatureSet * option string :=
  let fs := setLookupByPrefix fs ∅ in
  initialiseAll fs (rangeEntries r (prefixes o fs)).

(** The goroutine of [SelfTest] for one feature: it stores the error of the
    self test under the trigger of the feature. *)
Definition selfTestOne (selfTest : FeatureRef → option string) (fs : FeatureSet)
           (ret : gmap string string) (ref : FeatureRef) : gmap string string :=
  match selfTest ref with
  | Some err => <[Trigger (deref fs ref) := err]> ret
  | None => ret
  end.

(** Run self test of all configured features in parallel.  Return test errors
    if any.  [selfTest] is the error of the [SelfTest()] of each feature. *)
Definition FeatureSet_SelfTest (selfTest : FeatureRef → option string) (r : MapRange)
           (sch : Scheduler) (fs : FeatureSet) : gmap string string :=
  fold_left (selfTestOne selfTest fs)
            (schedule sch _ (rangeEntries r (LookupByPrefix fs)).*2) ∅.

End feature.

(** ** Feature sets to run the embedding on *)

Module FeatureScenarios.
Import feature.

Definition unconfigured (trigger : string) : Feature :=
  {| Trigger := trigger; IsConfigured := false; Initialise := None |}.

Definition working (trigger : string) : Feature :=
  {| Trigger := trigger; IsConfigured := true; Initialise := None |}.

Definition broken (trigger : string) : Feature :=
  {| Trigger := trigger; IsConfigured := true;
     Initialise := Some "the configuration is incomplete" |}.

(** Only the shell and Wolfram Alpha are configured, and both initialise. *)
Definition shellAndWolfram : FeatureSet :=
  {| Facebook := unconfigured ".f"; Shell := working ".s"; Twilio := unconfigured ".c";
     Twitter := unconfigured ".t"; WolframAlpha := working ".w";
     Undocumented1 := unconfigured ".u"; LookupByPrefix := ∅ |}.

(** The shell initialises, Twitter is configured and fails to. *)
Definition brokenTwitter : FeatureSet :=
  {| Facebook := unconfigured ".f"; Shell := working ".s"; Twilio := unconfigured ".c";
     Twitter := broken ".t"; WolframAlpha := unconfigured ".w";
     Undocumented1 := unconfigured ".u"; LookupByPrefix := ∅ |}.

End FeatureScenarios.

(** ** Worlds and daemons to run the embedding on *)

Module Scenarios.
Import maintenance.

(** A machine without a package manager, on which every program prints
    nothing and every connection opens. *)
Definition bareWorld : World :=
  {| IsGCE := false; IsAzure := false;
     DialTimeout := λ _ _ _, None;
     Stat := λ _, Some "no such file or directory";
     InvokeProgram := λ _ _ _ _ _, (EmptyString, None);
     Now := λ n, 1500000000 * Second + Z.of_nat n;
     Format := λ _, "0.00/0.00/0.00/0.00(0)";
     GetRuntimeInfo := "Clock: now" +:+ LF;
     GetLatestWarnings := EmptyString;
     GetLatestLog := EmptyString;
     GetGoroutineStacktraces := EmptyString;
     OutgoingMailSubjectKeyword := "laitos";
     CommonPATH := "/sbin:/bin:/usr/sbin:/usr/bin";
     Send := λ _ _ _, None;
     LintMailBody := λ body, body |}.

(** The same machine with yum, which finds every package up to date. *)
Definition yumWorld : World :=
  {| IsGCE := false; IsAzure := false;
     DialTimeout := λ _ _ _, None;
     Stat := λ path, if String.eqb path "/usr/bin/yum" then None
                     else Some "no such file or directory";
     InvokeProgram := λ _ _ _ program _,
       if String.eqb program "/usr/bin/yum" then ("Nothing to do" +:+ LF, None)
       else (EmptyString, Some "executable file not found in $PATH");
     Now := λ n, 1500000000 * Second + Z.of_nat n;
     Format := λ _, "0.00/0.00/0.00/0.00(0)";
     GetRuntimeInfo := "Clock: now" +:+ LF;
     GetLatestWarnings := EmptyString;
     GetLatestLog := EmptyString;
     GetGoroutineStacktraces := EmptyString;
     OutgoingMailSubjectKeyword := "laitos";
     CommonPATH := "/sbin:/bin:/usr/sbin:/usr/bin";
     Send := λ _ _ _, None;
     LintMailBody := λ body, body |}.

(** A machine on Google compute engine on which no connection opens. *)
Definition gceWorld : World :=
  {| IsGCE := true; IsAzure := false;
     DialTimeout := λ _ _ _, Some "connection refused";
     Stat := λ _, Some "no such file or directory";
     InvokeProgram := λ _ _ _ _ _, (EmptyString, None);
     Now := λ n, 1500000000 * Second + Z.of_nat n;
     Format := λ _, "0.00/0.00/0.00/0.00(0)";
     GetRuntimeInfo := "Clock: now" +:+ LF;
     GetLatestWarnings := EmptyString;
     GetLatestLog := EmptyString;
     GetGoroutineStacktraces := EmptyString;
     OutgoingMailSubjectKeyword := "laitos";
     CommonPATH := "/sbin:/bin:/usr/sbin:/usr/bin";
     Send := λ _ _ _, None;
     LintMailBody := λ body, body |}.

Definition freshState : State :=
  {| StartupTime := 1500000000 * Second; invoked := []; clockReads := 0; dialed := [];
     logged := []; mailed := [] |}.

(** A state whose startup time lies in the future of [bareWorld]'s clock. *)
Definition skewedState : State :=
  {| StartupTime := 1600000000 * Second; invoked := []; clockReads := 0; dialed := [];
     logged := []; mailed := [] |}.

Definition daemonWith (intervalSec : Z) (ports : option (gmap string (option (list Z))))
  : Daemon :=
  {| CheckTCPPorts := ports; IntervalSec := intervalSec; Recipients := ["howard@localhost"];
     FeaturesToTest := Some {| SelfTest := None |};
     MailCmdRunnerToTest := Some {| SelfTest := None |};
     HTTPHandlersToCheck := Some {| SelfTest := None |};
     loopIsRunning := 0; stop := false;
     logger := {| ComponentName := EmptyString; ComponentID := EmptyString |} |}.

Definition hourlyDaemon : Daemon := (Initialise (daemonWith 3600 None)).1.

(** The daemon of the test: it knocks on a port of the local host, and on
    the mail port of a mail host. *)
Definition knockingDaemon : Daemon :=
  daemonWith 3600
    (Some (<["mx.example.com" := Some [25]]> (<["localhost" := Some [11334]]> ∅))).

(** A daemon without ports to knock on, whose toolbox features fail their
    self test; it has no HTTP handlers to check. *)
Definition failingFeaturesDaemon : Daemon :=
  {| CheckTCPPorts := None; IntervalSec := 3600; Recipients := ["howard@localhost"];
     FeaturesToTest := Some {| SelfTest := Some ".s: the interpreter is not available" |};
     MailCmdRunnerToTest := Some {| SelfTest := None |};
     HTTPHandlersToCheck := None;
     loopIsRunning := 0; stop := false;
     logger := {| ComponentName := EmptyString; ComponentID := EmptyString |} |}.

(** An iteration of the loop in which the timer fires and [Execute] takes
    [secs] seconds. *)
Definition fires (secs : Z) : Iteration :=
  {| EmergencyLockDown := false; stopReceived := false; world := bareWorld;
     executeTakes := secs * Second |}.

Definition lockedDown : Iteration :=
  {| EmergencyLockDown := true; stopReceived := false; world := bareWorld;
     executeTakes := 0 |}.

Definition stopped : Iteration :=
  {| EmergencyLockDown := false; stopReceived := true; world := bareWorld;
     executeTakes := 0 |}.

End Scenarios.

(** ** Vocabulary of the statements *)

Import maintenance.

(** An iteration that neither meets the lockdown nor receives a stop. *)
Definition continuing (it : Iteration) : bool :=
  negb (EmergencyLockDown it) && negb (stopReceived it).

(** The times of the runs that the loop makes from a state with the given
    [next] run time and [clock], when [Execute] takes the times [takes] and the
    interval is [d]: each run is scheduled [d] after the one before, and starts
    at its scheduled time or, when that has passed, at once. *)
Fixpoint scheduleFrom (d next clock : Z) (takes : list Z) : list (Z * Z * Z) :=
  match takes with
  | [] => []
  | t :: rest =>
      let started := Z.max next clock in
      (next, started, started + t) :: scheduleFrom d (next + d) (started + t) rest
  end.

Definition runTimes (run : Run) : Z * Z * Z :=
  (scheduledAt run, startedAt run, finishedAt run).

(** A step that leaves the startup time and the number of clock readings as
    they are. *)
Definition keepsClock {A} (m : M A) : Prop :=
  ∀ s, StartupTime (m s).2 = StartupTime s ∧ clockReads (m s).2 = clockReads s.

(** The startup time that the correction at the end of [SystemMaintenance]
    leaves, from the state [s] in which the maintenance starts: the clock is
    read once, and once more when the startup time lies after that reading. *)
Definition correctedStartupTime (w : World) (s : State) : Z :=
  if Now w (clockReads s) <? StartupTime s
  then Now w (S (clockReads s)) - MinimumIntervalSec * Second
  else StartupTime s.

Definition corrects {A} (w : World) (m : M A) : Prop :=
  ∀ s, StartupTime (m s).2 = correctedStartupTime w s.

(** [inet.LintMailBody] keeps the text [needle] in the bodies that hold it. *)
Definition keepsText (w : World) (needle : string) : Prop :=
  ∀ body, Contains body needle = true → Contains (LintMailBody w body) needle = true.

(** What [installPackage] writes for a package whose output is suppressed. *)
Definition suppressedLine (name : string) (err : option string) : string :=
  "--- " +:+ name +:+ " installation/upgrade result: " +:+ fmtErr err
  +:+ " - Nothing to do" +:+ LF +:+ LF.

(** The feature behind [ref] is configured and its [Initialise()] returns
    nil. *)
Definition initialised (fs : feature.FeatureSet) (ref : feature.FeatureRef) : Prop :=
  feature.IsConfigured (feature.deref fs ref) = true
  ∧ feature.Initialise (feature.deref fs ref) = None.

(** The list that the goroutine of [DownloadAllBlacklists] stores for [url]. *)
Definition parsed (DoHTTP : string → dnsd.HTTPResponse) (url : string) : option (list string) :=
  Some (dnsd.ExtractNamesFromHostsContent (dnsd.Body (DoHTTP url))).

(** A server of hosts files: two of the four lists answer, with one name in
    common; the other two downloads fail. *)
Definition twoLists (url : string) : dnsd.HTTPResponse :=
  if String.eqb url "http://winhelp2002.mvps.org/hosts.txt" then
    {| dnsd.Body := "0.0.0.0 ads.example.com" +:+ LF +:+ "0.0.0.0 track.example.net" +:+ LF;
       dnsd.Err := None |}
  else if String.eqb url "http://someonewhocares.org/hosts/hosts" then
    {| dnsd.Body := "127.0.0.1 localhost" +:+ LF +:+ "127.0.0.1 Ads.Example.com" +:+ LF;
       dnsd.Err := None |}
  else {| dnsd.Body := EmptyString; dnsd.Err := Some "timeout" |}.

(** Strings of white space. *)
Fixpoint allSpace (s : string) : bool :=
  match s with
  | EmptyString => true
  | String c s' => isSpace c && allSpace s'
  end.

(** A byte of a name: neither white space nor the start of a comment. *)
Definition isNameByte (c : ascii) : bool := negb (isSpace c) && negb (Ascii.eqb c "#").

Fixpoint nameBytes (s : string) : bool :=
  match s with
  | EmptyString => true
  | String c s' => isNameByte c && nameBytes s'
  end.

(** A first field: it starts with a byte of a name and holds no space
    character (0x20). *)
Definition tokenShape (tok : string) : bool :=
  match tok with
  | EmptyString => false
  | String c _ => isNameByte c && (IndexRune tok " " =? -1)
  end.

(** What may follow the name: nothing, or a comment. *)
Definition commentShape (comment : string) : bool :=
  isEmpty comment || HasPrefix comment "#".

(** Local names and overly short names. *)
Definition rejected (aName : string) : bool :=
  HasSuffix aName "localhost" || HasSuffix aName "localdomain" || (len aName <? 4).

(** A string that does not start with white space. *)
Definition trimmedLeft (s : string) : bool :=
  match s with
  | EmptyString => true
  | String c _ => negb (isSpace c)
  end.

(** The number of bytes [c] in a string. *)
Fixpoint countByte (c : ascii) (s : string) : nat :=
  match s with
  | EmptyString => 0
  | String x s' => (if Ascii.eqb x c then 1 else 0) + countByte c s'
  end.

(** The line that the goroutine of [DownloadAllBlacklists] logs for [url]. *)
Definition downloadLine (DoHTTP : string → dnsd.HTTPResponse) (url : string)
  : dnsd.LogLine :=
  {| dnsd.logFun := "DownloadAllBlacklists"; dnsd.logAction := url;
     dnsd.logErr := dnsd.Err (DoHTTP url);
     dnsd.logCount :=
       Z.of_nat (length (dnsd.ExtractNamesFromHostsContent (dnsd.Body (DoHTTP url)))) |}.

(** A feature set in which the shell and Twitter answer to one trigger. *)
Definition sharedTrigger : feature.FeatureSet :=
  {| feature.Facebook := FeatureScenarios.unconfigured ".f";
     feature.Shell := FeatureScenarios.working ".s";
     feature.Twilio := FeatureScenarios.unconfigured ".c";
     feature.Twitter := FeatureScenarios.working ".s";
     feature.WolframAlpha := FeatureScenarios.unconfigured ".w";
     feature.Undocumented1 := FeatureScenarios.unconfigured ".u";
     feature.LookupByPrefix := ∅ |}.

(** The (host, port) pairs of one entry of CheckTCPPorts: none for an empty
    host name or a nil list. *)
Definition portsOfEntry (entry : string * option (list Z)) : list (string * Z) :=
  match entry.2 with
  | None => []
  | Some ports => if isEmpty entry.1 then [] else (λ port, (entry.1, port)) <$> ports
  end.

(** Port 25 is not knocked on Google compute engine and on Azure. *)
Definition knockable (w : World) (job : string * Z) : bool :=
  negb ((job.2 =? 25) && (IsGCE w || IsAzure w)).

(** The address that is dialed for a port of a host. *)
Definition destOf (job : string * Z) : string := JoinHostPort job.1 (Itoa job.2).

(** The connection to the port does not open. *)
Definition refuses (w : World) (job : string * Z) : bool :=
  negb (isNil (DialTimeout w "tcp" (destOf job) (TCPPortCheckTimeoutSec * Second))).

(** A step that sends no mail. *)
Definition keepsMail {A} (m : M A) : Prop := ∀ s, mailed (m s).2 = mailed s.

(** The world in which [MailClient.Send] answers [send]. *)
Definition withSend (w : World) (send : string → string → list string → option string)
  : World :=
  {| IsGCE := IsGCE w; IsAzure := IsAzure w; DialTimeout := DialTimeout w; Stat := Stat w;
     InvokeProgram := InvokeProgram w; Now := Now w; Format := Format w;
     GetRuntimeInfo := GetRuntimeInfo w; GetLatestWarnings := GetLatestWarnings w;
     GetLatestLog := GetLatestLog w; GetGoroutineStacktraces := GetGoroutineStacktraces w;
     OutgoingMailSubjectKeyword := OutgoingMailSubjectKeyword w; CommonPATH := CommonPATH w;
     Send := send; LintMailBody := LintMailBody w |}.

(** The headline of the report. *)
Definition headline (allOK : bool) : string :=
  if allOK then "All OK" +:+ LF else "There are errors!!!" +:+ LF.

(** The mail body that [Execute] composes from the state [s] it starts in. *)
Definition reportBody (w : World) (r : MapRange) (sch : Scheduler) (daemon : Daemon)
           (s : State) : string :=
  let portsErr := (runPortsCheck w r sch daemon s).1 in
  let featureErr := selfTestOf (FeaturesToTest daemon) in
  let mailCmdRunnerErr := selfTestOf (MailCmdRunnerToTest daemon) in
  let httpHandlersErr := selfTestOf (HTTPHandlersToCheck daemon) in
  composeReport w
    (isNil portsErr && isNil featureErr && isNil mailCmdRunnerErr && isNil httpHandlersErr)
    (SystemMaintenance w daemon
       (logLine Info "Execute" EmptyString None "running now" s).2).1
    portsErr featureErr mailCmdRunnerErr httpHandlersErr.

(** The executables that [SystemMaintenance] looks for, in the order of the
    search: directory by directory, and in each yum, zypper, apt-get. *)
Definition candidates : list (string * string) :=
  binPrefixes ≫= λ binPrefix,
    (λ execName, (binPrefix, execName)) <$> ["yum"; "zypper"; "apt-get"].

(** The first candidate that [os.Stat] finds. *)
Fixpoint firstExisting (w : World) (cands : list (string * string))
  : option (string * string) :=
  match cands with
  | [] => None
  | (binPrefix, execName) :: rest =>
      match Stat w (pathJoin binPrefix execName) with
      | None => Some (binPrefix, execName)
      | Some _ => firstExisting w rest
      end
  end.

(** The invocation of the package manager that installs one package. *)
Definition installInvocation (env : list string) (path : string) (installArgs : list string)
           (name : string) : Invocation :=
  {| invEnv := env; invTimeoutSec := 5 * 60; invProgram := path;
     invArgs := installArgs ++ [name] |}.

(** The programs that [SystemMaintenance] runs with the package manager
    [name] found at [path]. *)
Definition packageInvocations (path name : string) : list Invocation :=
  let apt := String.eqb name "apt-get" in
  let env := if apt then ["DEBIAN_FRONTEND=noninteractive"] else [] in
  (if apt
   then [ {| invEnv := env; invTimeoutSec := 5 * 60; invProgram := path;
             invArgs := ["update"] |} ]
   else [])
  ++ {| invEnv := env; invTimeoutSec := 2 * 3600; invProgram := path;
        invArgs := (pkgManagerArgs name).1.1 |}
  :: (installInvocation env path (pkgManagerArgs name).1.2 <$> pkgs).

(** The three programs that synchronise the clock. *)
Definition clockInvocations (w : World) : list Invocation :=
  [ {| invEnv := ["PATH=" +:+ CommonPATH w]; invTimeoutSec := 60; invProgram := "ntpdate";
       invArgs := ["-4"; "0.pool.ntp.org"; "us.pool.ntp.org"; "de.pool.ntp.org";
                   "nz.pool.ntp.org"] |};
    {| invEnv := ["PATH=" +:+ CommonPATH w]; invTimeoutSec := 60; invProgram := "chronyd";
       invArgs := ["-q"; "pool pool.ntp.org iburst"] |};
    {| invEnv := ["PATH=" +:+ CommonPATH w]; invTimeoutSec := 60; invProgram := "busybox";
       invArgs := ["ntpd"; "-n"; "-q"; "-p"; "ie.pool.ntp.org"; "ca.pool.ntp.org";
                   "au.pool.ntp.org"] |} ].

(** The output of the package manager as the report shows it. *)
Definition shownOutput (replacement result : string) : string :=
  TrimSpace (if existsb (Contains result) suppressOutputMarkers then replacement
             else result).

(** The line that [runPortsCheck] logs for a port that it does not knock
    on. *)
Definition skipLine (job : string * Z) : LogLine :=
  {| logLevel := Info; logFun := "runPortsCheck"; logAction := EmptyString; logErr := None;
     logMessage := "because Google cloud forbids connection to port 25, port check will skip "
                   +:+ job.1 +:+ ":25" |}.

(** A step that only adds lines to the log. *)
Definition extendsLog {A} (m : M A) : Prop :=
  ∀ s, ∃ lines, logged (m s).2 = logged s ++ lines.

(** The report of a run is the linted body of the mail of the run. *)
Definition reportOf (run : Iteration * Mail) : string :=
  LintMailBody (world run.1) (mailBody run.2).

(** * Properties *)

(** ** The embedding at work *)

Example TrimSpace_runs :
  TrimSpace ("  127.0.0.1 ads.example.com " +:+ TAB +:+ LF) = "127.0.0.1 ads.example.com"
  ∧ TrimSpace (" " +:+ TAB) = EmptyString.
Proof. split; reflexivity. Qed.

Example Split_runs :
  Split ("a" +:+ LF +:+ LF +:+ "b") "010" = ["a"; EmptyString; "b"]
  ∧ Split EmptyString "010" = [EmptyString].
Proof. split; reflexivity. Qed.

Example Itoa_runs : Itoa 3600 = "3600" ∧ Itoa (-25) = "-25" ∧ Itoa 0 = "0".
Proof. repeat split; reflexivity. Qed.

Example JoinHostPort_runs :
  JoinHostPort "localhost" (Itoa 11334) = "localhost:11334"
  ∧ JoinHostPort "::1" (Itoa 25) = "[::1]:25".
Proof. split; reflexivity. Qed.

Example ExtractNamesFromHostsContent_runs :
  dnsd.ExtractNamesFromHostsContent
    ("# comment" +:+ LF +:+ "127.0.0.1 localhost" +:+ LF +:+ LF
     +:+ "0.0.0.0   Ads.Example.COM  # tracker" +:+ LF +:+ "0.0.0.0 a.b" +:+ LF
     +:+ "0.0.0.0 printer.localdomain" +:+ LF +:+ "example.org" +:+ LF)
  = ["ads.example.com"].
Proof. reflexivity. Qed.

Example Execute_runs :
  (Execute Scenarios.bareWorld plainRange fifoScheduler Scenarios.hourlyDaemon
     Scenarios.freshState).1.2 = true
  ∧ Contains (Execute Scenarios.bareWorld plainRange fifoScheduler Scenarios.hourlyDaemon
                Scenarios.freshState).1.1 ("All OK" +:+ LF) = true
  ∧ Contains (Execute Scenarios.bareWorld plainRange fifoScheduler Scenarios.hourlyDaemon
                Scenarios.freshState).1.1 (LF +:+ "Ports: OK" +:+ LF) = true
  ∧ mailTo <$> mailed (Execute Scenarios.bareWorld plainRange fifoScheduler
                         Scenarios.hourlyDaemon Scenarios.freshState).2
    = [["howard@localhost"]].
Proof. vm_compute. done. Qed.

Example StartAndBlock_stops :
  match StartAndBlock plainRange fifoScheduler Scenarios.hourlyDaemon Scenarios.freshState 0
          [Scenarios.fires 5; Scenarios.stopped; Scenarios.fires 5] with
  | inr (l, None) => loopIsRunning (loopDaemon l) = 0 ∧ length (runs l) = 1%nat
  | _ => False
  end.
Proof. vm_compute. done. Qed.

(** ** Initialise *)

Lemma Initialise_error_iff (daemon : Daemon) :
  (Initialise daemon).2 ≠ None ↔ 1 ≤ IntervalSec daemon < MinimumIntervalSec.
Proof.
  unfold Initialise, MinimumIntervalSec.
  destruct (IntervalSec daemon <? 1) eqn:H1; [apply Z.ltb_lt in H1|apply Z.ltb_ge in H1].
  - simpl. split; [congruence|lia].
  - destruct (IntervalSec daemon <? 3600) eqn:H2;
      [apply Z.ltb_lt in H2|apply Z.ltb_ge in H2]; simpl.
    + split; [intros _; lia|congruence].
    + split; [congruence|lia].
Qed.

(** C5. [Initialise] returns an error exactly when 1 ≤ IntervalSec < 3600;
    when IntervalSec ≤ 0 it sets IntervalSec to 86400 and returns nil; when
    IntervalSec ≥ 3600 it leaves IntervalSec unchanged and returns nil.  (The
    interval it leaves is 86400 for IntervalSec ≤ 0 and the given one
    otherwise, and the error is nil in both of the cases named.) *)
Theorem Initialise_interval (daemon : Daemon) :
  ((Initialise daemon).2 ≠ None ↔ 1 ≤ IntervalSec daemon < 3600)
  ∧ IntervalSec (Initialise daemon).1
    = (if IntervalSec daemon <=? 0 then 86400 else IntervalSec daemon)
  ∧ (Initialise daemon).2
    = (if (1 <=? IntervalSec daemon) && (IntervalSec daemon <? 3600)
       then Some ("maintenance.StartAndBlock: IntervalSec must be at or above 3600")
       else None).
Proof.
  split; [apply Initialise_error_iff|].
  unfold Initialise, MinimumIntervalSec.
  destruct (IntervalSec daemon <? 1) eqn:H1; [apply Z.ltb_lt in H1|apply Z.ltb_ge in H1].
  - simpl. destruct (Z.leb_spec (IntervalSec daemon) 0); [|lia].
    destruct (Z.leb_spec 1 (IntervalSec daemon)); [lia|]. done.
  - destruct (Z.leb_spec (IntervalSec daemon) 0); [lia|].
    destruct (Z.leb_spec 1 (IntervalSec daemon)); [|lia].
    destruct (IntervalSec daemon <? 3600); simpl; done.
Qed.

(** ** The maintenance loop *)

Lemma iterate_lockdown r sch it l :
  EmergencyLockDown it = true →
  iterate r sch it l
  = inr (withDaemon l (setLoopIsRunning (loopDaemon l) 0), Some ErrEmergencyLockDown).
Proof. intros H. unfold iterate. by rewrite H. Qed.

Lemma iterate_returns_cleared r sch it l l' e :
  iterate r sch it l = inr (l', e) → loopIsRunning (loopDaemon l') = 0.
Proof.
  unfold iterate. destruct (EmergencyLockDown it).
  - intros [= <- <-]. done.
  - simpl. destruct (firstTime l), (stopReceived it); intros [= <- <-] || intros [=]; done.
Qed.

Lemma loopFrom_returns_cleared r sch its : ∀ l l' e,
  loopFrom r sch its l = inr (l', e) → loopIsRunning (loopDaemon l') = 0.
Proof.
  induction its as [|it its IH]; intros l l' e; simpl; [intros [=]|].
  destruct (iterate r sch it l) as [l1|[l1 e1]] eqn:Hit.
  - apply IH.
  - intros [= <- <-]. eapply iterate_returns_cleared, Hit.
Qed.

Lemma Stop_not_running daemon :
  loopIsRunning daemon ≠ 1 → Stop daemon = (daemon, false).
Proof. intros H. unfold Stop. destruct (Z.eqb_spec (loopIsRunning daemon) 1); done. Qed.


Lemma iterate_continuing r sch it l :
  continuing it = true →
  iterate r sch it l
  = inl (timerFires r sch it (withDaemon l (setLoopIsRunning (loopDaemon l) 1))).
Proof.
  unfold continuing, iterate. destruct (EmergencyLockDown it), (stopReceived it); try done.
  intros _. simpl. by destruct (firstTime l).
Qed.

Lemma loopFrom_app r sch its1 its2 : ∀ l,
  loopFrom r sch (its1 ++ its2) l
  = match loopFrom r sch its1 l with
    | inl l' => loopFrom r sch its2 l'
    | inr returned => inr returned
    end.
Proof.
  induction its1 as [|it its1 IH]; intros l; simpl; [done|].
  destruct (iterate r sch it l); [apply IH|done].
Qed.

Lemma loopFrom_continuing r sch its : ∀ l,
  forallb continuing its = true → ∃ l', loopFrom r sch its l = inl l'.
Proof.
  induction its as [|it its IH]; intros l H; simpl in *; [eauto|].
  apply andb_prop in H as [H1 H2]. rewrite (iterate_continuing _ _ _ _ H1). by apply IH.
Qed.

(** C4. Whenever EmergencyLockDown is true at the top of the maintenance loop
    (after any number of iterations in which the timer fired),
    [StartAndBlock] returns the lockdown sentinel error and clears the running
    flag; and every [Stop] made while the loop is not running (the flag is not
    1, as it is whenever [StartAndBlock] has returned) is a no-op: it leaves the
    daemon as it is and does not send on the stop channel. *)
Theorem lockdown_returns_sentinel_and_Stop_is_noop :
  (∀ r sch daemon st now before it rest,
      forallb continuing before = true →
      EmergencyLockDown it = true →
      ∃ l', StartAndBlock r sch daemon st now (before ++ it :: rest)
            = inr (l', Some ErrEmergencyLockDown)
            ∧ loopIsRunning (loopDaemon l') = 0)
  ∧ (∀ daemon, loopIsRunning daemon ≠ 1 → Stop daemon = (daemon, false))
  ∧ (∀ r sch daemon st now its l' e,
        StartAndBlock r sch daemon st now its = inr (l', e) →
        Stop (loopDaemon l') = (loopDaemon l', false)).
Proof.
  split; [|split].
  - intros r sch daemon st now before it rest Hb Hit. unfold StartAndBlock.
    rewrite loopFrom_app.
    destruct (loopFrom_continuing r sch before
                {| firstTime := true; nextRunAt := now + 10 * Minute; clock := now;
                   loopDaemon := daemon; loopState := st; runs := [] |} Hb) as [l1 ->].
    simpl. rewrite (iterate_lockdown _ _ _ _ Hit). eauto.
  - apply Stop_not_running.
  - intros r sch daemon st now its l' e H. apply Stop_not_running.
    unfold StartAndBlock in H. apply loopFrom_returns_cleared in H. rewrite H. done.
Qed.

(** At a concrete run: the timer fires twice, then the lockdown is met; the
    function returns the sentinel, and a [Stop] afterwards does nothing. *)
Lemma lockdown_returns_sentinel_and_Stop_is_noop_witness :
  ∃ l', StartAndBlock plainRange fifoScheduler Scenarios.hourlyDaemon Scenarios.freshState 0
          ([Scenarios.fires 5; Scenarios.fires 5] ++ Scenarios.lockedDown :: [Scenarios.fires 5])
        = inr (l', Some ErrEmergencyLockDown)
        ∧ loopIsRunning (loopDaemon l') = 0
        ∧ Stop (loopDaemon l') = (loopDaemon l', false).
Proof.
  destruct lockdown_returns_sentinel_and_Stop_is_noop as (H1 & H2 & H3).
  destruct (H1 plainRange fifoScheduler Scenarios.hourlyDaemon Scenarios.freshState 0
              [Scenarios.fires 5; Scenarios.fires 5] Scenarios.lockedDown [Scenarios.fires 5]
              eq_refl eq_refl) as (l' & Hl' & Hflag).
  exists l'. split; [exact Hl'|]. split; [exact Hflag|].
  apply H2. rewrite Hflag. discriminate.
Defined.

(** ** The schedule of the maintenance loop *)

Lemma wrap64_small x : minDuration ≤ x ≤ maxDuration → wrap64 x = x.
Proof.
  unfold wrap64, minDuration, maxDuration. intros H.
  rewrite Z.mod_small; lia.
Qed.

Lemma timer_fires_at next clock :
  next - clock ≤ maxDuration →
  clock + Z.max 0 (timeSub next clock) = Z.max next clock.
Proof.
  unfold timeSub, minDuration, maxDuration.
  assert (2 ^ 63 = 9223372036854775808) as -> by reflexivity. lia.
Qed.


Lemma loopFrom_schedule r sch its : ∀ l,
  forallb continuing its = true →
  Forall (λ it, 0 ≤ executeTakes it) its →
  IntervalSec (loopDaemon l) * Second ≤ maxDuration →
  minDuration ≤ IntervalSec (loopDaemon l) * Second →
  nextRunAt l - clock l ≤ maxDuration →
  ∃ l', loopFrom r sch its l = inl l'
        ∧ runTimes <$> runs l'
          = (runTimes <$> runs l)
              ++ scheduleFrom (IntervalSec (loopDaemon l) * Second) (nextRunAt l) (clock l)
                   (executeTakes <$> its).
Proof.
  induction its as [|it its IH]; intros l Hc Ht Hd Hd' Hinv; simpl in *.
  - exists l. by rewrite app_nil_r.
  - apply andb_prop in Hc as [Hc1 Hc2]. inversion Ht as [|? ? Ht1 Ht2]; subst.
    rewrite (iterate_continuing _ _ _ _ Hc1).
    set (l1 := timerFires r sch it (withDaemon l (setLoopIsRunning (loopDaemon l) 1))).
    assert (Hl1 : IntervalSec (loopDaemon l1) = IntervalSec (loopDaemon l)
                  ∧ nextRunAt l1 = nextRunAt l + IntervalSec (loopDaemon l) * Second
                  ∧ clock l1 = Z.max (nextRunAt l) (clock l) + executeTakes it
                  ∧ runTimes <$> runs l1
                    = (runTimes <$> runs l)
                        ++ [ (nextRunAt l, Z.max (nextRunAt l) (clock l),
                              Z.max (nextRunAt l) (clock l) + executeTakes it) ]).
    { subst l1. unfold timerFires. simpl.
      destruct (Execute (world it) r sch _ (loopState l)) as [result st] eqn:HE. simpl.
      rewrite wrap64_small by lia. rewrite timer_fires_at by lia.
      rewrite fmap_app. done. }
    destruct Hl1 as (HI & Hn & Hclk & Hruns).
    destruct (IH l1 Hc2 Ht2) as (l' & Hl' & Hr).
    { rewrite HI. lia. }
    { rewrite HI. lia. }
    { rewrite Hn, Hclk. lia. }
    exists l'. split; [exact Hl'|]. rewrite Hr, Hruns, HI, Hn, Hclk.
    rewrite <- app_assoc. done.
Qed.

Lemma scheduleFrom_length d takes : ∀ next clock,
  length (scheduleFrom d next clock takes) = length takes.
Proof. induction takes as [|t takes IH]; intros; simpl; [done|]. by rewrite IH. Qed.

Lemma scheduleFrom_lookup d takes : ∀ next clock k x,
  scheduleFrom d next clock takes !! k = Some x →
  x.1.1 = next + Z.of_nat k * d
  ∧ x.1.2 = Z.max x.1.1
              (match k with
               | O => clock
               | S k' => from_option snd clock (scheduleFrom d next clock takes !! k')
               end)
  ∧ (∀ t, takes !! k = Some t → x.2 = x.1.2 + t).
Proof.
  induction takes as [|t takes IH]; intros next clock k x; simpl; [done|].
  destruct k as [|k]; simpl.
  - intros [= <-]. simpl. split; [lia|]. split; [done|]. by intros ? [= <-].
  - intros H. destruct (IH _ _ _ _ H) as (H1 & H2 & H3).
    split; [lia|]. split; [|exact H3].
    rewrite H2. destruct k as [|k]; simpl; [done|].
    destruct (scheduleFrom d (next + d) (Z.max next clock + t) takes !! k) eqn:Hk; [done|].
    apply lookup_ge_None in Hk. apply lookup_lt_Some in H. lia.
Qed.

(** C3, as the code has it.  For every IntervalSec ≥ MinimumIntervalSec whose
    length in nanoseconds fits a [time.Duration], as long as the loop neither
    meets the lockdown nor receives a stop: every iteration runs [Execute] once;
    the k-th [Execute] (from 0) is scheduled at start + 10 minutes +
    k·IntervalSec, that is at the previous scheduled time plus IntervalSec and
    not at the previous finish time plus IntervalSec; the first one starts 10
    minutes after [StartAndBlock] begins; and each later one starts at its
    scheduled time or, when the run before it finished later than that, as soon
    as that run finishes.  A tick that a run overlaps is run late; it is not
    dropped. *)
Theorem schedule_is_anchored r sch daemon st now its :
  MinimumIntervalSec ≤ IntervalSec daemon →
  IntervalSec daemon * Second ≤ maxDuration →
  forallb continuing its = true →
  Forall (λ it, 0 ≤ executeTakes it) its →
  ∃ l, StartAndBlock r sch daemon st now its = inl l
       ∧ length (runs l) = length its
       ∧ (∀ k run, runs l !! k = Some run →
            scheduledAt run = now + 10 * Minute + Z.of_nat k * (IntervalSec daemon * Second)
            ∧ startedAt run
              = Z.max (scheduledAt run)
                  (match k with
                   | O => now
                   | S k' => from_option finishedAt now (runs l !! k')
                   end)
            ∧ (∀ it, its !! k = Some it → finishedAt run = startedAt run + executeTakes it))
       ∧ (∀ run, runs l !! 0%nat = Some run → startedAt run = now + 10 * Minute).
Proof.
  intros Hmin Hmax Hc Ht. unfold StartAndBlock.
  set (l0 := {| firstTime := true; nextRunAt := now + 10 * Minute; clock := now;
                loopDaemon := daemon; loopState := st; runs := [] |}).
  assert (Hm : 0 ≤ MinimumIntervalSec * Second) by (unfold MinimumIntervalSec, Second; lia).
  assert (HS : 0 < Second) by (unfold Second; lia).
  destruct (loopFrom_schedule r sch its l0 Hc Ht) as (l & Hl & Hr); simpl.
  { exact Hmax. }
  { unfold minDuration. assert (2 ^ 63 = 9223372036854775808) as -> by reflexivity. nia. }
  { unfold maxDuration, Minute, Second.
    assert (2 ^ 63 = 9223372036854775808) as -> by reflexivity. lia. }
  simpl in Hr. exists l. split; [exact Hl|].
  assert (Hlen : length (runs l) = length its).
  { rewrite <- (length_fmap runTimes), Hr, scheduleFrom_length, length_fmap. done. }
  assert (Hk : ∀ k run, runs l !! k = Some run →
            scheduledAt run = now + 10 * Minute + Z.of_nat k * (IntervalSec daemon * Second)
            ∧ startedAt run
              = Z.max (scheduledAt run)
                  (match k with
                   | O => now
                   | S k' => from_option finishedAt now (runs l !! k')
                   end)
            ∧ (∀ it, its !! k = Some it → finishedAt run = startedAt run + executeTakes it)).
  { intros k run Hrun.
    assert (Hx : scheduleFrom (IntervalSec daemon * Second) (now + 10 * Minute) now
                   (executeTakes <$> its) !! k = Some (runTimes run)).
    { rewrite <- Hr, list_lookup_fmap, Hrun. done. }
    destruct (scheduleFrom_lookup _ _ _ _ _ _ Hx) as (H1 & H2 & H3). simpl in *.
    split; [exact H1|]. split.
    - rewrite H2. f_equal. destruct k as [|k]; [done|].
      rewrite <- Hr, list_lookup_fmap. destruct (runs l !! k); done.
    - intros it Hit. apply H3. rewrite list_lookup_fmap, Hit. done. }
  split; [exact Hlen|]. split; [exact Hk|].
  intros run Hrun. destruct (Hk _ _ Hrun) as (H1 & H2 & _). rewrite H2, H1.
  change (Z.of_nat 0) with 0. unfold Minute, Second. lia.
Qed.

(** At a concrete run: hourly maintenance whose first run takes 4000 seconds
    and whose second run takes 10. *)
Lemma schedule_is_anchored_witness :
  ∃ l, StartAndBlock plainRange fifoScheduler Scenarios.hourlyDaemon Scenarios.freshState 0
         [Scenarios.fires 4000; Scenarios.fires 10] = inl l
       ∧ length (runs l) = 2%nat
       ∧ (∀ k run, runs l !! k = Some run →
            scheduledAt run
            = 0 + 10 * Minute + Z.of_nat k * (IntervalSec Scenarios.hourlyDaemon * Second)
            ∧ startedAt run
              = Z.max (scheduledAt run)
                  (match k with
                   | O => 0
                   | S k' => from_option finishedAt 0 (runs l !! k')
                   end)
            ∧ (∀ it, [Scenarios.fires 4000; Scenarios.fires 10] !! k = Some it →
                     finishedAt run = startedAt run + executeTakes it))
       ∧ (∀ run, runs l !! 0%nat = Some run → startedAt run = 0 + 10 * Minute).
Proof.
  apply (schedule_is_anchored plainRange fifoScheduler Scenarios.hourlyDaemon
           Scenarios.freshState 0 [Scenarios.fires 4000; Scenarios.fires 10]).
  - vm_compute. discriminate.
  - vm_compute. discriminate.
  - reflexivity.
  - repeat constructor; vm_compute; discriminate.
Defined.

(** C3 as stated fails.  With IntervalSec = 3600 and a first run of 4000
    seconds, the run overlaps the tick at 10 minutes + 3600 seconds; the tick is
    not elided: its [Execute] is run, 400 seconds late.  And with IntervalSec =
    9223372037 the interval in nanoseconds overflows, so the second run is
    scheduled before the first one. *)
Lemma overlapped_tick_is_not_elided :
  match StartAndBlock plainRange fifoScheduler Scenarios.hourlyDaemon Scenarios.freshState 0
          [Scenarios.fires 4000; Scenarios.fires 10] with
  | inl l => runTimes <$> runs l
             = [ (600 * Second, 600 * Second, 4600 * Second);
                 (4200 * Second, 4600 * Second, 4610 * Second) ]
  | inr _ => False
  end
  ∧ match StartAndBlock plainRange fifoScheduler
            (Initialise (Scenarios.daemonWith 9223372037 None)).1 Scenarios.freshState 0
            [Scenarios.fires 1; Scenarios.fires 1] with
    | inl l => runTimes <$> runs l
               = [ (600 * Second, 600 * Second, 601 * Second);
                   (600 * Second + 9223372037 * Second - 2 ^ 64, 601 * Second, 602 * Second) ]
    | inr _ => False
    end.
Proof. split; vm_compute; reflexivity. Qed.

(** ** The startup time *)

Lemma bind_run {A B} (m : M A) (k : A → M B) s :
  bind m k s = k (m s).1 (m s).2.
Proof. unfold bind. by destruct (m s). Qed.

Lemma keepsClock_ret {A} (a : A) : keepsClock (ret a).
Proof. by intros s. Qed.

Lemma keepsClock_bind {A B} (m : M A) (k : A → M B) :
  keepsClock m → (∀ a, keepsClock (k a)) → keepsClock (bind m k).
Proof.
  intros Hm Hk s. rewrite bind_run.
  destruct (Hk (m s).1 (m s).2) as [-> ->]. apply Hm.
Qed.

Lemma keepsClock_logLine lvl fn action err msg : keepsClock (logLine lvl fn action err msg).
Proof. by intros s. Qed.

Lemma keepsClock_invokeProgram w env t prog args :
  keepsClock (invokeProgram w env t prog args).
Proof. by intros s. Qed.

Ltac keeps_clock :=
  repeat first
    [ apply keepsClock_ret
    | apply keepsClock_logLine
    | apply keepsClock_invokeProgram
    | apply keepsClock_bind
    | intros [? ?]
    | intro ].

Lemma keepsClock_installPackage w env path args name :
  keepsClock (installPackage w env path args name).
Proof. unfold installPackage. keeps_clock. Qed.

Lemma keepsClock_installPackages w env path args names : ∀ out,
  keepsClock (installPackages w env path args names out).
Proof.
  induction names as [|name names IH]; intros out; simpl.
  - apply keepsClock_ret.
  - apply keepsClock_bind; [apply keepsClock_installPackage|]. intros written. apply IH.
Qed.

Lemma keepsClock_updateAptManifests w name path :
  keepsClock (updateAptManifests w name path).
Proof. unfold updateAptManifests. destruct (String.eqb name "apt-get"); keeps_clock. Qed.

Lemma keepsClock_upgradeAndInstall w env name path upgradeArgs installArgs :
  keepsClock (upgradeAndInstall w env name path upgradeArgs installArgs).
Proof.
  unfold upgradeAndInstall. destruct (negb (isEmpty name)); [|apply keepsClock_ret].
  apply keepsClock_bind; [apply keepsClock_logLine|]. intros _.
  apply keepsClock_bind; [apply keepsClock_invokeProgram|]. intros [result err].
  apply keepsClock_bind; [apply keepsClock_logLine|]. intros _.
  apply keepsClock_installPackages.
Qed.

Lemma keepsClock_synchroniseClock w : keepsClock (synchroniseClock w).
Proof. unfold synchroniseClock. keeps_clock. Qed.

Lemma corrects_after_keeps {A B} w (m : M A) (k : A → M B) :
  keepsClock m → (∀ a, corrects w (k a)) → corrects w (bind m k).
Proof.
  intros Hm Hk s. rewrite bind_run, Hk. unfold correctedStartupTime.
  destruct (Hm s) as [-> ->]. done.
Qed.

Lemma corrects_before_keeps {A B} w (m : M A) (k : A → M B) :
  corrects w m → (∀ a, keepsClock (k a)) → corrects w (bind m k).
Proof.
  intros Hm Hk s. rewrite bind_run.
  destruct (Hk (m s).1 (m s).2) as [-> _]. apply Hm.
Qed.

Lemma corrects_correctStartupTime w : corrects w (correctStartupTime w).
Proof.
  intros s. unfold correctStartupTime, correctedStartupTime, getStartupTime, timeNow,
    setStartupTime, bind, ret, After. simpl.
  destruct (Now w (clockReads s) <? StartupTime s); simpl; [|done].
  unfold MinimumIntervalSec, Second. lia.
Qed.

Lemma corrects_SystemMaintenance w daemon : corrects w (SystemMaintenance w daemon).
Proof.
  unfold SystemMaintenance.
  destruct (findPkgManager w binPrefixes EmptyString EmptyString) as [path name].
  apply corrects_after_keeps; [apply keepsClock_logLine|]. intros _.
  apply corrects_after_keeps; [apply keepsClock_updateAptManifests|]. intros [env written].
  destruct (pkgManagerArgs name) as [[upgradeArgs installArgs] written'].
  apply corrects_after_keeps; [apply keepsClock_upgradeAndInstall|]. intros written1.
  apply corrects_after_keeps; [apply keepsClock_synchroniseClock|]. intros written2.
  apply corrects_before_keeps; [apply corrects_correctStartupTime|]. intros written3.
  keeps_clock.
Qed.

(** C8. After every completed run of [SystemMaintenance], StartupTime is not
    in the future: if StartupTime was after the current time (the reading of
    the clock that the check makes), it is reset to the current time (the
    reading that the reset makes) minus MinimumIntervalSec (3600 seconds);
    otherwise it is left unchanged.  In both cases it is not after the last
    reading of the clock, as long as the clock did not go back between the two
    readings. *)
Theorem StartupTime_not_in_future w daemon s :
  StartupTime (SystemMaintenance w daemon s).2
  = (if Now w (clockReads s) <? StartupTime s
     then Now w (S (clockReads s)) - 3600 * Second
     else StartupTime s)
  ∧ (Now w (clockReads s) ≤ Now w (S (clockReads s)) →
     StartupTime (SystemMaintenance w daemon s).2 ≤ Now w (S (clockReads s))).
Proof.
  rewrite corrects_SystemMaintenance. unfold correctedStartupTime, MinimumIntervalSec.
  split; [done|]. intros H.
  destruct (Z.ltb_spec (Now w (clockReads s)) (StartupTime s)); unfold Second; lia.
Qed.

(** At a concrete run: the startup time lies 10^8 seconds after the clock. *)
Lemma StartupTime_not_in_future_witness :
  StartupTime (SystemMaintenance Scenarios.bareWorld Scenarios.hourlyDaemon
                 Scenarios.skewedState).2
  = 1500000000 * Second + 1 - 3600 * Second
  ∧ StartupTime (SystemMaintenance Scenarios.bareWorld Scenarios.hourlyDaemon
                   Scenarios.skewedState).2
    ≤ Now Scenarios.bareWorld 1.
Proof.
  destruct (StartupTime_not_in_future Scenarios.bareWorld Scenarios.hourlyDaemon
              Scenarios.skewedState) as [H1 H2].
  split; [exact H1|]. apply H2. vm_compute. discriminate.
Defined.

(** ** Go strings *)

Lemma append_String c s t : String c s +:+ t = String c (s +:+ t).
Proof. reflexivity. Qed.

Lemma append_Empty t : EmptyString +:+ t = t.
Proof. reflexivity. Qed.

Lemma HasPrefix_Empty s : HasPrefix s EmptyString = true.
Proof. by destruct s. Qed.

Lemma HasPrefix_append_l s t x : HasPrefix s x = true → HasPrefix (s +:+ t) x = true.
Proof.
  revert s. induction x as [|p x IH]; intros s; [intros _; apply HasPrefix_Empty|].
  destruct s as [|c s]; simpl; [done|]. rewrite ?append_String.
  intros [H1 H2]%andb_prop. simpl. rewrite H1. by apply IH.
Qed.

Lemma Contains_String c s x : Contains s x = true → Contains (String c s) x = true.
Proof. intros H. simpl. rewrite H. apply orb_true_r. Qed.

Lemma Contains_append_l s t x : Contains s x = true → Contains (s +:+ t) x = true.
Proof.
  induction s as [|c s IH].
  - simpl. rewrite orb_false_r. intros H. rewrite append_Empty.
    destruct x; [|done]. by destruct t.
  - intros H. rewrite append_String.
    change (HasPrefix (String c s) x || Contains s x = true) in H.
    apply orb_prop in H as [H|H].
    + change (HasPrefix (String c (s +:+ t)) x || Contains (s +:+ t) x = true).
      rewrite <- append_String, (HasPrefix_append_l _ _ _ H). done.
    + apply Contains_String, IH, H.
Qed.

Lemma Contains_append_r s t x : Contains t x = true → Contains (s +:+ t) x = true.
Proof.
  intros H. induction s as [|c s IH]; [done|].
  rewrite append_String. by apply Contains_String.
Qed.

(** ** Execute *)

Lemma runPortsCheck_result_any_state w r sch daemon s s' :
  (runPortsCheck w r sch daemon s).1 = (runPortsCheck w r sch daemon s').1.
Proof.
  unfold runPortsCheck. destruct (CheckTCPPorts daemon) as [m|]; [|done].
  destruct (knockHosts w (rangeEntries r m)) as [jobs skipped].
  rewrite !bind_run.
  destruct (Z.of_nat (length (fold_left (knock w) (schedule sch _ jobs) [])) =? 0); done.
Qed.

Lemma Execute_result w r sch daemon s :
  ∃ maintResult,
    (Execute w r sch daemon s).1
    = (LintMailBody w
         (composeReport w
            (isNil (runPortsCheck w r sch daemon s).1
             && isNil (selfTestOf (FeaturesToTest daemon))
             && isNil (selfTestOf (MailCmdRunnerToTest daemon))
             && isNil (selfTestOf (HTTPHandlersToCheck daemon)))
            maintResult (runPortsCheck w r sch daemon s).1
            (selfTestOf (FeaturesToTest daemon))
            (selfTestOf (MailCmdRunnerToTest daemon))
            (selfTestOf (HTTPHandlersToCheck daemon))),
       isNil (runPortsCheck w r sch daemon s).1
       && isNil (selfTestOf (FeaturesToTest daemon))
       && isNil (selfTestOf (MailCmdRunnerToTest daemon))
       && isNil (selfTestOf (HTTPHandlersToCheck daemon))).
Proof.
  unfold Execute. rewrite !bind_run. unfold ret. cbn [fst].
  rewrite (runPortsCheck_result_any_state w r sch daemon _ s). eexists. reflexivity.
Qed.

Lemma composeReport_ports_ok w allOK maintResult featureErr mailErr httpErr :
  Contains (composeReport w allOK maintResult None featureErr mailErr httpErr) "Ports: OK"
  = true.
Proof.
  unfold composeReport.
  do 6 apply Contains_append_r. apply Contains_append_l. reflexivity.
Qed.

Lemma composeReport_port_errors w allOK maintResult e featureErr mailErr httpErr :
  Contains (composeReport w allOK maintResult (Some e) featureErr mailErr httpErr)
    "Port errors" = true.
Proof.
  unfold composeReport.
  do 6 apply Contains_append_r. apply Contains_append_l.
  unfold checkLines. apply Contains_append_r. apply Contains_append_l. reflexivity.
Qed.

(** C1. For one call to [Execute], the returned boolean allOK is true if and
    only if all four checks (TCP port knock, feature self-tests, mail command
    runner self-test, HTTP handler self-test) return a nil error, and the
    returned report contains the text "Ports: OK" when the port check passed
    and the text "Port errors" when it failed.  A self test is run on the
    tester that the daemon holds, and there is none to fail when the daemon
    holds nil.  The report is returned through [inet.LintMailBody], which is
    taken to keep these two texts. *)
Theorem Execute_allOK_and_ports_report w r sch daemon s s0 :
  keepsText w "Ports: OK" →
  keepsText w "Port errors" →
  ((Execute w r sch daemon s).1.2 = true
   ↔ (runPortsCheck w r sch daemon s0).1 = None
     ∧ (∀ tester, FeaturesToTest daemon = Some tester → SelfTest tester = None)
     ∧ (∀ tester, MailCmdRunnerToTest daemon = Some tester → SelfTest tester = None)
     ∧ (∀ tester, HTTPHandlersToCheck daemon = Some tester → SelfTest tester = None))
  ∧ ((runPortsCheck w r sch daemon s0).1 = None →
     Contains (Execute w r sch daemon s).1.1 "Ports: OK" = true)
  ∧ ((runPortsCheck w r sch daemon s0).1 ≠ None →
     Contains (Execute w r sch daemon s).1.1 "Port errors" = true).
Proof.
  intros Hok Herr. destruct (Execute_result w r sch daemon s) as [maintResult ->].
  rewrite (runPortsCheck_result_any_state w r sch daemon s s0). cbn [fst snd].
  split; [|split].
  - unfold selfTestOf.
    destruct ((runPortsCheck w r sch daemon s0).1) as [e|],
      (FeaturesToTest daemon) as [[[e1|]]|],
      (MailCmdRunnerToTest daemon) as [[[e2|]]|],
      (HTTPHandlersToCheck daemon) as [[[e3|]]|]; cbn;
      (split;
       [ intros Hall; try discriminate Hall;
         repeat split; try done; by intros tester [= <-]
       | intros (Hp & H1 & H2 & H3); try done;
         try (by specialize (H1 _ eq_refl));
         try (by specialize (H2 _ eq_refl));
         try (by specialize (H3 _ eq_refl)) ]).
  - intros H. rewrite H. apply Hok, composeReport_ports_ok.
  - intros H. destruct ((runPortsCheck w r sch daemon s0).1) as [e|]; [|done].
    apply Herr, composeReport_port_errors.
Qed.

(** At two concrete runs.  In the first no connection opens, so the port
    check fails; in the second there is no port to knock on and the features
    fail their self test. *)
Lemma Execute_allOK_and_ports_report_witness :
  (Execute Scenarios.gceWorld plainRange fifoScheduler Scenarios.knockingDaemon
     Scenarios.freshState).1.2 = false
  ∧ Contains (Execute Scenarios.gceWorld plainRange fifoScheduler Scenarios.knockingDaemon
                Scenarios.freshState).1.1 "Port errors" = true
  ∧ (Execute Scenarios.bareWorld plainRange fifoScheduler Scenarios.failingFeaturesDaemon
       Scenarios.freshState).1.2 = false
  ∧ Contains (Execute Scenarios.bareWorld plainRange fifoScheduler
                Scenarios.failingFeaturesDaemon Scenarios.freshState).1.1 "Ports: OK" = true.
Proof.
  destruct (Execute_allOK_and_ports_report Scenarios.gceWorld plainRange fifoScheduler
              Scenarios.knockingDaemon Scenarios.freshState Scenarios.freshState
              (λ body H, H) (λ body H, H)) as (H1 & H2 & H3).
  destruct (Execute_allOK_and_ports_report Scenarios.bareWorld plainRange fifoScheduler
              Scenarios.failingFeaturesDaemon Scenarios.freshState Scenarios.freshState
              (λ body H, H) (λ body H, H)) as (H1' & H2' & H3').
  split; [|split; [|split]].
  - destruct ((Execute Scenarios.gceWorld plainRange fifoScheduler Scenarios.knockingDaemon
                 Scenarios.freshState).1.2); [|reflexivity].
    destruct H1 as [H1 _]. destruct (H1 eq_refl) as [H _]. vm_compute in H. discriminate H.
  - apply H3. vm_compute. discriminate.
  - destruct ((Execute Scenarios.bareWorld plainRange fifoScheduler
                 Scenarios.failingFeaturesDaemon Scenarios.freshState).1.2); [|reflexivity].
    destruct H1' as [H1' _]. destruct (H1' eq_refl) as (_ & Hf & _).
    specialize (Hf {| SelfTest := Some ".s: the interpreter is not available" |} eq_refl).
    discriminate Hf.
  - apply H2'. reflexivity.
Defined.

(** ** The port check *)

Lemma knockHost_no25 w host ports :
  IsGCE w || IsAzure w = true →
  Forall (λ job : string * Z, job.2 ≠ 25) (knockHost w host ports).1.
Proof.
  intros Hc. induction ports as [|port ports IH]; simpl; [constructor|].
  destruct (knockHost w host ports) as [jobs skipped]. rewrite Hc, andb_true_r.
  destruct (Z.eqb_spec port 25); simpl; [exact IH|].
  constructor; [done|exact IH].
Qed.

Lemma knockHosts_no25 w entries :
  IsGCE w || IsAzure w = true →
  Forall (λ job : string * Z, job.2 ≠ 25) (knockHosts w entries).1.
Proof.
  intros Hc. induction entries as [|[host ports] entries IH]; simpl; [constructor|].
  destruct (knockHosts w entries) as [jobs skipped].
  destruct ports as [ports|]; [|exact IH].
  destruct (isEmpty host || (Z.of_nat (length ports) =? 0)); [exact IH|].
  pose proof (knockHost_no25 w host ports Hc) as H.
  destruct (knockHost w host ports) as [jobs1 skipped1]. simpl in *.
  apply Forall_app. done.
Qed.

Lemma logAll_dialed fn msgs : ∀ s, dialed (logAll fn msgs s).2 = dialed s.
Proof.
  induction msgs as [|msg msgs IH]; intros s; simpl; [done|].
  rewrite bind_run, IH. done.
Qed.

Lemma knock_failures w (P : string → Prop) jobs : ∀ portErrs,
  Forall P portErrs →
  Forall (λ job : string * Z,
            DialTimeout w "tcp" (JoinHostPort job.1 (Itoa job.2))
              (TCPPortCheckTimeoutSec * Second) ≠ None →
            P (JoinHostPort job.1 (Itoa job.2))) jobs →
  Forall P (fold_left (knock w) jobs portErrs).
Proof.
  induction jobs as [|[host port] jobs IH]; intros portErrs H Hjobs; simpl; [done|].
  inversion Hjobs as [|? ? Hj Hrest]; subst. simpl in Hj.
  apply IH; [|exact Hrest].
  destruct (DialTimeout w "tcp" (JoinHostPort host (Itoa port))
              (TCPPortCheckTimeoutSec * Second)) eqn:Hd; [|exact H].
  apply Forall_app. split; [exact H|]. repeat constructor. by apply Hj.
Qed.

Lemma runPortsCheck_dials w r sch daemon s :
  ∃ jobs,
    dialed (runPortsCheck w r sch daemon s).2 = dialed s ++ jobs
    ∧ (IsGCE w || IsAzure w = true → Forall (λ job : string * Z, job.2 ≠ 25) jobs)
    ∧ ∃ portErrs,
        (runPortsCheck w r sch daemon s).1
        = (if Z.of_nat (length portErrs) =? 0 then None
           else Some ("failed to connect to " +:+ Join portErrs ", "))
        ∧ Forall (λ dest, ∃ job, job ∈ jobs ∧ dest = JoinHostPort job.1 (Itoa job.2)
                                 ∧ DialTimeout w "tcp" dest (TCPPortCheckTimeoutSec * Second)
                                   ≠ None) portErrs.
Proof.
  unfold runPortsCheck. destruct (CheckTCPPorts daemon) as [m|].
  - pose proof (knockHosts_no25 w (rangeEntries r m)) as Hno.
    destruct (knockHosts w (rangeEntries r m)) as [jobs skipped]. simpl in Hno.
    exists (schedule sch _ jobs). rewrite !bind_run. split; [|split].
    + destruct (Z.of_nat (length (fold_left (knock w) (schedule sch _ jobs) [])) =? 0);
        simpl; by rewrite logAll_dialed.
    + intros Hc. rewrite schedule_perm. by apply Hno.
    + exists (fold_left (knock w) (schedule sch _ jobs) []). split.
      * destruct (Z.of_nat (length (fold_left (knock w) (schedule sch _ jobs) [])) =? 0); done.
      * apply knock_failures; [constructor|]. apply Forall_forall. intros job Hj Hd.
        exists job. done.
  - exists []. simpl. rewrite app_nil_r. split; [done|]. split; [by constructor|].
    exists []. split; [done|constructor].
Qed.

(** C10. For every CheckTCPPorts map, [runPortsCheck] never dials a port-25
    entry when the process runs on GCE or Azure: the connections it dials are
    all to other ports, and the destinations named in its error are among them,
    so a closed port 25 on those platforms never contributes a connection
    failure to the port check; and when CheckTCPPorts is nil the check returns
    nil without dialing anything (it leaves the state as it is). *)
Theorem port25_not_dialed_on_cloud w r sch daemon s :
  (IsGCE w || IsAzure w = true →
   ∃ jobs portErrs,
     dialed (runPortsCheck w r sch daemon s).2 = dialed s ++ jobs
     ∧ Forall (λ job : string * Z, job.2 ≠ 25) jobs
     ∧ (runPortsCheck w r sch daemon s).1
       = (if Z.of_nat (length portErrs) =? 0 then None
          else Some ("failed to connect to " +:+ Join portErrs ", "))
     ∧ Forall (λ dest, ∃ job, job ∈ jobs ∧ job.2 ≠ 25
                              ∧ dest = JoinHostPort job.1 (Itoa job.2)) portErrs)
  ∧ (CheckTCPPorts daemon = None → runPortsCheck w r sch daemon s = (None, s)).
Proof.
  split.
  - intros Hc. destruct (runPortsCheck_dials w r sch daemon s)
      as (jobs & Hd & Hno & portErrs & Hres & Herrs).
    exists jobs, portErrs. split; [exact Hd|]. split; [by apply Hno|]. split; [exact Hres|].
    eapply Forall_impl; [exact Herrs|]. simpl. intros dest (job & Hj & Hdest & _).
    exists job. split; [exact Hj|]. split; [|exact Hdest].
    specialize (Hno Hc). rewrite Forall_forall in Hno. by apply Hno.
  - intros Hnil. unfold runPortsCheck. by rewrite Hnil.
Qed.

(** At a concrete run on Google compute engine, where no connection opens: the
    daemon is to knock on localhost:11334 and on mx.example.com:25. *)
Lemma port25_not_dialed_on_cloud_witness :
  ∃ jobs portErrs,
    dialed (runPortsCheck Scenarios.gceWorld plainRange fifoScheduler
              Scenarios.knockingDaemon Scenarios.freshState).2
    = dialed Scenarios.freshState ++ jobs
    ∧ Forall (λ job : string * Z, job.2 ≠ 25) jobs
    ∧ (runPortsCheck Scenarios.gceWorld plainRange fifoScheduler
         Scenarios.knockingDaemon Scenarios.freshState).1
      = (if Z.of_nat (length portErrs) =? 0 then None
         else Some ("failed to connect to " +:+ Join portErrs ", "))
    ∧ Forall (λ dest, ∃ job, job ∈ jobs ∧ job.2 ≠ 25
                             ∧ dest = JoinHostPort job.1 (Itoa job.2)) portErrs.
Proof.
  apply (port25_not_dialed_on_cloud Scenarios.gceWorld plainRange fifoScheduler
           Scenarios.knockingDaemon Scenarios.freshState).
  reflexivity.
Defined.

Example runPortsCheck_on_cloud :
  dialed (runPortsCheck Scenarios.gceWorld plainRange fifoScheduler
            Scenarios.knockingDaemon Scenarios.freshState).2 = [("localhost", 11334)]
  ∧ (runPortsCheck Scenarios.gceWorld plainRange fifoScheduler
       Scenarios.knockingDaemon Scenarios.freshState).1
    = Some "failed to connect to localhost:11334"
  ∧ dialed (runPortsCheck Scenarios.bareWorld reverseRange lifoScheduler
              Scenarios.knockingDaemon Scenarios.freshState).2
    = [("mx.example.com", 25); ("localhost", 11334)].
Proof. vm_compute. done. Qed.

(** ** The output of the package manager *)

Lemma append_assoc' a b c : (a +:+ b) +:+ c = a +:+ (b +:+ c).
Proof. induction a as [|x a IH]; [done|]. rewrite !append_String. by rewrite IH. Qed.

Lemma suppressOutput_hit markers replacement result :
  (∃ marker, marker ∈ markers ∧ Contains result marker = true) →
  suppressOutput markers replacement result = replacement.
Proof.
  intros (marker & Hin & Hc). induction markers as [|m markers IH]; [by inversion Hin|].
  simpl. destruct (Contains result m) eqn:Hm; [done|].
  apply IH. inversion Hin; subst; [congruence|done].
Qed.

Lemma installPackage_run w env path args name s :
  installPackage w env path args name s
  = (let '(result, err) := InvokeProgram w (length (invoked s)) env (5 * 60) path
                             (args ++ [name]) in
     "--- Installing/upgrading " +:+ name +:+ LF
     +:+ "--- " +:+ name +:+ " installation/upgrade result: " +:+ fmtErr err
     +:+ " - " +:+ TrimSpace (suppressOutput suppressOutputMarkers "Nothing to do" result)
     +:+ LF +:+ LF,
     (installPackage w env path args name s).2)
  ∧ length (invoked (installPackage w env path args name s).2) = S (length (invoked s)).
Proof.
  unfold installPackage. rewrite !bind_run. simpl.
  destruct (InvokeProgram w (length (invoked s)) env (5 * 60) path (args ++ [name]))
    as [result err] eqn:HI. simpl. split; [done|]. rewrite length_app. simpl. lia.
Qed.

Lemma append_Empty_r s : s +:+ EmptyString = s.
Proof. induction s as [|c s IH]; [done|]. by rewrite append_String, IH. Qed.

Lemma HasPrefix_refl s : HasPrefix s s = true.
Proof. induction s as [|c s IH]; [done|]. simpl. by rewrite Ascii.eqb_refl. Qed.

Lemma Contains_refl s : Contains s s = true.
Proof. destruct s; simpl; [done|]. by rewrite Ascii.eqb_refl, HasPrefix_refl. Qed.

Lemma installPackages_out w env path args names : ∀ out s,
  (installPackages w env path args names out s).1
  = out +:+ (installPackages w env path args names EmptyString s).1.
Proof.
  induction names as [|name names IH]; intros out s; simpl.
  - unfold ret. simpl. by rewrite append_Empty_r.
  - rewrite !bind_run. rewrite IH. rewrite (IH (EmptyString +:+ _)).
    rewrite append_assoc'. done.
Qed.

Lemma installPackages_suppressed w env path args names : ∀ out s i pkg,
  names !! i = Some pkg →
  (∃ marker, marker ∈ suppressOutputMarkers
             ∧ Contains (InvokeProgram w (length (invoked s) + i) env (5 * 60) path
                           (args ++ [pkg])).1 marker = true) →
  Contains (installPackages w env path args names out s).1
    (suppressedLine pkg (InvokeProgram w (length (invoked s) + i) env (5 * 60) path
                           (args ++ [pkg])).2) = true.
Proof.
  induction names as [|name names IH]; intros out s i pkg Hi Hm; [done|].
  simpl. rewrite bind_run.
  destruct (installPackage_run w env path args name s) as [Hrun Hlen].
  destruct i as [|i].
  - injection Hi as ->. rewrite Nat.add_0_r in *.
    rewrite installPackages_out. apply Contains_append_l, Contains_append_r.
    rewrite Hrun.
    destruct (InvokeProgram w (length (invoked s)) env (5 * 60) path (args ++ [pkg]))
      as [result err]. cbn [fst snd] in *. cbv beta iota. cbn [fst].
    rewrite (suppressOutput_hit _ _ _ Hm).
    do 3 apply Contains_append_r. exact (Contains_refl _).
  - simpl in Hi. specialize (IH (out +:+ (installPackage w env path args name s).1)
                               (installPackage w env path args name s).2 i pkg Hi).
    rewrite Hlen in IH. rewrite <- Nat.add_succ_comm. apply IH.
    rewrite Nat.add_succ_comm. exact Hm.
Qed.

Lemma updateAptManifests_run w name path s :
  (updateAptManifests w name path s).1.1
  = (if String.eqb name "apt-get" then ["DEBIAN_FRONTEND=noninteractive"] else [])
  ∧ length (invoked (updateAptManifests w name path s).2)
    = (length (invoked s) + (if String.eqb name "apt-get" then 1 else 0))%nat.
Proof.
  unfold updateAptManifests. destruct (String.eqb name "apt-get").
  - rewrite !bind_run. simpl.
    destruct (InvokeProgram w (length (invoked s)) ["DEBIAN_FRONTEND=noninteractive"]
                (5 * 60) path ["update"]) as [result err]. simpl.
    split; [done|]. rewrite length_app. done.
  - simpl. split; [done|lia].
Qed.

Lemma upgradeAndInstall_suppressed w env name path upgradeArgs installArgs s i pkg :
  name ≠ EmptyString →
  pkgs !! i = Some pkg →
  (∃ marker, marker ∈ suppressOutputMarkers
             ∧ Contains (InvokeProgram w (length (invoked s) + 1 + i) env (5 * 60) path
                           (installArgs ++ [pkg])).1 marker = true) →
  Contains (upgradeAndInstall w env name path upgradeArgs installArgs s).1
    (suppressedLine pkg (InvokeProgram w (length (invoked s) + 1 + i) env (5 * 60) path
                           (installArgs ++ [pkg])).2) = true.
Proof.
  intros Hname Hi Hm. unfold upgradeAndInstall.
  destruct name as [|c name]; [done|].
  change (negb (isEmpty (String c name))) with true. cbv iota.
  rewrite !bind_run. cbn [fst snd logLine invokeProgram invoked].
  destruct (InvokeProgram w (length (invoked s)) env (2 * 3600) path upgradeArgs)
    as [result err] eqn:HI. cbv beta iota.
  rewrite ?bind_run. cbn [fst snd logLine invoked].
  match goal with
  | |- Contains (installPackages _ _ _ _ _ ?out ?st).1 _ = true =>
      pose proof (installPackages_suppressed w env path installArgs pkgs out st i pkg Hi) as H
  end.
  cbn [invoked] in H. rewrite length_app in H. cbn [length] in H.
  apply H. exact Hm.
Qed.

Lemma logLine_invoked lvl fn action err msg s :
  invoked (logLine lvl fn action err msg s).2 = invoked s.
Proof. done. Qed.

(** C6, as the code has it.  During [SystemMaintenance], when a package
    manager is found, for every package of the fixed installation list whose
    package-manager output contains one of the suppression markers (such as
    "Nothing to do"), the per-package output recorded in the report collapses
    to the text [Nothing to do]: the report holds the line
    [--- <package> installation/upgrade result: <error> - Nothing to do]. *)
Theorem package_output_collapses w daemon s pkgManagerPath pkgManagerName i pkg :
  findPkgManager w binPrefixes EmptyString EmptyString = (pkgManagerPath, pkgManagerName) →
  pkgManagerName ≠ EmptyString →
  pkgs !! i = Some pkg →
  let apt := String.eqb pkgManagerName "apt-get" in
  let answer :=
    InvokeProgram w (length (invoked s) + (if apt then 1 else 0) + 1 + i)
      (if apt then ["DEBIAN_FRONTEND=noninteractive"] else []) (5 * 60) pkgManagerPath
      ((pkgManagerArgs pkgManagerName).1.2 ++ [pkg]) in
  (∃ marker, marker ∈ suppressOutputMarkers ∧ Contains answer.1 marker = true) →
  Contains (SystemMaintenance w daemon s).1
    ("--- " +:+ pkg +:+ " installation/upgrade result: " +:+ fmtErr answer.2
     +:+ " - Nothing to do" +:+ LF +:+ LF) = true.
Proof.
  intros Hfind Hname Hi apt answer Hm. unfold SystemMaintenance. rewrite Hfind.
  rewrite bind_run.
  set (s1 := (logLine Info "SystemMaintenance" EmptyString None
                ("package manager is " +:+ QUOTE +:+ pkgManagerPath +:+ QUOTE) s).2).
  rewrite bind_run.
  destruct (updateAptManifests_run w pkgManagerName pkgManagerPath s1) as [Henv Hlen].
  destruct (updateAptManifests w pkgManagerName pkgManagerPath s1) as [[env written] s2].
  cbn [fst snd] in Henv, Hlen |- *.
  destruct (pkgManagerArgs pkgManagerName) as [[upgradeArgs installArgs] written'] eqn:Hargs.
  rewrite !bind_run. unfold ret. cbn [fst].
  do 3 apply Contains_append_l. apply Contains_append_r.
  pose proof (upgradeAndInstall_suppressed w env pkgManagerName pkgManagerPath upgradeArgs
                installArgs s2 i pkg Hname Hi) as H.
  subst answer apt s1. cbn [fst snd logLine invoked] in Hlen, Hm |- *.
  rewrite Hlen in H. subst env. unfold suppressedLine in H.
  exact (H Hm).
Qed.

(** At a concrete run: yum finds the package curl (number 43 of the list) up to
    date. *)
Lemma package_output_collapses_witness :
  Contains (SystemMaintenance Scenarios.yumWorld Scenarios.hourlyDaemon
              Scenarios.freshState).1
    ("--- curl installation/upgrade result: <nil> - Nothing to do" +:+ LF +:+ LF) = true.
Proof.
  apply (package_output_collapses Scenarios.yumWorld Scenarios.hourlyDaemon
           Scenarios.freshState "/usr/bin/yum" "yum" 43 "curl").
  - reflexivity.
  - discriminate.
  - reflexivity.
  - exists "Nothing to do". split; [|reflexivity].
    apply list_elem_of_In. right. left. reflexivity.
Defined.

(** C6 as stated fails.  With yum answering "Nothing to do" for every package,
    the report holds no per-package line that ends in the word [skipped]: the
    line of curl ends in [Nothing to do], and [skipped] is what the output of
    the system upgrade collapses to. *)
Lemma package_output_is_not_skipped :
  Contains (SystemMaintenance Scenarios.yumWorld Scenarios.hourlyDaemon
              Scenarios.freshState).1
    ("--- curl installation/upgrade result: <nil> - skipped") = false
  ∧ Contains (SystemMaintenance Scenarios.yumWorld Scenarios.hourlyDaemon
                Scenarios.freshState).1
      ("--- curl installation/upgrade result: <nil> - Nothing to do" +:+ LF) = true
  ∧ Contains (SystemMaintenance Scenarios.yumWorld Scenarios.hourlyDaemon
                Scenarios.freshState).1
      ("--- System upgrade result: <nil> - skipped" +:+ LF) = true.
Proof. vm_compute. done. Qed.

(** ** The lookup table of the feature set *)

Section feature_set.
Import feature.

Lemma deref_setLookupByPrefix fs m ref : deref (setLookupByPrefix fs m) ref = deref fs ref.
Proof. by destruct ref. Qed.

Lemma rangeEntries_lookup r {V} (m : gmap string V) k v :
  (k, v) ∈ rangeEntries r m → m !! k = Some v.
Proof.
  unfold rangeEntries. rewrite list_elem_of_omap. intros (k' & _ & H).
  destruct (m !! k') as [v'|] eqn:Hk; simpl in H; [|done]. by injection H as <- <-.
Qed.

Lemma assigned_trigger fs refs : ∀ m : gmap string FeatureRef,
  (∀ t ref, m !! t = Some ref → Trigger (deref fs ref) = t) →
  ∀ t ref,
    fold_left (λ m ref, <[Trigger (deref fs ref) := ref]> m) refs m !! t = Some ref →
    Trigger (deref fs ref) = t.
Proof.
  induction refs as [|ref0 refs IH]; intros m Hm; [exact Hm|].
  cbn [fold_left]. apply IH. intros t ref. rewrite lookup_insert. case_decide.
  - by intros [= <-].
  - apply Hm.
Qed.

Lemma prefixes_trigger o fs trigger ref :
  prefixes o fs !! trigger = Some ref → Trigger (deref fs ref) = trigger.
Proof. apply assigned_trigger. intros t ref'. by rewrite lookup_empty. Qed.

Lemma prefixes_setLookupByPrefix o fs m : prefixes o (setLookupByPrefix fs m) = prefixes o fs.
Proof. reflexivity. Qed.

Lemma initialiseAll_sound fs0 (G : string → FeatureRef → Prop) entries : ∀ fs,
  (∀ ref, deref fs ref = deref fs0 ref) →
  (∀ trigger ref, LookupByPrefix fs !! trigger = Some ref → initialised fs0 ref ∧ G trigger ref) →
  Forall (λ entry, G entry.1 entry.2) entries →
  ∀ trigger ref, LookupByPrefix (initialiseAll fs entries).1 !! trigger = Some ref →
                 initialised fs0 ref ∧ G trigger ref.
Proof.
  induction entries as [|[prefix featureRef] entries IH]; intros fs Hd Hfs Hall; simpl; [done|].
  inversion Hall as [|? ? HG Hrest]; subst. simpl in HG.
  destruct (IsConfigured (deref fs featureRef)) eqn:Hc; [|by apply IH].
  destruct (Initialise (deref fs featureRef)) as [err|] eqn:Hi; [done|].
  apply IH; [|  |done].
  - intros ref. by rewrite deref_setLookupByPrefix.
  - intros trigger ref. simpl. rewrite lookup_insert. case_decide.
    + intros [= <-]. subst. split; [|done]. unfold initialised. by rewrite <- Hd.
    + apply Hfs.
Qed.

Lemma LookupByPrefix_entry o r fs trigger ref :
  LookupByPrefix (FeatureSet_Initialise o r fs).1 !! trigger = Some ref →
  IsConfigured (deref fs ref) = true
  ∧ Initialise (deref fs ref) = None
  ∧ Trigger (deref fs ref) = trigger.
Proof.
  unfold FeatureSet_Initialise. intros H.
  apply (initialiseAll_sound fs (λ t ref, prefixes o fs !! t = Some ref)) in H.
  - destruct H as [[H1 H2] H3]. split; [done|]. split; [done|].
    by apply (prefixes_trigger o).
  - intros ref'. apply deref_setLookupByPrefix.
  - intros t ref'. simpl. by rewrite lookup_empty.
  - apply Forall_forall. intros [k v] Hin. simpl. apply rangeEntries_lookup in Hin.
    by rewrite prefixes_setLookupByPrefix in Hin.
Qed.

(** C9. After [FeatureSet.Initialise] returns, whether with nil or with an
    error, every entry of the LookupByPrefix table maps a trigger to a feature
    (with that trigger) for which IsConfigured() is true and whose Initialise()
    returned nil; features that are not configured, or whose Initialise()
    failed, are never present in the table.  This holds in whichever order the
    entries of the map literal are assigned and the map is visited. *)
Theorem LookupByPrefix_holds_initialised o r fs :
  (∀ trigger ref,
      LookupByPrefix (FeatureSet_Initialise o r fs).1 !! trigger = Some ref →
      IsConfigured (deref fs ref) = true
      ∧ Initialise (deref fs ref) = None
      ∧ Trigger (deref fs ref) = trigger)
  ∧ (∀ ref,
        IsConfigured (deref fs ref) = false ∨ Initialise (deref fs ref) ≠ None →
        ∀ trigger, LookupByPrefix (FeatureSet_Initialise o r fs).1 !! trigger ≠ Some ref).
Proof.
  split; [apply LookupByPrefix_entry|].
  intros ref Hbad trigger Hin. apply LookupByPrefix_entry in Hin as (Hc & Hi & _).
  destruct Hbad as [Hbad|Hbad]; congruence.
Qed.

(** At a concrete feature set: Twitter is configured and fails to initialise;
    whatever the order of the visit, it is not in the table, and the shell is
    there only as an initialised feature. *)
Lemma LookupByPrefix_holds_initialised_witness :
  (∀ trigger,
      LookupByPrefix
        (FeatureSet_Initialise writtenOrder plainRange FeatureScenarios.brokenTwitter).1
        !! trigger ≠ Some RefTwitter)
  ∧ (∀ trigger,
        LookupByPrefix
          (FeatureSet_Initialise reverseOrder reverseRange FeatureScenarios.brokenTwitter).1
          !! trigger ≠ Some RefTwitter)
  ∧ IsConfigured (deref FeatureScenarios.shellAndWolfram RefShell) = true
  ∧ Initialise (deref FeatureScenarios.shellAndWolfram RefShell) = None
  ∧ Trigger (deref FeatureScenarios.shellAndWolfram RefShell) = ".s".
Proof.
  split; [|split].
  - apply (LookupByPrefix_holds_initialised writtenOrder plainRange
             FeatureScenarios.brokenTwitter).
    right. discriminate.
  - apply (LookupByPrefix_holds_initialised reverseOrder reverseRange
             FeatureScenarios.brokenTwitter).
    right. discriminate.
  - apply (LookupByPrefix_holds_initialised writtenOrder plainRange
             FeatureScenarios.shellAndWolfram).
    vm_compute. reflexivity.
Defined.

Example FeatureSet_Initialise_runs :
  map_to_list (LookupByPrefix (FeatureSet_Initialise writtenOrder plainRange
                                 FeatureScenarios.shellAndWolfram).1)
  = [(".w", RefWolframAlpha); (".s", RefShell)]
  ∧ (FeatureSet_Initialise writtenOrder plainRange FeatureScenarios.shellAndWolfram).2 = None
  ∧ (FeatureSet_Initialise writtenOrder plainRange FeatureScenarios.brokenTwitter).2
    = Some "the configuration is incomplete"
  ∧ (FeatureSet_Initialise reverseOrder reverseRange FeatureScenarios.brokenTwitter).2
    = Some "the configuration is incomplete".
Proof. vm_compute. done. Qed.

End feature_set.

(** ** The blacklist *)

Section blacklist.
Import dnsd.

Lemma fold_left_snoc {A} (l : list A) : ∀ acc,
  fold_left (λ ret x, ret ++ [x]) l acc = acc ++ l.
Proof.
  induction l as [|x l IH]; intros acc; simpl; [by rewrite app_nil_r|].
  rewrite IH, <- app_assoc. done.
Qed.

Lemma UniqueStrings_keys r arrays :
  UniqueStrings r arrays = rangeKeys r unit (uniqueMap arrays).
Proof. unfold UniqueStrings. by rewrite fold_left_snoc. Qed.

Lemma insert_all_lookup strs : ∀ (m : gmap string unit) x,
  is_Some (fold_left (λ m str, <[str := tt]> m) strs m !! x) ↔ x ∈ strs ∨ is_Some (m !! x).
Proof.
  induction strs as [|str strs IH]; intros m x; simpl.
  - rewrite elem_of_nil. tauto.
  - rewrite IH, lookup_insert_is_Some.
    split.
    + intros [H|[->|[_ H]]]; [left; by right|left; by left|by right].
    + intros [[->|H]%elem_of_cons|H]; [right; by left|by left|].
      destruct (decide (str = x)) as [->|Hne]; [right; by left|right; right; by split].
Qed.

Lemma uniqueMap_from_lookup arrays : ∀ (m : gmap string unit) x,
  is_Some (fold_left
             (λ m array,
                match array with
                | None => m
                | Some strs => fold_left (λ m str, <[str := tt]> m) strs m
                end) arrays m !! x)
  ↔ (∃ strs, Some strs ∈ arrays ∧ x ∈ strs) ∨ is_Some (m !! x).
Proof.
  induction arrays as [|array arrays IH]; intros m x; simpl.
  - split; [by right|]. intros [(strs & H & _)|H]; [by apply elem_of_nil in H|done].
  - rewrite IH. destruct array as [strs|].
    + rewrite insert_all_lookup. split.
      * intros [(strs' & H1 & H2)|[H|H]].
        -- left. exists strs'. split; [by right|done].
        -- left. exists strs. split; [by left|done].
        -- by right.
      * intros [(strs' & H1 & H2)|H]; [|by right; right].
        apply elem_of_cons in H1 as [[= <-]|H1]; [by right; left|].
        left. by exists strs'.
    + split.
      * intros [(strs' & H1 & H2)|H]; [|by right].
        left. exists strs'. split; [by right|done].
      * intros [(strs' & H1 & H2)|H]; [|by right].
        apply elem_of_cons in H1 as [[=]|H1]. left. by exists strs'.
Qed.

Lemma UniqueStrings_spec r arrays :
  NoDup (UniqueStrings r arrays)
  ∧ ∀ x, x ∈ UniqueStrings r arrays ↔ ∃ strs, Some strs ∈ arrays ∧ x ∈ strs.
Proof.
  rewrite UniqueStrings_keys. split.
  - rewrite rangeKeys_perm. apply NoDup_fst_map_to_list.
  - intros x. rewrite rangeKeys_perm.
    assert (Hk : x ∈ (map_to_list (uniqueMap arrays)).*1 ↔ is_Some (uniqueMap arrays !! x)).
    { rewrite list_elem_of_fmap. split.
      - intros ([k v] & -> & H). apply elem_of_map_to_list in H. by exists v.
      - intros [v H]. exists (x, v). split; [done|]. by apply elem_of_map_to_list. }
    rewrite Hk. unfold uniqueMap. rewrite uniqueMap_from_lookup, lookup_empty.
    split; [intros [H|[? [=]]]; done|by left].
Qed.

Lemma downloads_lookup DoHTTP jobs : ∀ st k,
  Forall (λ job : nat * string, HostsFileURLs !! job.1 = Some job.2) jobs →
  length (lists st) = length HostsFileURLs →
  lists (fold_left (downloadOne DoHTTP) jobs st) !! k
  = if decide (k ∈ jobs.*1) then parsed DoHTTP <$> HostsFileURLs !! k else lists st !! k.
Proof.
  induction jobs as [|[i url] jobs IH]; intros st k Hjobs Hlen; [done|].
  inversion Hjobs as [|? ? Hj Hrest]; subst. simpl in Hj.
  cbn [fold_left]. rewrite IH; [|done|by cbn; rewrite length_insert].
  cbn [fmap list_fmap fst]. destruct (decide (k ∈ jobs.*1)) as [Hin|Hnin].
  - rewrite decide_True; [done|by right].
  - cbn [downloadOne lists]. destruct (decide (k = i)) as [->|Hne].
    + rewrite decide_True by (by left). rewrite Hj. cbn.
      apply list_lookup_insert_eq. rewrite Hlen. by apply lookup_lt_Some in Hj.
    + rewrite decide_False.
      * by rewrite list_lookup_insert_ne.
      * intros [?|?]%elem_of_cons; done.
Qed.

Lemma downloaded_lists DoHTTP sch :
  lists (fold_left (downloadOne DoHTTP) (schedule sch _ (imap pair HostsFileURLs))
           {| lists := replicate (length HostsFileURLs) None; log := [] |})
  = parsed DoHTTP <$> HostsFileURLs.
Proof.
  apply list_eq. intros k. rewrite downloads_lookup.
  - rewrite list_lookup_fmap. cbn [lists].
    destruct (decide (k ∈ (schedule sch _ (imap pair HostsFileURLs)).*1)) as [Hin|Hnin];
      [done|].
    destruct (HostsFileURLs !! k) as [url|] eqn:Hk.
    + exfalso. apply Hnin. rewrite schedule_perm. apply list_elem_of_fmap.
      exists (k, url). split; [done|]. apply list_elem_of_lookup. exists k.
      rewrite list_lookup_imap, Hk. done.
    + cbn [fmap option_fmap option_map]. apply lookup_ge_None. rewrite length_replicate.
      by apply lookup_ge_None.
  - rewrite schedule_perm. apply Forall_forall. intros [i url] Hin.
    apply list_elem_of_lookup in Hin as [j Hj]. rewrite list_lookup_imap in Hj.
    destruct (HostsFileURLs !! j) eqn:Hu; cbn in Hj; [|done]. by injection Hj as <- <-.
  - cbn [lists]. by rewrite length_replicate.
Qed.

(** C7. For every collection of per-URL downloaded hosts-file contents,
    [DownloadAllBlacklists] returns the deduplicated union of the names
    extracted from each content: each distinct name appears exactly once
    ([UniqueStrings] returns without repetition the strings of its non-nil
    arrays, nil arrays are skipped); and since [ExtractNamesFromHostsContent] is
    a function of the content, the result (and the log) equals that of the
    variant that parses the content of each URL once instead of twice. *)
Theorem DownloadAllBlacklists_union DoHTTP sch r :
  NoDup (DownloadAllBlacklists DoHTTP sch r).1
  ∧ (∀ name,
        name ∈ (DownloadAllBlacklists DoHTTP sch r).1
        ↔ ∃ url, url ∈ HostsFileURLs
                 ∧ name ∈ ExtractNamesFromHostsContent (Body (DoHTTP url)))
  ∧ (∀ arrays,
        NoDup (UniqueStrings r arrays)
        ∧ ∀ x, x ∈ UniqueStrings r arrays ↔ ∃ strs, Some strs ∈ arrays ∧ x ∈ strs)
  ∧ DownloadAllBlacklists DoHTTP sch r = DownloadAllBlacklists_parseOnce DoHTTP sch r.
Proof.
  split; [|split; [|split]].
  - unfold DownloadAllBlacklists. cbn [fst]. apply UniqueStrings_spec.
  - intros name. unfold DownloadAllBlacklists. cbn [fst].
    rewrite downloaded_lists.
    destruct (UniqueStrings_spec r (parsed DoHTTP <$> HostsFileURLs)) as [_ ->]. split.
    + intros (strs & [url [Hs Hu]]%list_elem_of_fmap & Hn). injection Hs as ->. by exists url.
    + intros (url & Hu & Hn). eexists. split; [|exact Hn].
      apply list_elem_of_fmap. by exists url.
  - intros arrays. apply UniqueStrings_spec.
  - reflexivity.
Qed.

Example DownloadAllBlacklists_runs :
  (DownloadAllBlacklists twoLists fifoScheduler plainRange).1
  = ["ads.example.com"; "track.example.net"]
  ∧ (DownloadAllBlacklists twoLists lifoScheduler reverseRange).1
    = ["track.example.net"; "ads.example.com"]
  ∧ logCount <$> (DownloadAllBlacklists twoLists fifoScheduler plainRange).2 = [2; 0; 0; 1; 2]
  ∧ UniqueStrings plainRange [None; Some ["b"; "a"; "b"]; None; Some ["a"]] = ["a"; "b"].
Proof. vm_compute. done. Qed.

End blacklist.

(** ** The names of a hosts file *)

Section hosts_file.
Import dnsd.

Lemma isEmpty_append_String a c b : isEmpty (a +:+ String c b) = false.
Proof. by destruct a. Qed.

Lemma TrimLeftSpace_allSpace ws s : allSpace ws = true → TrimLeftSpace (ws +:+ s) = TrimLeftSpace s.
Proof.
  induction ws as [|c ws IH]; [done|]. intros [Hc Hws]%andb_prop.
  rewrite append_String. simpl. rewrite Hc. by apply IH.
Qed.

Lemma TrimLeftSpace_String c s : isSpace c = false → TrimLeftSpace (String c s) = String c s.
Proof. intros H. simpl. by rewrite H. Qed.

Lemma TrimRightSpace_allSpace ws : allSpace ws = true → TrimRightSpace ws = EmptyString.
Proof.
  induction ws as [|c ws IH]; [done|]. intros [Hc Hws]%andb_prop.
  simpl. rewrite (IH Hws), Hc. done.
Qed.

Lemma TrimRightSpace_String c s :
  isSpace c = false → TrimRightSpace (String c s) = String c (TrimRightSpace s).
Proof. intros H. simpl. by rewrite H. Qed.

Lemma TrimRightSpace_before a c b :
  isSpace c = false →
  TrimRightSpace (a +:+ String c b) = a +:+ String c (TrimRightSpace b).
Proof.
  intros Hc. induction a as [|x a IH].
  - rewrite !append_Empty. by apply TrimRightSpace_String.
  - rewrite !append_String. simpl. rewrite IH, isEmpty_append_String, andb_false_r. done.
Qed.

Lemma nameBytes_space c : isNameByte c = true → isSpace c = false.
Proof. unfold isNameByte. by destruct (isSpace c). Qed.

Lemma TrimRightSpace_name name rest :
  nameBytes name = true → TrimRightSpace (name +:+ rest) = name +:+ TrimRightSpace rest.
Proof.
  induction name as [|c name IH]; [done|]. intros [Hc Hn]%andb_prop.
  rewrite !append_String, TrimRightSpace_String by (by apply nameBytes_space).
  by rewrite IH.
Qed.

Lemma IndexRune_range s c : -1 ≤ IndexRune s c.
Proof.
  induction s as [|x s IH]; simpl; [lia|]. destruct (Ascii.eqb x c); [lia|].
  destruct (IndexRune s c =? -1); lia.
Qed.

Lemma IndexRune_absent_append a c b :
  IndexRune a c = -1 →
  IndexRune (a +:+ String c b) c = len a.
Proof.
  unfold len. induction a as [|x a IH]; intros H.
  - rewrite append_Empty. simpl. by rewrite Ascii.eqb_refl.
  - rewrite append_String. simpl in *. destruct (Ascii.eqb x c); [done|].
    destruct (IndexRune a c =? -1) eqn:Hi; [|pose proof (IndexRune_range a c); lia].
    apply Z.eqb_eq in Hi. rewrite (IH Hi). destruct (Z.eqb_spec (Z.of_nat (String.length a)) (-1)); lia.
Qed.

Lemma IndexRune_absent_both a b c :
  IndexRune a c = -1 → IndexRune b c = -1 → IndexRune (a +:+ b) c = -1.
Proof.
  induction a as [|x a IH]; intros Ha Hb; [done|].
  rewrite append_String. simpl in *. destruct (Ascii.eqb x c); [done|].
  destruct (IndexRune a c =? -1) eqn:Hi; [|pose proof (IndexRune_range a c); lia].
  apply Z.eqb_eq in Hi. by rewrite (IH Hi Hb).
Qed.

Lemma sliceFrom_append a b : sliceFrom (String.length a) (a +:+ b) = b.
Proof. induction a as [|x a IH]; [by destruct b|]. by rewrite append_String. Qed.

Lemma sliceTo_append a b : sliceTo (String.length a) (a +:+ b) = a.
Proof.
  induction a as [|x a IH]; [by destruct b|]. rewrite append_String. simpl. by rewrite IH.
Qed.

Lemma sliceTo_all a : sliceTo (String.length a) a = a.
Proof. induction a as [|x a IH]; [done|]. simpl. by rewrite IH. Qed.

Lemma len_to_nat a : Z.to_nat (len a) = String.length a.
Proof. unfold len. lia. Qed.

Lemma nameBytes_no_hash name : nameBytes name = true → IndexRune name "#" = -1.
Proof.
  induction name as [|c name IH]; [done|]. intros [Hc Hn]%andb_prop. simpl.
  unfold isNameByte in Hc. destruct (Ascii.eqb c "#"); [by rewrite andb_false_r in Hc|].
  by rewrite (IH Hn).
Qed.

Lemma allSpace_no_hash ws : allSpace ws = true → IndexRune ws "#" = -1.
Proof.
  induction ws as [|c ws IH]; [done|]. intros [Hc Hn]%andb_prop. simpl.
  destruct (Ascii.eqb_spec c "#") as [->|_]; [done|]. by rewrite (IH Hn).
Qed.

Lemma TrimSpace_name_spaces name ws :
  nameBytes name = true → allSpace ws = true → TrimSpace (name +:+ ws) = name.
Proof.
  intros Hn Hws. unfold TrimSpace. destruct name as [|c name].
  - rewrite append_Empty.
    rewrite <- (append_Empty_r ws), TrimLeftSpace_allSpace by done. done.
  - pose proof Hn as Hn0. apply andb_prop in Hn as [Hc Hn]. rewrite append_String.
    rewrite TrimLeftSpace_String by (by apply nameBytes_space).
    rewrite <- append_String, TrimRightSpace_name by exact Hn0.
    by rewrite TrimRightSpace_allSpace, append_Empty_r.
Qed.

(** The name in a line that is already trimmed on the left: after the first
    field, spaces, the name, and a tail that is trimmed on the right. *)
Lemma extractName_trimmed tok ws1 name ws2 comment :
  tokenShape tok = true →
  allSpace ws1 = true →
  name ≠ EmptyString →
  nameBytes name = true →
  allSpace ws2 = true →
  commentShape comment = true →
  let line := tok +:+ " " +:+ ws1 +:+ name +:+ TrimRightSpace (ws2 +:+ comment) in
  (len line =? 0) || HasPrefix line "#" = false
  ∧ IndexRune line " " = len tok
  ∧ ToLower (TrimSpace
               (sliceTo
                  (Z.to_nat
                     (let line2 := TrimSpace (sliceFrom (Z.to_nat (len tok)) line) in
                      if IndexRune line2 "#" =? -1 then len line2
                      else IndexRune line2 "#"))
                  (TrimSpace (sliceFrom (Z.to_nat (len tok)) line))))
    = ToLower name.
Proof.
  intros Htok Hws1 Hne Hname Hws2 Hcomment line.
  destruct tok as [|t tok]; [done|]. apply andb_prop in Htok as [Ht Htok].
  apply Z.eqb_eq in Htok.
  destruct name as [|n name]; [done|]. pose proof Hname as Hname'.
  apply andb_prop in Hname' as [Hn Hname'].
  split; [|split].
  - subst line. rewrite append_String. unfold len. simpl.
    unfold isNameByte in Ht. destruct (Ascii.eqb t "#"); [by rewrite andb_false_r in Ht|done].
  - subst line. change (" " +:+ ws1 +:+ String n name +:+ TrimRightSpace (ws2 +:+ comment))
      with (String " " (ws1 +:+ String n name +:+ TrimRightSpace (ws2 +:+ comment))).
    by apply IndexRune_absent_append.
  - assert (Hline2 : TrimSpace (sliceFrom (Z.to_nat (len (String t tok))) line)
                     = String n name +:+ TrimRightSpace (TrimRightSpace (ws2 +:+ comment))).
    { subst line. rewrite len_to_nat, sliceFrom_append. unfold TrimSpace.
      change (" " +:+ ws1 +:+ String n name +:+ TrimRightSpace (ws2 +:+ comment))
        with (String " " ws1 +:+ String n name +:+ TrimRightSpace (ws2 +:+ comment)).
      rewrite TrimLeftSpace_allSpace by done.
      rewrite append_String, TrimLeftSpace_String by (by apply nameBytes_space).
      rewrite <- append_String. by apply TrimRightSpace_name. }
    cbv zeta. rewrite Hline2. f_equal.
    destruct comment as [|h comment].
    + rewrite append_Empty_r, (TrimRightSpace_allSpace ws2) by done.
      simpl TrimRightSpace. rewrite append_Empty_r.
      rewrite (nameBytes_no_hash _ Hname). simpl Z.eqb. cbv iota.
      rewrite len_to_nat, sliceTo_all.
      pose proof (TrimSpace_name_spaces (String n name) EmptyString Hname eq_refl) as H.
      rewrite append_Empty_r in H. exact H.
    + unfold commentShape in Hcomment. simpl in Hcomment.
      destruct (Ascii.eqb_spec h "#") as [->|]; [|done].
      rewrite !TrimRightSpace_before by done.
      rewrite <- append_assoc'.
      rewrite IndexRune_absent_append
        by (apply IndexRune_absent_both; [by apply nameBytes_no_hash|by apply allSpace_no_hash]).
      destruct (Z.eqb_spec (len (String n name +:+ ws2)) (-1)) as [He|_];
        [unfold len in He; lia|].
      rewrite len_to_nat, sliceTo_append. by apply TrimSpace_name_spaces.
Qed.

Lemma TrimSpace_line ws0 tok mid name tail :
  allSpace ws0 = true →
  tokenShape tok = true →
  name ≠ EmptyString →
  nameBytes name = true →
  TrimSpace (ws0 +:+ tok +:+ mid +:+ name +:+ tail)
  = tok +:+ mid +:+ name +:+ TrimRightSpace tail.
Proof.
  intros Hws0 Htok Hne Hname. unfold TrimSpace.
  rewrite TrimLeftSpace_allSpace by done.
  destruct tok as [|t tok]; [done|]. apply andb_prop in Htok as [Ht _].
  rewrite append_String, TrimLeftSpace_String by (by apply nameBytes_space).
  rewrite <- append_String.
  destruct name as [|n name]; [done|]. pose proof Hname as Hname'.
  apply andb_prop in Hname' as [Hn _].
  rewrite <- (append_assoc' (String t tok) mid (String n name +:+ tail)).
  rewrite (append_String n), TrimRightSpace_before by (by apply nameBytes_space).
  rewrite <- (TrimRightSpace_String n) by (by apply nameBytes_space).
  rewrite <- append_String, TrimRightSpace_name by done.
  by rewrite append_assoc'.
Qed.

Lemma ToLower_isEmpty s : isEmpty (ToLower s) = isEmpty s.
Proof. by destruct s. Qed.

Lemma extractName_line ws0 tok ws1 name ws2 comment :
  allSpace ws0 = true →
  tokenShape tok = true →
  allSpace ws1 = true →
  name ≠ EmptyString →
  nameBytes name = true →
  allSpace ws2 = true →
  commentShape comment = true →
  extractName (ws0 +:+ tok +:+ " " +:+ ws1 +:+ name +:+ ws2 +:+ comment)
  = if rejected (ToLower name) then None else Some (ToLower name).
Proof.
  intros Hws0 Htok Hws1 Hne Hname Hws2 Hcomment.
  destruct (extractName_trimmed tok ws1 name ws2 comment Htok Hws1 Hne Hname Hws2 Hcomment)
    as (H1 & H2 & H3). cbv zeta in H3.
  unfold extractName. cbv zeta.
  rewrite <- (append_assoc' " " ws1 (name +:+ ws2 +:+ comment)).
  rewrite TrimSpace_line by done. rewrite (append_assoc' " " ws1).
  rewrite H1, H2.
  destruct (Z.eqb_spec (len tok) (-1)) as [He|_]; [unfold len in He; lia|].
  rewrite H3, ToLower_isEmpty. destruct name; [done|]. reflexivity.
Qed.

Lemma extractName_blank line : allSpace line = true → extractName line = None.
Proof.
  intros H. unfold extractName, TrimSpace.
  rewrite <- (append_Empty_r line), TrimLeftSpace_allSpace by done. done.
Qed.

Lemma extractName_comment ws0 rest :
  allSpace ws0 = true → extractName (ws0 +:+ "#" +:+ rest) = None.
Proof.
  intros H. unfold extractName, TrimSpace. rewrite TrimLeftSpace_allSpace by done.
  change ("#" +:+ rest) with (String "#" rest).
  rewrite TrimLeftSpace_String, TrimRightSpace_String by done.
  cbv zeta. replace (HasPrefix (String "#" (TrimRightSpace rest)) "#") with true.
  - by rewrite orb_true_r.
  - simpl. by destruct (TrimRightSpace rest).
Qed.

Lemma IndexRune_String_absent x s c :
  IndexRune (String x s) c = -1 → Ascii.eqb x c = false ∧ IndexRune s c = -1.
Proof.
  simpl. destruct (Ascii.eqb x c); [done|]. intros H. split; [done|].
  destruct (Z.eqb_spec (IndexRune s c) (-1)); [done|].
  pose proof (IndexRune_range s c). lia.
Qed.

Lemma IndexRune_TrimLeftSpace s c : IndexRune s c = -1 → IndexRune (TrimLeftSpace s) c = -1.
Proof.
  induction s as [|x s IH]; [done|]. intros H. simpl TrimLeftSpace.
  destruct (isSpace x); [|done]. apply IH. by apply IndexRune_String_absent in H as [_ ?].
Qed.

Lemma IndexRune_TrimRightSpace s c : IndexRune s c = -1 → IndexRune (TrimRightSpace s) c = -1.
Proof.
  induction s as [|x s IH]; [done|]. intros H. simpl TrimRightSpace.
  apply IndexRune_String_absent in H as [Hx Hs].
  destruct (isSpace x && isEmpty (TrimRightSpace s)); [done|].
  simpl. rewrite Hx, (IH Hs). done.
Qed.

Lemma extractName_no_space line : IndexRune line " " = -1 → extractName line = None.
Proof.
  intros H. unfold extractName. cbv zeta.
  rewrite (IndexRune_TrimRightSpace _ _ (IndexRune_TrimLeftSpace _ _ H)) at 1.
  destruct (_ || _); done.
Qed.

Lemma Split_absent s sep : IndexRune s sep = -1 → Split s sep = [s].
Proof.
  induction s as [|x s IH]; [done|]. intros [Hx Hs]%IndexRune_String_absent.
  simpl. by rewrite Hx, (IH Hs).
Qed.

Lemma Split_append s sep rest :
  IndexRune s sep = -1 → Split (s +:+ String sep rest) sep = s :: Split rest sep.
Proof.
  induction s as [|x s IH].
  - intros _. rewrite append_Empty. simpl. by rewrite Ascii.eqb_refl.
  - intros [Hx Hs]%IndexRune_String_absent. rewrite append_String. simpl.
    by rewrite Hx, (IH Hs).
Qed.

Lemma Split_Join lines :
  lines ≠ [] →
  Forall (λ line, IndexRune line "010" = -1) lines →
  Split (Join lines LF) "010" = lines.
Proof.
  induction lines as [|line lines IH]; [done|]. intros _ Hall.
  inversion Hall as [|? ? Hline Hrest]; subst.
  destruct lines as [|line' lines].
  - simpl. by apply Split_absent.
  - change (Join (line :: line' :: lines) LF)
      with (line +:+ String "010" (Join (line' :: lines) LF)).
    rewrite Split_append by done. f_equal. by apply IH.
Qed.

Lemma extract_fold lines : ∀ ret,
  fold_left
    (λ ret line, match extractName line with
                 | Some aName => ret ++ [aName]
                 | None => ret
                 end) lines ret
  = ret ++ omap extractName lines.
Proof.
  induction lines as [|line lines IH]; intros ret; simpl; [by rewrite app_nil_r|].
  rewrite IH. destruct (extractName line); [by rewrite <- app_assoc|done].
Qed.

Lemma ExtractNamesFromHostsContent_Join lines :
  lines ≠ [] →
  Forall (λ line, IndexRune line "010" = -1) lines →
  ExtractNamesFromHostsContent (Join lines LF) = omap extractName lines.
Proof.
  intros Hne Hall. unfold ExtractNamesFromHostsContent.
  by rewrite Split_Join, extract_fold.
Qed.

(** C2, as the code has it.  The names extracted from a content are those of
    its lines, in order.  For every (ASCII) line of the form: a first field (the
    IP token) that holds no space character, a space character and any further
    white space, then a domain, then white space and possibly a comment that [#]
    starts, [ExtractNamesFromHostsContent] returns the lowercased domain name,
    unless the name has the suffix [localhost] or [localdomain] or is shorter
    than 4 characters; and it returns nothing for blank lines, for comment
    lines, and for lines that hold no space character (a domain with no first
    field, or one that only tabs separate from it). *)
Theorem ExtractNamesFromHostsContent_lines :
  (∀ lines,
      lines ≠ [] →
      Forall (λ line, IndexRune line "010" = -1) lines →
      ExtractNamesFromHostsContent (Join lines LF) = omap extractName lines)
  ∧ (∀ ws0 tok ws1 name ws2 comment,
        allSpace ws0 = true →
        tokenShape tok = true →
        allSpace ws1 = true →
        name ≠ EmptyString →
        nameBytes name = true →
        allSpace ws2 = true →
        commentShape comment = true →
        isASCII (ws0 +:+ tok +:+ " " +:+ ws1 +:+ name +:+ ws2 +:+ comment) = true →
        extractName (ws0 +:+ tok +:+ " " +:+ ws1 +:+ name +:+ ws2 +:+ comment)
        = if rejected (ToLower name) then None else Some (ToLower name))
  ∧ (∀ line, allSpace line = true → extractName line = None)
  ∧ (∀ ws0 rest, allSpace ws0 = true → extractName (ws0 +:+ "#" +:+ rest) = None)
  ∧ (∀ line, IndexRune line " " = -1 → extractName line = None).
Proof.
  split; [apply ExtractNamesFromHostsContent_Join|].
  split; [intros; by apply extractName_line|].
  split; [apply extractName_blank|].
  split; [apply extractName_comment|apply extractName_no_space].
Qed.

(** At concrete lines. *)
Lemma ExtractNamesFromHostsContent_lines_witness :
  ExtractNamesFromHostsContent
    (Join ["# hosts"; "127.0.0.1 localhost"; EmptyString;
           "0.0.0.0   Ads.Example.COM  # tracker"] LF)
  = omap extractName ["# hosts"; "127.0.0.1 localhost"; EmptyString;
                      "0.0.0.0   Ads.Example.COM  # tracker"]
  ∧ extractName ("  " +:+ "0.0.0.0" +:+ " " +:+ "  " +:+ "Ads.Example.COM" +:+ "  "
                 +:+ "# tracker") = Some "ads.example.com"
  ∧ extractName (EmptyString +:+ "127.0.0.1" +:+ " " +:+ TAB +:+ "localhost" +:+ EmptyString
                 +:+ EmptyString) = None
  ∧ extractName (EmptyString +:+ "::1" +:+ " " +:+ EmptyString +:+ "a.b" +:+ EmptyString
                 +:+ EmptyString) = None
  ∧ extractName ("  " +:+ TAB) = None
  ∧ extractName (TAB +:+ "#" +:+ " ads.example.com") = None
  ∧ extractName "ads.example.com" = None.
Proof.
  destruct ExtractNamesFromHostsContent_lines as (H1 & H2 & H3 & H4 & H5).
  split; [|split; [|split; [|split; [|split; [|split]]]]].
  - apply H1; [discriminate|]. repeat constructor.
  - exact (H2 "  " "0.0.0.0" "  " "Ads.Example.COM" "  " "# tracker"
              eq_refl eq_refl eq_refl ltac:(discriminate) eq_refl eq_refl eq_refl eq_refl).
  - exact (H2 EmptyString "127.0.0.1" TAB "localhost" EmptyString EmptyString
              eq_refl eq_refl eq_refl ltac:(discriminate) eq_refl eq_refl eq_refl eq_refl).
  - exact (H2 EmptyString "::1" EmptyString "a.b" EmptyString EmptyString
              eq_refl eq_refl eq_refl ltac:(discriminate) eq_refl eq_refl eq_refl eq_refl).
  - apply H3. reflexivity.
  - apply H4. reflexivity.
  - apply H5. reflexivity.
Defined.

(** C2 as stated fails.  The leading IP token is not optional, and white space
    other than a space character does not separate it from the domain: a line
    that is a domain alone, and a line in which a tab separates the token from
    the domain, give no name, where the same domain after a token and a space
    is extracted. *)
Lemma line_without_space_gives_no_name :
  ExtractNamesFromHostsContent "ads.example.com" = []
  ∧ ExtractNamesFromHostsContent (" " +:+ "ads.example.com") = []
  ∧ ExtractNamesFromHostsContent ("0.0.0.0" +:+ TAB +:+ "ads.example.com") = []
  ∧ ExtractNamesFromHostsContent "0.0.0.0 ads.example.com" = ["ads.example.com"].
Proof. vm_compute. done. Qed.

End hosts_file.

(** * Further properties *)

(** ** The visiting order of a map *)

Lemma rangeEntries_perm r {V} (m : gmap string V) : rangeEntries r m ≡ₚ map_to_list m.
Proof.
  unfold rangeEntries. rewrite rangeKeys_perm.
  assert (H : Forall (λ kv : string * V, m !! kv.1 = Some kv.2) (map_to_list m)).
  { apply Forall_forall. intros [k v] Hin. by apply elem_of_map_to_list in Hin. }
  induction (map_to_list m) as [|[k v] l IH]; [done|].
  inversion H as [|? ? Hk Hl]; subst. cbn [fmap list_fmap omap list_omap fst snd] in *.
  rewrite Hk. cbn. constructor. by apply IH.
Qed.

Lemma rangeEntries_elem r {V} (m : gmap string V) k v :
  (k, v) ∈ rangeEntries r m ↔ m !! k = Some v.
Proof. by rewrite rangeEntries_perm, elem_of_map_to_list. Qed.

Lemma rangeEntries_NoDup r {V} (m : gmap string V) : NoDup (rangeEntries r m).*1.
Proof. rewrite rangeEntries_perm. apply NoDup_fst_map_to_list. Qed.

(** ** The names of a hosts file *)

Section more_hosts_file.
Import dnsd.

Lemma toLowerByte_idem c : toLowerByte (toLowerByte c) = toLowerByte c.
Proof. destruct c as [[] [] [] [] [] [] [] []]; reflexivity. Qed.

Lemma toLowerByte_isSpace c : isSpace (toLowerByte c) = isSpace c.
Proof. destruct c as [[] [] [] [] [] [] [] []]; reflexivity. Qed.

Lemma toLowerByte_hash c : Ascii.eqb (toLowerByte c) "#" = Ascii.eqb c "#".
Proof. destruct c as [[] [] [] [] [] [] [] []]; reflexivity. Qed.

Lemma ToLower_idem s : ToLower (ToLower s) = ToLower s.
Proof. induction s as [|c s IH]; [done|]. simpl. by rewrite toLowerByte_idem, IH. Qed.

Lemma ToLower_TrimLeftSpace s : TrimLeftSpace (ToLower s) = ToLower (TrimLeftSpace s).
Proof.
  induction s as [|c s IH]; [done|]. simpl. rewrite toLowerByte_isSpace.
  by destruct (isSpace c).
Qed.

Lemma ToLower_TrimRightSpace s : TrimRightSpace (ToLower s) = ToLower (TrimRightSpace s).
Proof.
  induction s as [|c s IH]; [done|]. simpl. rewrite toLowerByte_isSpace, IH, ToLower_isEmpty.
  by destruct (isSpace c && isEmpty (TrimRightSpace s)).
Qed.

Lemma ToLower_TrimSpace s : TrimSpace (ToLower s) = ToLower (TrimSpace s).
Proof. unfold TrimSpace. by rewrite ToLower_TrimLeftSpace, ToLower_TrimRightSpace. Qed.

Lemma ToLower_no_hash s : IndexRune s "#" = -1 → IndexRune (ToLower s) "#" = -1.
Proof.
  induction s as [|c s IH]; [done|]. intros [Hc Hs]%IndexRune_String_absent.
  simpl. rewrite toLowerByte_hash, Hc, (IH Hs). done.
Qed.

Lemma TrimRightSpace_idem s : TrimRightSpace (TrimRightSpace s) = TrimRightSpace s.
Proof.
  induction s as [|c s IH]; [done|]. simpl.
  destruct (isSpace c && isEmpty (TrimRightSpace s)) eqn:H; [done|].
  simpl. by rewrite IH, H.
Qed.

Lemma TrimLeftSpace_trimmedLeft s : trimmedLeft (TrimLeftSpace s) = true.
Proof.
  induction s as [|c s IH]; [done|]. simpl. destruct (isSpace c) eqn:H; [done|].
  simpl. by rewrite H.
Qed.

Lemma TrimLeftSpace_id s : trimmedLeft s = true → TrimLeftSpace s = s.
Proof. destruct s as [|c s]; [done|]. simpl. by destruct (isSpace c). Qed.

Lemma TrimRightSpace_trimmedLeft s :
  trimmedLeft s = true → trimmedLeft (TrimRightSpace s) = true.
Proof.
  destruct s as [|c s]; [done|]. simpl. destruct (isSpace c) eqn:H; [done|].
  intros _. simpl. by rewrite H.
Qed.

Lemma TrimSpace_idem s : TrimSpace (TrimSpace s) = TrimSpace s.
Proof.
  unfold TrimSpace.
  rewrite (TrimLeftSpace_id (TrimRightSpace _))
    by apply TrimRightSpace_trimmedLeft, TrimLeftSpace_trimmedLeft.
  apply TrimRightSpace_idem.
Qed.

Lemma IndexRune_sliceTo s c :
  IndexRune (sliceTo (Z.to_nat (IndexRune s c)) s) c = -1.
Proof.
  induction s as [|x s IH]; [done|]. simpl IndexRune at 2.
  destruct (Ascii.eqb x c) eqn:Hx; [done|].
  pose proof (IndexRune_range s c) as Hr.
  destruct (Z.eqb_spec (IndexRune s c) (-1)) as [He|Hne]; [done|].
  replace (Z.to_nat (IndexRune s c + 1)) with (S (Z.to_nat (IndexRune s c))) by lia.
  simpl. rewrite Hx, IH. done.
Qed.

Lemma extractName_Some line name :
  extractName line = Some name →
  ∃ x, name = ToLower (TrimSpace x)
       ∧ IndexRune x "#" = -1
       ∧ rejected name = false
       ∧ name ≠ EmptyString.
Proof.
  unfold extractName. cbv zeta.
  destruct (_ || _); [done|].
  destruct (IndexRune (TrimSpace line) " " =? -1); [done|].
  set (line2 := TrimSpace (sliceFrom _ _)).
  set (x := sliceTo _ line2).
  destruct (isEmpty (ToLower (TrimSpace x))) eqn:He; [done|]. simpl orb.
  destruct (HasSuffix (ToLower (TrimSpace x)) "localhost") eqn:H1; [done|].
  destruct (HasSuffix (ToLower (TrimSpace x)) "localdomain") eqn:H2; [done|].
  destruct (len (ToLower (TrimSpace x)) <? 4) eqn:H3; [done|].
  simpl. intros [= <-]. exists x. split; [done|]. split; [|split].
  - subst x. destruct (Z.eqb_spec (IndexRune line2 "#") (-1)) as [Hi|Hi].
    + by rewrite len_to_nat, sliceTo_all.
    + apply IndexRune_sliceTo.
  - unfold rejected. by rewrite H1, H2, H3.
  - intros Hn. by rewrite Hn in He.
Qed.

Lemma extract_names content :
  ExtractNamesFromHostsContent content = omap extractName (Split content "010").
Proof. unfold ExtractNamesFromHostsContent. by rewrite extract_fold. Qed.

(** X1. Every name that [ExtractNamesFromHostsContent] returns for an ASCII
    content is at least 4 bytes long, ends neither in [localhost] nor in
    [localdomain], is in lower case, has no white space around it and holds no
    [#]. *)
Theorem extracted_names_are_clean content name :
  isASCII content = true →
  name ∈ ExtractNamesFromHostsContent content →
  4 ≤ len name
  ∧ HasSuffix name "localhost" = false
  ∧ HasSuffix name "localdomain" = false
  ∧ ToLower name = name
  ∧ TrimSpace name = name
  ∧ IndexRune name "#" = -1.
Proof.
  intros _. rewrite extract_names, list_elem_of_omap. intros (line & _ & Hline).
  apply extractName_Some in Hline as (x & -> & Hx & Hrej & Hne).
  unfold rejected in Hrej. apply orb_false_elim in Hrej as [Hrej H3].
  apply orb_false_elim in Hrej as [H1 H2]. apply Z.ltb_ge in H3.
  split; [done|]. split; [done|]. split; [done|]. split; [apply ToLower_idem|].
  split.
  - by rewrite ToLower_TrimSpace, TrimSpace_idem.
  - apply ToLower_no_hash. unfold TrimSpace.
    by apply IndexRune_TrimRightSpace, IndexRune_TrimLeftSpace.
Qed.

(** At a concrete file: one line, with a name in capitals and a comment. *)
Lemma extracted_names_are_clean_witness :
  4 ≤ len "ads.example.com"
  ∧ HasSuffix "ads.example.com" "localhost" = false
  ∧ HasSuffix "ads.example.com" "localdomain" = false
  ∧ ToLower "ads.example.com" = "ads.example.com"
  ∧ TrimSpace "ads.example.com" = "ads.example.com"
  ∧ IndexRune "ads.example.com" "#" = -1.
Proof.
  apply (extracted_names_are_clean ("0.0.0.0  Ads.Example.COM  # tracker" +:+ LF)
           "ads.example.com").
  - reflexivity.
  - apply list_elem_of_In. vm_compute. left. reflexivity.
Defined.

Lemma Split_nonempty s sep : Split s sep ≠ [].
Proof.
  induction s as [|c s IH]; [done|]. simpl. destruct (Ascii.eqb c sep); [done|].
  by destruct (Split s sep).
Qed.

Lemma Split_append_any a b sep :
  Split (a +:+ String sep b) sep = Split a sep ++ Split b sep.
Proof.
  induction a as [|c a IH].
  - rewrite append_Empty. simpl. by rewrite Ascii.eqb_refl.
  - rewrite append_String. simpl. destruct (Ascii.eqb c sep).
    + by rewrite IH.
    + rewrite IH. pose proof (Split_nonempty a sep). by destruct (Split a sep).
Qed.

(** X2. The names of two contents joined by a line feed are the names of
    the first followed by the names of the second: the lines are read one by
    one, in their order, and a name is never made of two lines. *)
Theorem names_of_joined_contents a b :
  ExtractNamesFromHostsContent (a +:+ LF +:+ b)
  = ExtractNamesFromHostsContent a ++ ExtractNamesFromHostsContent b.
Proof.
  rewrite !extract_names. change (LF +:+ b) with (String "010" b).
  by rewrite Split_append_any, omap_app.
Qed.

Lemma TrimRightSpace_append_spaces s ws :
  allSpace ws = true → TrimRightSpace (s +:+ ws) = TrimRightSpace s.
Proof.
  intros H. induction s as [|c s IH].
  - rewrite append_Empty. by apply TrimRightSpace_allSpace.
  - rewrite append_String. simpl. by rewrite IH.
Qed.

Lemma TrimLeftSpace_append_spaces s ws :
  allSpace ws = true →
  TrimLeftSpace (s +:+ ws) = if allSpace s then EmptyString else TrimLeftSpace s +:+ ws.
Proof.
  intros H. induction s as [|c s IH].
  - rewrite append_Empty. simpl.
    rewrite <- (append_Empty_r ws), TrimLeftSpace_allSpace by done. done.
  - rewrite append_String. simpl. destruct (isSpace c); [exact IH|done].
Qed.

Lemma TrimSpace_padded ws line ws' :
  allSpace ws = true → allSpace ws' = true →
  TrimSpace (ws +:+ line +:+ ws') = TrimSpace line.
Proof.
  intros H H'. unfold TrimSpace. rewrite TrimLeftSpace_allSpace by done.
  rewrite TrimLeftSpace_append_spaces by done. destruct (allSpace line) eqn:Hl.
  - rewrite <- (append_Empty_r line), (TrimLeftSpace_allSpace line) by done. done.
  - by apply TrimRightSpace_append_spaces.
Qed.

Lemma extractName_padded ws line ws' :
  allSpace ws = true → allSpace ws' = true →
  extractName (ws +:+ line +:+ ws') = extractName line.
Proof. intros H H'. unfold extractName. by rewrite TrimSpace_padded. Qed.

Lemma IndexRune_absent_append_iff a b c :
  IndexRune (a +:+ b) c = -1 ↔ IndexRune a c = -1 ∧ IndexRune b c = -1.
Proof.
  split; [|intros [? ?]; by apply IndexRune_absent_both].
  induction a as [|x a IH]; [done|]. rewrite append_String.
  intros [Hx Ha]%IndexRune_String_absent. destruct (IH Ha) as [H1 H2].
  split; [|done]. simpl. by rewrite Hx, H1.
Qed.

(** X3. White space around the lines does not change the names: the same
    white space added on the left and on the right of every (ASCII) line, such
    as the carriage return at the end of the lines of a file with CRLF line
    ends, leaves the result as it is. *)
Theorem names_ignore_padding ws ws' lines :
  allSpace ws = true → IndexRune ws "010" = -1 →
  allSpace ws' = true → IndexRune ws' "010" = -1 →
  lines ≠ [] →
  Forall (λ line, IndexRune line "010" = -1) lines →
  Forall (λ line, isASCII line = true) lines →
  ExtractNamesFromHostsContent (Join ((λ line, ws +:+ line +:+ ws') <$> lines) LF)
  = ExtractNamesFromHostsContent (Join lines LF).
Proof.
  intros Hws Hlf Hws' Hlf' Hne Hall _.
  rewrite (ExtractNamesFromHostsContent_Join lines) by done.
  rewrite ExtractNamesFromHostsContent_Join.
  - clear Hne Hall. induction lines as [|line lines IH]; [done|].
    cbn [fmap list_fmap omap list_omap].
    rewrite extractName_padded by done. by rewrite <- IH.
  - by destruct lines.
  - apply Forall_fmap. eapply Forall_impl; [exact Hall|]. simpl. intros line Hline.
    apply IndexRune_absent_append_iff. split; [done|].
    by apply IndexRune_absent_append_iff.
Qed.

(** At a concrete file: two lines that end in a carriage return. *)
Lemma names_ignore_padding_witness :
  ExtractNamesFromHostsContent
    (Join ((λ line, EmptyString +:+ line +:+ String "013" EmptyString)
             <$> ["0.0.0.0 ads.example.com"; "# a comment"]) LF)
  = ExtractNamesFromHostsContent (Join ["0.0.0.0 ads.example.com"; "# a comment"] LF).
Proof.
  apply (names_ignore_padding EmptyString (String "013" EmptyString)
           ["0.0.0.0 ads.example.com"; "# a comment"]).
  - reflexivity.
  - reflexivity.
  - reflexivity.
  - reflexivity.
  - discriminate.
  - repeat constructor.
  - repeat constructor.
Defined.

Lemma Split_length s sep : length (Split s sep) = S (countByte sep s).
Proof.
  induction s as [|c s IH]; [done|]. simpl. destruct (Ascii.eqb c sep).
  - simpl. by rewrite IH.
  - pose proof (Split_nonempty s sep). destruct (Split s sep); [done|].
    simpl in *. done.
Qed.

Lemma omap_length_le {A B} (f : A → option B) l : (length (omap f l) ≤ length l)%nat.
Proof.
  induction l as [|x l IH]; [done|]. cbn [omap list_omap].
  destruct (f x); simpl; lia.
Qed.

(** X4. A line yields one name at most: the number of names is at most the
    number of line feeds of the content plus one. *)
Theorem one_name_per_line_at_most content :
  (length (ExtractNamesFromHostsContent content) ≤ S (countByte "010" content))%nat.
Proof.
  rewrite extract_names, <- Split_length. apply omap_length_le.
Qed.

End more_hosts_file.

(** ** The union of the lists, and the log of the download *)

Section more_blacklist.
Import dnsd.

(** X5. The elements that [UniqueStrings] returns depend neither on the
    order of the arrays nor on the order in which the map is visited; they are
    no more than the elements of the arrays together; and [UniqueStrings] of
    its own result returns the same elements. *)
Theorem UniqueStrings_order_free r r' arrays arrays' :
  arrays ≡ₚ arrays' →
  UniqueStrings r arrays ≡ₚ UniqueStrings r' arrays'
  ∧ (length (UniqueStrings r arrays) ≤ length (concat (omap id arrays)))%nat
  ∧ UniqueStrings r' [Some (UniqueStrings r arrays)] ≡ₚ UniqueStrings r arrays.
Proof.
  intros Hp.
  destruct (UniqueStrings_spec r arrays) as [Hnd Hin].
  destruct (UniqueStrings_spec r' arrays') as [Hnd' Hin'].
  split; [|split].
  - apply NoDup_Permutation; [done..|]. intros x. rewrite Hin, Hin'.
    split; intros (strs & H1 & H2); exists strs; split; try done.
    + by rewrite <- Hp.
    + by rewrite Hp.
  - apply submseteq_length, NoDup_submseteq; [done|]. intros x. rewrite Hin.
    intros (strs & H1 & H2). apply list_elem_of_In, in_concat. exists strs.
    split; [|by apply list_elem_of_In].
    apply list_elem_of_In, list_elem_of_omap. by exists (Some strs).
  - destruct (UniqueStrings_spec r' [Some (UniqueStrings r arrays)]) as [Hnd1 Hin1].
    apply NoDup_Permutation; [done..|]. intros x. rewrite Hin1. split.
    + intros (strs & H1 & H2). apply list_elem_of_singleton in H1. by injection H1 as ->.
    + intros H. exists (UniqueStrings r arrays). split; [|done]. by apply list_elem_of_singleton.
Qed.

(** At concrete arrays: two lists with one name in common, and a nil array. *)
Lemma UniqueStrings_order_free_witness :
  UniqueStrings plainRange [Some ["a.example"; "b.example"]; None; Some ["b.example"]]
  ≡ₚ UniqueStrings reverseRange [None; Some ["a.example"; "b.example"]; Some ["b.example"]]
  ∧ (length (UniqueStrings plainRange
               [Some ["a.example"; "b.example"]; None; Some ["b.example"]])
     ≤ length (concat (omap id [Some ["a.example"; "b.example"]; None; Some ["b.example"]])))%nat
  ∧ UniqueStrings reverseRange
      [Some (UniqueStrings plainRange
               [Some ["a.example"; "b.example"]; None; Some ["b.example"]])]
    ≡ₚ UniqueStrings plainRange [Some ["a.example"; "b.example"]; None; Some ["b.example"]].
Proof.
  apply (UniqueStrings_order_free plainRange reverseRange
           [Some ["a.example"; "b.example"]; None; Some ["b.example"]]
           [None; Some ["a.example"; "b.example"]; Some ["b.example"]]).
  apply perm_swap.
Defined.

Lemma downloads_log DoHTTP jobs : ∀ st,
  log (fold_left (downloadOne DoHTTP) jobs st)
  = log st ++ (downloadLine DoHTTP <$> jobs.*2).
Proof.
  induction jobs as [|[i url] jobs IH]; intros st; simpl; [by rewrite app_nil_r|].
  rewrite IH. simpl. by rewrite <- app_assoc.
Qed.

Lemma imap_pair_snd {A} (l : list A) : ∀ n, (imap (λ i x, (n + i, x)%nat) l).*2 = l.
Proof.
  induction l as [|x l IH]; intros n; [done|]. simpl. f_equal.
  rewrite <- (IH (S n)) at 2. f_equal. apply imap_ext. intros i y _. simpl. f_equal. lia.
Qed.

Lemma imap_pair_values {A} (l : list A) : (imap pair l).*2 = l.
Proof. rewrite <- (imap_pair_snd l 0) at 2. f_equal. Qed.

(** X6. [DownloadAllBlacklists] logs one line for each URL of
    [HostsFileURLs], in the order in which the downloads finish, with the error
    of the download and the number of names found in the body (the body of a
    failed download is parsed as well); the last line it logs holds the number
    of names that it returns. *)
Theorem DownloadAllBlacklists_log DoHTTP sch r :
  ∃ perURL,
    (DownloadAllBlacklists DoHTTP sch r).2
    = perURL ++ [ {| logFun := "DownloadAllBlacklists"; logAction := EmptyString;
                     logErr := None;
                     logCount := Z.of_nat (length (DownloadAllBlacklists DoHTTP sch r).1) |} ]
    ∧ perURL ≡ₚ downloadLine DoHTTP <$> HostsFileURLs.
Proof.
  unfold DownloadAllBlacklists. cbn [fst snd]. rewrite downloads_log. cbn [log app].
  eexists. split; [reflexivity|].
  rewrite schedule_perm, imap_pair_values. done.
Qed.

End more_blacklist.

(** ** Initialisation and self test of the feature set *)

Section more_feature.
Import feature.

(** The features of a set, whatever its table. *)
Lemma initialiseAll_deref entries : ∀ fs ref,
  deref (initialiseAll fs entries).1 ref = deref fs ref.
Proof.
  induction entries as [|[prefix featureRef] entries IH]; intros fs ref; simpl; [done|].
  destruct (IsConfigured (deref fs featureRef)); [|apply IH].
  destruct (Initialise (deref fs featureRef)); [done|].
  rewrite IH. apply deref_setLookupByPrefix.
Qed.

Lemma initialiseAll_error entries : ∀ fs err,
  (initialiseAll fs entries).2 = Some err →
  ∃ entry, entry ∈ entries ∧ IsConfigured (deref fs entry.2) = true
           ∧ Initialise (deref fs entry.2) = Some err.
Proof.
  induction entries as [|[prefix featureRef] entries IH]; intros fs err; simpl; [done|].
  destruct (IsConfigured (deref fs featureRef)) eqn:Hc.
  - destruct (Initialise (deref fs featureRef)) as [e|] eqn:Hi.
    + intros [= <-]. exists (prefix, featureRef). split; [by left|done].
    + intros H. apply IH in H as (entry & Hin & H1 & H2).
      rewrite deref_setLookupByPrefix in H1, H2. exists entry. split; [by right|done].
  - intros H. apply IH in H as (entry & Hin & H1 & H2). exists entry. split; [by right|done].
Qed.

Lemma initialiseAll_None entries : ∀ fs,
  (initialiseAll fs entries).2 = None →
  Forall (λ entry : string * FeatureRef,
            IsConfigured (deref fs entry.2) = true → Initialise (deref fs entry.2) = None)
         entries.
Proof.
  induction entries as [|[prefix featureRef] entries IH]; intros fs; simpl; [by constructor|].
  destruct (IsConfigured (deref fs featureRef)) eqn:Hc.
  - destruct (Initialise (deref fs featureRef)) as [e|] eqn:Hi; [done|].
    intros H. apply IH in H. constructor; [done|].
    eapply Forall_impl; [exact H|]. intros entry. simpl. by rewrite deref_setLookupByPrefix.
  - intros H. apply IH in H. constructor; [|done]. simpl. congruence.
Qed.

Lemma initialiseAll_success entries : ∀ fs,
  Forall (λ entry : string * FeatureRef,
            IsConfigured (deref fs entry.2) = true → Initialise (deref fs entry.2) = None)
         entries →
  NoDup entries.*1 →
  (initialiseAll fs entries).2 = None
  ∧ ∀ t ref,
      LookupByPrefix (initialiseAll fs entries).1 !! t = Some ref
      ↔ ((t, ref) ∈ entries ∧ IsConfigured (deref fs ref) = true)
        ∨ ((∀ ref', (t, ref') ∈ entries → IsConfigured (deref fs ref') = false)
           ∧ LookupByPrefix fs !! t = Some ref).
Proof.
  induction entries as [|[prefix featureRef] entries IH]; intros fs Hall Hnd.
  - simpl. split; [done|]. intros t ref. split.
    + intros H. right. split; [|done]. intros ref' Hin. by apply elem_of_nil in Hin.
    + intros [[H _]|[_ H]]; [by apply elem_of_nil in H|done].
  - inversion Hall as [|? ? Hhead Hrest]; subst. simpl in Hhead.
    apply NoDup_cons in Hnd as [Hnotin Hnd]. cbn [fmap list_fmap fst] in Hnotin.
    assert (Hfresh : ∀ ref', (prefix, ref') ∉ entries).
    { intros ref' Hin. apply Hnotin. apply list_elem_of_fmap. by exists (prefix, ref'). }
    simpl. destruct (IsConfigured (deref fs featureRef)) eqn:Hc.
    + rewrite (Hhead eq_refl).
      destruct (IH (setLookupByPrefix fs (<[prefix:=featureRef]> (LookupByPrefix fs))))
        as [Hnone Hlook].
      { eapply Forall_impl; [exact Hrest|]. intros entry. simpl.
        by rewrite deref_setLookupByPrefix. }
      { done. }
      split; [done|]. intros t ref. rewrite Hlook. cbn [LookupByPrefix setLookupByPrefix].
      rewrite deref_setLookupByPrefix, lookup_insert. split.
      * intros [[Hin Hcf]|[Hn Hl]]; [left; split; [by right|done]|].
        case_decide as Hd.
        -- injection Hl as <-. subst. left. split; [by left|done].
        -- right. split; [|done]. intros ref' [[= ? ?]|Hin]%elem_of_cons; [done|].
           specialize (Hn ref' Hin). by rewrite deref_setLookupByPrefix in Hn.
      * intros [[[Heq|Hin]%elem_of_cons Hcf]|[Hn Hl]].
        -- injection Heq as -> ->. right. split; [|by rewrite decide_True].
           intros ref' Hin. by apply Hfresh in Hin.
        -- by left.
        -- right. split.
           ++ intros ref' Hin. rewrite deref_setLookupByPrefix. apply Hn. by right.
           ++ rewrite decide_False; [done|]. intros <-.
              specialize (Hn featureRef (list_elem_of_here _ _)). congruence.
    + destruct (IH fs Hrest Hnd) as [Hnone Hlook]. split; [done|].
      intros t ref. rewrite Hlook. split.
      * intros [[Hin Hcf]|[Hn Hl]]; [left; split; [by right|done]|].
        right. split; [|done]. intros ref' [[= -> ->]|Hin]%elem_of_cons; [done|by apply Hn].
      * intros [[[Heq|Hin]%elem_of_cons Hcf]|[Hn Hl]].
        -- injection Heq as -> ->. congruence.
        -- by left.
        -- right. split; [|done]. intros ref' Hin. apply Hn. by right.
Qed.

Lemma assigned_lookup fs refs : ∀ (m : gmap string FeatureRef) t ref,
  fold_left (λ m ref, <[Trigger (deref fs ref) := ref]> m) refs m !! t = Some ref →
  ref ∈ refs ∨ (m !! t = Some ref ∧ Forall (λ ref', Trigger (deref fs ref') ≠ t) refs).
Proof.
  induction refs as [|ref0 refs IH]; intros m t ref; cbn [fold_left].
  - intros H. right. by split.
  - intros H. apply IH in H as [Hin|[Hm Hall]]; [left; by right|].
    rewrite lookup_insert in Hm. case_decide as Hd.
    + injection Hm as <-. left. by left.
    + right. split; [done|]. by constructor.
Qed.

Lemma assignments_NoDup o : NoDup (assignments o).
Proof.
  rewrite (assignments_perm o).
  repeat (apply NoDup_cons; split;
          [intros Hx; repeat (apply elem_of_cons in Hx as [Hx|Hx]; [discriminate|]);
           by apply elem_of_nil in Hx|]).
  apply NoDup_nil_2.
Qed.

Lemma prefixes_assigned_later o fs t ref before after :
  prefixes o fs !! t = Some ref →
  assignments o = before ++ ref :: after →
  Forall (λ ref', Trigger (deref fs ref') ≠ t) after.
Proof.
  intros H Ho. pose proof (assignments_NoDup o) as Hnd. rewrite Ho in Hnd.
  apply NoDup_app in Hnd as (_ & _ & Hnd). apply NoDup_cons in Hnd as [Hnotin _].
  unfold prefixes in H. rewrite Ho, fold_left_app in H. cbn [fold_left] in H.
  by apply assigned_lookup in H as [Hin|[_ Hall]].
Qed.

Lemma LookupByPrefix_in_prefixes o r fs t ref :
  LookupByPrefix (FeatureSet_Initialise o r fs).1 !! t = Some ref →
  prefixes o fs !! t = Some ref.
Proof.
  unfold FeatureSet_Initialise. intros H.
  apply (initialiseAll_sound fs (λ t ref, prefixes o fs !! t = Some ref)) in H.
  - by destruct H.
  - intros ref'. apply deref_setLookupByPrefix.
  - intros t' ref'. simpl. by rewrite lookup_empty.
  - apply Forall_forall. intros [k v] Hin. simpl. apply rangeEntries_lookup in Hin.
    by rewrite prefixes_setLookupByPrefix in Hin.
Qed.

(** X7. [Initialise] of the feature set returns nil exactly when every
    configured feature of [prefixes] initialises; the lookup table then holds
    exactly the configured entries of [prefixes]; and an error that it returns
    is the error of the [Initialise()] of a configured feature. *)
Theorem FeatureSet_Initialise_result o r fs :
  ((FeatureSet_Initialise o r fs).2 = None
   ↔ ∀ t ref, prefixes o fs !! t = Some ref → IsConfigured (deref fs ref) = true →
              Initialise (deref fs ref) = None)
  ∧ ((FeatureSet_Initialise o r fs).2 = None →
     ∀ t ref, LookupByPrefix (FeatureSet_Initialise o r fs).1 !! t = Some ref
              ↔ prefixes o fs !! t = Some ref ∧ IsConfigured (deref fs ref) = true)
  ∧ (∀ err, (FeatureSet_Initialise o r fs).2 = Some err →
            ∃ t ref, prefixes o fs !! t = Some ref ∧ IsConfigured (deref fs ref) = true
                     ∧ Initialise (deref fs ref) = Some err).
Proof.
  assert (Herr : ∀ err, (FeatureSet_Initialise o r fs).2 = Some err →
            ∃ t ref, prefixes o fs !! t = Some ref ∧ IsConfigured (deref fs ref) = true
                     ∧ Initialise (deref fs ref) = Some err).
  { intros err H. unfold FeatureSet_Initialise in H.
    apply initialiseAll_error in H as ([t ref] & Hin & H1 & H2).
    rewrite deref_setLookupByPrefix in H1, H2. apply rangeEntries_elem in Hin.
    rewrite prefixes_setLookupByPrefix in Hin. exists t, ref. done. }
  assert (Hok : (∀ t ref, prefixes o fs !! t = Some ref →
                          IsConfigured (deref fs ref) = true →
                          Initialise (deref fs ref) = None) →
                (FeatureSet_Initialise o r fs).2 = None
                ∧ ∀ t ref, LookupByPrefix (FeatureSet_Initialise o r fs).1 !! t = Some ref
                           ↔ prefixes o fs !! t = Some ref
                             ∧ IsConfigured (deref fs ref) = true).
  { intros Hall. unfold FeatureSet_Initialise.
    destruct (initialiseAll_success (rangeEntries r (prefixes o (setLookupByPrefix fs ∅)))
                (setLookupByPrefix fs ∅)) as [Hnone Hlook].
    - apply Forall_forall. intros [t ref] Hin. simpl. rewrite deref_setLookupByPrefix.
      apply rangeEntries_elem in Hin. rewrite prefixes_setLookupByPrefix in Hin.
      exact (Hall t ref Hin).
    - apply rangeEntries_NoDup.
    - split; [done|]. intros t ref. rewrite Hlook, deref_setLookupByPrefix.
      rewrite rangeEntries_elem, prefixes_setLookupByPrefix.
      cbn [LookupByPrefix setLookupByPrefix].
      rewrite lookup_empty. split; [intros [?|[_ [=]]]; done|by left]. }
  assert (Hall : (FeatureSet_Initialise o r fs).2 = None →
                 ∀ t ref, prefixes o fs !! t = Some ref →
                          IsConfigured (deref fs ref) = true →
                          Initialise (deref fs ref) = None).
  { intros Hnone t ref Hp Hc. unfold FeatureSet_Initialise in Hnone.
    apply initialiseAll_None in Hnone. rewrite Forall_forall in Hnone.
    specialize (Hnone (t, ref)). simpl in Hnone. rewrite deref_setLookupByPrefix in Hnone.
    apply Hnone; [|done]. apply rangeEntries_elem.
    by rewrite prefixes_setLookupByPrefix. }
  split; [|split; [|done]].
  - split; [done|]. intros H. by apply Hok.
  - intros Hnone. by apply Hok, Hall.
Qed.

(** X8. Of two features of the set that answer to one trigger, at most one
    is in the lookup table after [Initialise], whichever of them are
    configured: the other one is dropped without an error.  It is the feature
    whose entry of the map literal is assigned first that is never in the
    table; the language does not fix the order of these assignments, so the
    source does not say which of the two it is. *)
Theorem shared_trigger_registers_one_feature o r fs ref ref' :
  ref ≠ ref' →
  Trigger (deref fs ref) = Trigger (deref fs ref') →
  (∀ t t', LookupByPrefix (FeatureSet_Initialise o r fs).1 !! t = Some ref →
           LookupByPrefix (FeatureSet_Initialise o r fs).1 !! t' ≠ Some ref')
  ∧ (∀ before after,
        assignments o = before ++ ref :: after →
        ref' ∈ after →
        ∀ t, LookupByPrefix (FeatureSet_Initialise o r fs).1 !! t ≠ Some ref).
Proof.
  intros Hne Hsame. split.
  - intros t t' H H'.
    pose proof (LookupByPrefix_entry o r fs t ref H) as (_ & _ & Ht).
    pose proof (LookupByPrefix_entry o r fs t' ref' H') as (_ & _ & Ht').
    rewrite <- Ht', <- Hsame, Ht in H'. congruence.
  - intros before after Ho Hin t H.
    pose proof (LookupByPrefix_entry o r fs t ref H) as (_ & _ & Ht).
    apply LookupByPrefix_in_prefixes in H.
    pose proof (prefixes_assigned_later o fs t ref before after H Ho) as Hall.
    rewrite Forall_forall in Hall. apply (Hall ref' Hin). congruence.
Qed.

(** At a concrete set: the shell and Twitter both answer to [.s], and the
    entries are assigned as they are written. *)
Lemma shared_trigger_registers_one_feature_witness :
  (∀ t t',
      LookupByPrefix (FeatureSet_Initialise writtenOrder plainRange sharedTrigger).1 !! t
      = Some RefShell →
      LookupByPrefix (FeatureSet_Initialise writtenOrder plainRange sharedTrigger).1 !! t'
      ≠ Some RefTwitter)
  ∧ (∀ before after,
        assignments writtenOrder = before ++ RefShell :: after →
        RefTwitter ∈ after →
        ∀ t, LookupByPrefix (FeatureSet_Initialise writtenOrder plainRange sharedTrigger).1
               !! t ≠ Some RefShell).
Proof.
  apply (shared_trigger_registers_one_feature writtenOrder plainRange sharedTrigger
           RefShell RefTwitter).
  - discriminate.
  - reflexivity.
Defined.

(** Which of the two stays depends on the order of the assignments. *)
Example shared_trigger_depends_on_order :
  LookupByPrefix (FeatureSet_Initialise writtenOrder plainRange sharedTrigger).1 !! ".s"
  = Some RefTwitter
  ∧ LookupByPrefix (FeatureSet_Initialise reverseOrder plainRange sharedTrigger).1 !! ".s"
    = Some RefShell.
Proof. vm_compute. done. Qed.

Lemma selfTest_fold selfTest fs refs : ∀ ret t,
  NoDup ((λ ref, Trigger (deref fs ref)) <$> refs) →
  fold_left (selfTestOne selfTest fs) refs ret !! t
  = match list_find (λ ref, Trigger (deref fs ref) = t) refs with
    | Some (_, ref) => match selfTest ref with Some err => Some err | None => ret !! t end
    | None => ret !! t
    end.
Proof.
  induction refs as [|ref refs IH]; intros ret t Hnd; [done|].
  cbn [fmap list_fmap] in Hnd. apply NoDup_cons in Hnd as [Hnotin Hnd].
  cbn [fold_left list_find]. rewrite IH by done. case_decide as Hd.
  - subst t. cbn.
    destruct (list_find (λ ref0, Trigger (deref fs ref0) = Trigger (deref fs ref)) refs)
      as [[i ref0]|] eqn:Hf.
    + apply list_find_Some in Hf as (Hi & Heq & _). exfalso. apply Hnotin.
      apply list_elem_of_fmap. exists ref0. split; [done|]. by eapply list_elem_of_lookup_2.
    + cbn. unfold selfTestOne. destruct (selfTest ref); [by rewrite lookup_insert_eq|done].
  - destruct (list_find (λ ref0, Trigger (deref fs ref0) = t) refs) as [[i ref0]|] eqn:Hf; cbn.
    + destruct (selfTest ref0); [done|]. unfold selfTestOne.
      destruct (selfTest ref); [by rewrite lookup_insert_ne|done].
    + unfold selfTestOne. destruct (selfTest ref); [by rewrite lookup_insert_ne|done].
Qed.

(** X9. After [Initialise], [SelfTest] returns under a trigger the error of
    the self test of the feature that the lookup table holds under this
    trigger, and nothing under a trigger that the table does not hold or whose
    feature passes the test, in whichever order the goroutines finish, the maps
    are visited and the entries of the map literal are assigned. *)
Theorem SelfTest_after_Initialise selfTest o r r' sch fs t :
  FeatureSet_SelfTest selfTest r' sch (FeatureSet_Initialise o r fs).1 !! t
  = LookupByPrefix (FeatureSet_Initialise o r fs).1 !! t ≫= selfTest.
Proof.
  set (fs' := (FeatureSet_Initialise o r fs).1).
  assert (Hd : ∀ ref, deref fs' ref = deref fs ref).
  { intros ref. unfold fs', FeatureSet_Initialise. rewrite initialiseAll_deref.
    apply deref_setLookupByPrefix. }
  assert (Hkey : ∀ k ref, LookupByPrefix fs' !! k = Some ref → Trigger (deref fs' ref) = k).
  { intros k ref H. rewrite Hd. by apply LookupByPrefix_entry in H as (_ & _ & ?). }
  assert (Hkeys : (λ ref, Trigger (deref fs' ref)) <$> (rangeEntries r' (LookupByPrefix fs')).*2
                  = (rangeEntries r' (LookupByPrefix fs')).*1).
  { assert (Hall : Forall (λ kv : string * FeatureRef, Trigger (deref fs' kv.2) = kv.1)
                     (rangeEntries r' (LookupByPrefix fs'))).
    { apply Forall_forall. intros [k ref] Hin. apply rangeEntries_elem in Hin. by apply Hkey. }
    induction Hall as [|[k ref] l Hh Hl IH]; [done|]. cbn in *. by rewrite Hh, IH. }
  unfold FeatureSet_SelfTest. rewrite selfTest_fold.
  - rewrite lookup_empty.
    destruct (list_find _ _) as [[i ref]|] eqn:Hf.
    + apply list_find_Some in Hf as (Hi & Heq & _).
      assert (Hin : ref ∈ (rangeEntries r' (LookupByPrefix fs')).*2).
      { rewrite <- (schedule_perm sch). by eapply list_elem_of_lookup_2. }
      apply list_elem_of_fmap in Hin as ([k ref0] & -> & Hin). simpl in *.
      apply rangeEntries_elem in Hin. pose proof (Hkey _ _ Hin) as Hk.
      rewrite Hk in Heq. subst k. rewrite Hin. cbn. by destruct (selfTest ref0).
    + destruct (LookupByPrefix fs' !! t) as [ref|] eqn:Hl; [|done]. exfalso.
      apply list_find_None in Hf. rewrite Forall_forall in Hf. apply (Hf ref).
      * rewrite schedule_perm. apply list_elem_of_fmap. exists (t, ref). split; [done|].
        by apply rangeEntries_elem.
      * by apply Hkey.
  - rewrite schedule_perm, Hkeys. apply rangeEntries_NoDup.
Qed.

End more_feature.

(** ** The ports that the check knocks on *)

Lemma knockHost_jobs w host ports :
  (knockHost w host ports).1 = filter (λ job, knockable w job) ((λ port, (host, port)) <$> ports).
Proof.
  induction ports as [|port ports IH]; [done|]. simpl.
  destruct (knockHost w host ports) as [jobs skipped]. simpl in IH.
  rewrite filter_cons.
  destruct (decide (knockable w (host, port))) as [Hk|Hk]; unfold knockable in Hk;
    simpl in Hk; destruct ((port =? 25) && (IsGCE w || IsAzure w)); simpl in *;
    try done; by rewrite IH.
Qed.

Lemma knockHosts_jobs w entries :
  (knockHosts w entries).1 = filter (λ job, knockable w job) (entries ≫= portsOfEntry).
Proof.
  induction entries as [|[host ports] entries IH]; [done|].
  change (((host, ports) :: entries) ≫= portsOfEntry)
    with (portsOfEntry (host, ports) ++ (entries ≫= portsOfEntry)).
  rewrite filter_app, <- IH. cbn [knockHosts].
  destruct (knockHosts w entries) as [jobs skipped]. cbn [fst].
  unfold portsOfEntry. cbn [fst snd]. destruct ports as [ports|]; [|done].
  destruct (isEmpty host); cbn [orb]; [done|].
  destruct (Z.eqb_spec (Z.of_nat (length ports)) 0) as [Hz|Hz].
  - destruct ports; [done|]. simpl in Hz. lia.
  - pose proof (knockHost_jobs w host ports) as Hk.
    destruct (knockHost w host ports) as [jobs1 skipped1]. cbn [fst] in *. by rewrite Hk.
Qed.

Lemma filter_none {A} (P : A → bool) l :
  Forall (λ x, P x = false) l → filter (λ x, P x) l = [].
Proof.
  induction 1 as [|x l Hx Hl IH]; [done|]. rewrite filter_cons.
  destruct (decide (P x)) as [Hp|Hp]; [by rewrite Hx in Hp|done].
Qed.

Lemma knock_fold w jobs : ∀ portErrs,
  fold_left (knock w) jobs portErrs
  = portErrs ++ (destOf <$> filter (λ job, refuses w job) jobs).
Proof.
  induction jobs as [|[host port] jobs IH]; intros portErrs; simpl; [by rewrite app_nil_r|].
  rewrite IH, filter_cons.
  destruct (decide (refuses w (host, port))) as [Hk|Hk]; unfold refuses, destOf in Hk;
    simpl in Hk;
    destruct (DialTimeout w "tcp" (JoinHostPort host (Itoa port))
                (TCPPortCheckTimeoutSec * Second)); simpl in *; try done.
  by rewrite <- app_assoc.
Qed.

Lemma runPortsCheck_run w r sch daemon s m :
  CheckTCPPorts daemon = Some m →
  let jobs := schedule sch _ (knockHosts w (rangeEntries r m)).1 in
  dialed (runPortsCheck w r sch daemon s).2 = dialed s ++ jobs
  ∧ (runPortsCheck w r sch daemon s).1
    = (if Z.of_nat (length (filter (λ job, refuses w job) jobs)) =? 0 then None
       else Some ("failed to connect to "
                    +:+ Join (destOf <$> filter (λ job, refuses w job) jobs) ", ")).
Proof.
  intros Hm jobs. unfold runPortsCheck. rewrite Hm.
  destruct (knockHosts w (rangeEntries r m)) as [js skipped] eqn:Hk. simpl in jobs.
  rewrite !bind_run. rewrite knock_fold. cbn [app]. rewrite length_fmap.
  subst jobs.
  destruct (Z.of_nat (length (filter (λ job, refuses w job) (schedule sch _ js))) =? 0);
    (split; [unfold ret, recordDials; cbn [snd dialed]; by rewrite logAll_dialed|done]).
Qed.

(** X10. [runPortsCheck] dials each port of each host of CheckTCPPorts once,
    in some order, except the ports of a host with an empty name, and port 25
    on Google compute engine and on Azure; it dials nothing else. *)
Theorem runPortsCheck_knocks_every_port w r sch daemon s m :
  CheckTCPPorts daemon = Some m →
  ∃ jobs,
    dialed (runPortsCheck w r sch daemon s).2 = dialed s ++ jobs
    ∧ jobs ≡ₚ filter (λ job, knockable w job) (map_to_list m ≫= portsOfEntry).
Proof.
  intros Hm. destruct (runPortsCheck_run w r sch daemon s m Hm) as [Hd _].
  eexists. split; [exact Hd|].
  rewrite schedule_perm, knockHosts_jobs. by rewrite rangeEntries_perm.
Qed.

(** At a concrete run: the daemon of the test on Google compute engine,
    which knocks on the port of the local host and not on the mail port. *)
Lemma runPortsCheck_knocks_every_port_witness :
  ∃ jobs,
    dialed (runPortsCheck Scenarios.gceWorld plainRange fifoScheduler Scenarios.knockingDaemon
              Scenarios.freshState).2
    = dialed Scenarios.freshState ++ jobs
    ∧ jobs ≡ₚ filter (λ job, knockable Scenarios.gceWorld job)
                (map_to_list (<["mx.example.com" := Some [25]]>
                                (<["localhost" := Some [11334]]> ∅)) ≫= portsOfEntry).
Proof.
  apply (runPortsCheck_knocks_every_port Scenarios.gceWorld plainRange fifoScheduler
           Scenarios.knockingDaemon Scenarios.freshState
           (<["mx.example.com" := Some [25]]> (<["localhost" := Some [11334]]> ∅))).
  reflexivity.
Defined.

(** X11. [runPortsCheck] returns nil exactly when every connection that it
    dials opens (as when there is nothing to dial); the error that it returns
    otherwise lists the destinations that did not open, in the order in which
    the connections finish. *)
Theorem runPortsCheck_reports_refused_ports w r sch daemon s :
  ∃ jobs,
    dialed (runPortsCheck w r sch daemon s).2 = dialed s ++ jobs
    ∧ ((runPortsCheck w r sch daemon s).1 = None
       ↔ Forall (λ job, DialTimeout w "tcp" (destOf job) (TCPPortCheckTimeoutSec * Second)
                        = None) jobs)
    ∧ (∀ err, (runPortsCheck w r sch daemon s).1 = Some err →
              err = "failed to connect to "
                    +:+ Join (destOf <$> filter (λ job, refuses w job) jobs) ", ").
Proof.
  destruct (CheckTCPPorts daemon) as [m|] eqn:Hm.
  - destruct (runPortsCheck_run w r sch daemon s m Hm) as [Hd Hr].
    eexists. split; [exact Hd|]. rewrite Hr.
    set (jobs := schedule sch _ (knockHosts w (rangeEntries r m)).1).
    destruct (Z.eqb_spec (Z.of_nat (length (filter (λ job, refuses w job) jobs))) 0)
      as [Hz|Hz].
    + split; [|done]. split; [intros _|done].
      assert (Hnil : filter (λ job, refuses w job) jobs = []).
      { destruct (filter _ jobs); [done|]. simpl in Hz. lia. }
      apply Forall_forall. intros job Hin.
      destruct (DialTimeout w "tcp" (destOf job) (TCPPortCheckTimeoutSec * Second)) eqn:Hdial;
        [|done].
      assert (job ∈ filter (λ job, refuses w job) jobs) as Hf.
      { apply list_elem_of_filter. split; [|done]. unfold refuses. by rewrite Hdial. }
      rewrite Hnil in Hf. by apply elem_of_nil in Hf.
    + split; [|by intros err [= <-]]. split; [done|]. intros Hall. exfalso. apply Hz.
      assert (Hnil : filter (λ job, refuses w job) jobs = []); [|by rewrite Hnil].
      apply filter_none. eapply Forall_impl; [exact Hall|]. simpl.
      intros job Hj. unfold refuses. by rewrite Hj.
  - exists []. unfold runPortsCheck. rewrite Hm. simpl. rewrite app_nil_r.
    split; [done|]. split; [|done]. split; [by constructor|done].
Qed.

(** ** The mail that [Execute] sends *)

Lemma keepsMail_ret {A} (a : A) : keepsMail (ret a).
Proof. by intros s. Qed.

Lemma keepsMail_bind {A B} (m : M A) (k : A → M B) :
  keepsMail m → (∀ a, keepsMail (k a)) → keepsMail (bind m k).
Proof. intros Hm Hk s. rewrite bind_run, Hk. apply Hm. Qed.

Lemma keepsMail_logLine lvl fn action err msg : keepsMail (logLine lvl fn action err msg).
Proof. by intros s. Qed.

Lemma keepsMail_invokeProgram w env t prog args : keepsMail (invokeProgram w env t prog args).
Proof. by intros s. Qed.

Lemma keepsMail_timeNow w : keepsMail (timeNow w).
Proof. by intros s. Qed.

Lemma keepsMail_getStartupTime : keepsMail getStartupTime.
Proof. by intros s. Qed.

Lemma keepsMail_setStartupTime t : keepsMail (setStartupTime t).
Proof. by intros s. Qed.

Lemma keepsMail_recordDials ds : keepsMail (recordDials ds).
Proof. by intros s. Qed.

Ltac keeps_mail :=
  repeat first
    [ apply keepsMail_ret
    | apply keepsMail_logLine
    | apply keepsMail_invokeProgram
    | apply keepsMail_timeNow
    | apply keepsMail_getStartupTime
    | apply keepsMail_setStartupTime
    | apply keepsMail_recordDials
    | apply keepsMail_bind
    | intros [? ?]
    | intro ].

Lemma keepsMail_installPackages w env path args names : ∀ out,
  keepsMail (installPackages w env path args names out).
Proof.
  induction names as [|name names IH]; intros out; simpl; [apply keepsMail_ret|].
  apply keepsMail_bind; [unfold installPackage; keeps_mail|]. intros written. apply IH.
Qed.

Lemma keepsMail_logAll fn msgs : keepsMail (logAll fn msgs).
Proof.
  induction msgs as [|msg msgs IH]; simpl; [apply keepsMail_ret|].
  apply keepsMail_bind; [apply keepsMail_logLine|]. by intros _.
Qed.

Lemma keepsMail_SystemMaintenance w daemon : keepsMail (SystemMaintenance w daemon).
Proof.
  unfold SystemMaintenance.
  destruct (findPkgManager w binPrefixes EmptyString EmptyString) as [path name].
  apply keepsMail_bind; [apply keepsMail_logLine|]. intros _.
  apply keepsMail_bind.
  { unfold updateAptManifests. destruct (String.eqb name "apt-get"); keeps_mail. }
  intros [env written]. destruct (pkgManagerArgs name) as [[upgradeArgs installArgs] written'].
  apply keepsMail_bind.
  { unfold upgradeAndInstall. destruct (negb (isEmpty name)); [|apply keepsMail_ret].
    apply keepsMail_bind; [apply keepsMail_logLine|]. intros _.
    apply keepsMail_bind; [apply keepsMail_invokeProgram|]. intros [result err].
    apply keepsMail_bind; [apply keepsMail_logLine|]. intros _.
    apply keepsMail_installPackages. }
  intros written1. apply keepsMail_bind; [unfold synchroniseClock; keeps_mail|].
  intros written2. apply keepsMail_bind.
  { unfold correctStartupTime. apply keepsMail_bind; [apply keepsMail_getStartupTime|].
    intros t. apply keepsMail_bind; [apply keepsMail_timeNow|]. intros now.
    destruct (After t now); keeps_mail. }
  intros written3. keeps_mail.
Qed.

Lemma keepsMail_runPortsCheck w r sch daemon : keepsMail (runPortsCheck w r sch daemon).
Proof.
  unfold runPortsCheck. destruct (CheckTCPPorts daemon) as [m|]; [|apply keepsMail_ret].
  destruct (knockHosts w (rangeEntries r m)) as [jobs skipped].
  apply keepsMail_bind; [apply keepsMail_logAll|]. intros _.
  apply keepsMail_bind; [apply keepsMail_recordDials|]. intros _.
  destruct (_ =? _); apply keepsMail_ret.
Qed.

Lemma Execute_mail w r sch daemon s :
  (Execute w r sch daemon s).1.1 = LintMailBody w (reportBody w r sch daemon s)
  ∧ mailed (Execute w r sch daemon s).2
    = mailed s ++ [ {| mailSubject := OutgoingMailSubjectKeyword w +:+ "-maintenance";
                       mailBody := reportBody w r sch daemon s;
                       mailTo := Recipients daemon |} ].
Proof.
  unfold Execute, reportBody. rewrite !bind_run. cbv zeta.
  set (s1 := (logLine Info "Execute" EmptyString None "running now" s).2).
  set (s2 := (SystemMaintenance w daemon s1).2).
  rewrite !(runPortsCheck_result_any_state w r sch daemon s2 s).
  set (s3 := (runPortsCheck w r sch daemon s2).2).
  set (allOK := isNil _ && _ && _ && _).
  set (body := composeReport _ _ _ _ _ _ _).
  split; [done|].
  assert (H3 : mailed s3 = mailed s).
  { subst s3. rewrite keepsMail_runPortsCheck. subst s2.
    rewrite keepsMail_SystemMaintenance. done. }
  clearbody allOK body s3. clear s1 s2.
  destruct allOK; unfold sendMail, logLine; cbn [fst snd mailed];
    destruct (Send w _ body (Recipients daemon)); cbn [snd mailed ret]; by rewrite H3.
Qed.

Lemma SystemMaintenance_withSend w send daemon s :
  SystemMaintenance (withSend w send) daemon s = SystemMaintenance w daemon s.
Proof. reflexivity. Qed.

Lemma knockHost_withSend w send host ports :
  knockHost (withSend w send) host ports = knockHost w host ports.
Proof. induction ports as [|port ports IH]; [done|]. cbn [knockHost]. by rewrite IH. Qed.

Lemma knockHosts_withSend w send entries :
  knockHosts (withSend w send) entries = knockHosts w entries.
Proof.
  induction entries as [|[host ports] entries IH]; [done|]. cbn [knockHosts].
  rewrite IH. destruct ports as [ports|]; [|done]. by rewrite knockHost_withSend.
Qed.

Lemma knock_withSend w send jobs : ∀ portErrs,
  fold_left (knock (withSend w send)) jobs portErrs = fold_left (knock w) jobs portErrs.
Proof.
  induction jobs as [|job jobs IH]; intros portErrs; [done|]. cbn [fold_left].
  rewrite IH. done.
Qed.

Lemma runPortsCheck_withSend w send r sch daemon s :
  runPortsCheck (withSend w send) r sch daemon s = runPortsCheck w r sch daemon s.
Proof.
  unfold runPortsCheck. destruct (CheckTCPPorts daemon) as [m|]; [|done].
  rewrite knockHosts_withSend. destruct (knockHosts w (rangeEntries r m)) as [jobs skipped].
  by rewrite knock_withSend.
Qed.

Lemma reportBody_withSend w send r sch daemon s :
  reportBody (withSend w send) r sch daemon s = reportBody w r sch daemon s.
Proof.
  unfold reportBody. rewrite runPortsCheck_withSend, SystemMaintenance_withSend. done.
Qed.

Lemma Execute_allOK w r sch daemon s :
  (Execute w r sch daemon s).1.2
  = isNil (runPortsCheck w r sch daemon s).1
    && isNil (selfTestOf (FeaturesToTest daemon))
    && isNil (selfTestOf (MailCmdRunnerToTest daemon))
    && isNil (selfTestOf (HTTPHandlersToCheck daemon)).
Proof. destruct (Execute_result w r sch daemon s) as [maintResult ->]. done. Qed.

(** X12. [Execute] sends one mail: to the recipients of the daemon, with the
    subject [<keyword>-maintenance]; the text that it returns is the linted
    body of this mail; and what it returns does not depend on the answer of the
    mail client: a mail that cannot be sent does not turn the result into a
    failure. *)
Theorem Execute_mails_the_report w r sch daemon s :
  ∃ body,
    mailed (Execute w r sch daemon s).2
    = mailed s ++ [ {| mailSubject := OutgoingMailSubjectKeyword w +:+ "-maintenance";
                       mailBody := body; mailTo := Recipients daemon |} ]
    ∧ (Execute w r sch daemon s).1.1 = LintMailBody w body
    ∧ ∀ send, (Execute (withSend w send) r sch daemon s).1 = (Execute w r sch daemon s).1.
Proof.
  destruct (Execute_mail w r sch daemon s) as [H1 H2].
  exists (reportBody w r sch daemon s). split; [exact H2|]. split; [exact H1|].
  intros send. destruct (Execute_mail (withSend w send) r sch daemon s) as [H1' _].
  pose proof (Execute_allOK (withSend w send) r sch daemon s) as Ha'.
  pose proof (Execute_allOK w r sch daemon s) as Ha.
  rewrite runPortsCheck_withSend in Ha'. rewrite reportBody_withSend in H1'.
  destruct (Execute (withSend w send) r sch daemon s) as [[rep ok] s'].
  destruct (Execute w r sch daemon s) as [[rep0 ok0] s0]. simpl in *. congruence.
Qed.

Lemma reportBody_headline w r sch daemon s :
  HasPrefix (reportBody w r sch daemon s) (headline (Execute w r sch daemon s).1.2) = true.
Proof.
  rewrite Execute_allOK. unfold reportBody, composeReport, headline. cbv zeta.
  apply HasPrefix_append_l. destruct (_ && _ && _ && _); apply HasPrefix_refl.
Qed.

Lemma selfTestOf_bind t : selfTestOf t = t ≫= SelfTest.
Proof. by destruct t. Qed.

(** X13. The mail that [Execute] sends starts with [All OK] when the
    returned flag is true and with [There are errors!!!] otherwise, and it
    holds the result of each of the four checks: for the port check and for
    the self test of each tester that the daemon holds (features, mail
    processor, HTTP handlers), the OK line when the check returned nil and the
    error line with the error otherwise; a tester that the daemon does not
    hold gets the OK line. *)
Theorem report_names_each_check w r sch daemon s :
  ∃ body,
    mailBody <$> last (mailed (Execute w r sch daemon s).2) = Some body
    ∧ HasPrefix body (headline (Execute w r sch daemon s).1.2) = true
    ∧ Contains body
        match (runPortsCheck w r sch daemon s).1 with
        | None => LF +:+ "Ports: OK" +:+ LF
        | Some err => LF +:+ "Port errors: " +:+ err +:+ LF
        end = true
    ∧ Contains body
        match FeaturesToTest daemon ≫= SelfTest with
        | None => LF +:+ "Features: OK" +:+ LF
        | Some err => LF +:+ "Feature errors: " +:+ err +:+ LF
        end = true
    ∧ Contains body
        match MailCmdRunnerToTest daemon ≫= SelfTest with
        | None => LF +:+ "Mail processor: OK" +:+ LF
        | Some err => LF +:+ "Mail processor errors: " +:+ err +:+ LF
        end = true
    ∧ Contains body
        match HTTPHandlersToCheck daemon ≫= SelfTest with
        | None => LF +:+ "HTTP handlers: OK" +:+ LF
        | Some err => LF +:+ "HTTP handler errors: " +:+ err +:+ LF
        end = true.
Proof.
  destruct (Execute_mail w r sch daemon s) as [_ H2].
  exists (reportBody w r sch daemon s). rewrite H2, last_snoc.
  split; [done|]. split; [apply reportBody_headline|].
  unfold reportBody, composeReport. cbv zeta. rewrite !selfTestOf_bind.
  unfold checkLines.
  split; [|split; [|split]].
  - do 6 apply Contains_append_r. apply Contains_append_l, Contains_refl.
  - do 7 apply Contains_append_r. apply Contains_append_l, Contains_refl.
  - do 8 apply Contains_append_r. apply Contains_append_l, Contains_refl.
  - do 9 apply Contains_append_r. apply Contains_append_l, Contains_refl.
Qed.

(** ** The search for the package manager *)

Lemma firstExisting_app w l1 l2 :
  firstExisting w (l1 ++ l2)
  = match firstExisting w l1 with
    | Some found => Some found
    | None => firstExisting w l2
    end.
Proof.
  induction l1 as [|[p e] l1 IH]; [done|]. simpl.
  by destruct (Stat w (pathJoin p e)).
Qed.

Lemma findExec_spec w binPrefix execNames : ∀ path name,
  findExec w binPrefix execNames path name
  = match firstExisting w ((λ execName, (binPrefix, execName)) <$> execNames) with
    | Some (p, e) => (pathJoin p e, e)
    | None => (default path (pathJoin binPrefix <$> last execNames), name)
    end.
Proof.
  induction execNames as [|e execNames IH]; intros path name; [done|].
  cbn [findExec fmap list_fmap firstExisting].
  destruct (Stat w (pathJoin binPrefix e)); [|done]. rewrite IH.
  change (list_fmap string (string * string)%type (λ execName, (binPrefix, execName)) execNames)
    with ((λ execName, (binPrefix, execName)) <$> execNames).
  destruct (firstExisting w _) as [[p' e']|]; [done|].
  clear IH. destruct execNames as [|e2 execNames]; [reflexivity|].
  rewrite last_cons_cons. destruct (last (e2 :: execNames)) eqn:Hl; [done|].
  by apply last_None in Hl.
Qed.

Lemma firstExisting_elem w cands p e :
  firstExisting w cands = Some (p, e) → (p, e) ∈ cands ∧ Stat w (pathJoin p e) = None.
Proof.
  induction cands as [|[p' e'] cands IH]; [done|]. simpl.
  destruct (Stat w (pathJoin p' e')) eqn:Hs.
  - intros H. apply IH in H as [? ?]. split; [by right|done].
  - intros [= -> ->]. split; [by left|done].
Qed.

Lemma findPkgManager_spec w prefixes : ∀ path,
  findPkgManager w prefixes path EmptyString
  = match firstExisting w
            (prefixes ≫= λ binPrefix,
               (λ execName, (binPrefix, execName)) <$> ["yum"; "zypper"; "apt-get"]) with
    | Some (p, e) => (pathJoin p e, e)
    | None => (default path ((λ p, pathJoin p "apt-get") <$> last prefixes), EmptyString)
    end.
Proof.
  induction prefixes as [|binPrefix prefixes IH]; intros path; [done|].
  cbn [findPkgManager mbind list_bind]. rewrite findExec_spec, firstExisting_app.
  destruct (firstExisting w ((λ execName, (binPrefix, execName)) <$> _)) as [[p e]|] eqn:Hf.
  - apply firstExisting_elem in Hf as [Hin _].
    assert (He : isEmpty e = false).
    { apply list_elem_of_fmap in Hin as (e' & [= -> ->] & Hin).
      repeat (apply elem_of_cons in Hin as [->|Hin]; [done|]). by apply elem_of_nil in Hin. }
    by rewrite He.
  - cbn [isEmpty negb]. rewrite IH. clear IH Hf.
    destruct (firstExisting w (prefixes ≫= _)) as [[p e]|]; [reflexivity|].
    destruct prefixes as [|p2 prefixes]; [reflexivity|].
    rewrite (last_cons_cons binPrefix).
    destruct (last (p2 :: prefixes)) eqn:Hl; [reflexivity|].
    by apply last_None in Hl.
Qed.

Lemma findPkgManager_candidates w :
  findPkgManager w binPrefixes EmptyString EmptyString
  = match firstExisting w candidates with
    | Some (binPrefix, execName) => (pathJoin binPrefix execName, execName)
    | None => ("/usr/bin/local/apt-get", EmptyString)
    end.
Proof. rewrite findPkgManager_spec. by destruct (firstExisting w _) as [[p e]|]. Qed.

Lemma firstExisting_first w cands :
  match firstExisting w cands with
  | Some (binPrefix, execName) =>
      ∃ i, cands !! i = Some (binPrefix, execName)
           ∧ Stat w (pathJoin binPrefix execName) = None
           ∧ ∀ j p e, (j < i)%nat → cands !! j = Some (p, e) →
                      Stat w (pathJoin p e) ≠ None
  | None => ∀ p e, (p, e) ∈ cands → Stat w (pathJoin p e) ≠ None
  end.
Proof.
  induction cands as [|[p0 e0] cands IH]; cbn [firstExisting].
  - intros p e Hin. by apply elem_of_nil in Hin.
  - destruct (Stat w (pathJoin p0 e0)) as [err|] eqn:Hs.
    + destruct (firstExisting w cands) as [[p1 e1]|].
      * destruct IH as (i & Hi & Hf & Hbefore). exists (S i). split; [exact Hi|].
        split; [exact Hf|]. intros [|j] p e Hj Hl.
        -- injection Hl as <- <-. by rewrite Hs.
        -- apply (Hbefore j); [lia|exact Hl].
      * intros p e [[= -> ->]|Hin]%elem_of_cons; [by rewrite Hs|by apply IH].
    + exists 0%nat. split; [done|]. split; [exact Hs|]. intros j p e Hj. lia.
Qed.

(** X14. The search for the package manager takes the first candidate that
    exists, directory by directory and in each directory yum before zypper
    before apt-get; so a package manager in an earlier directory is taken
    rather than a preferred one in a later directory.  When no candidate
    exists the name is empty, and the path is the one tried last,
    /usr/bin/local/apt-get. *)
Theorem findPkgManager_first_existing w :
  (∃ i binPrefix execName,
      candidates !! i = Some (binPrefix, execName)
      ∧ Stat w (pathJoin binPrefix execName) = None
      ∧ (∀ j p e, (j < i)%nat → candidates !! j = Some (p, e) →
                  Stat w (pathJoin p e) ≠ None)
      ∧ findPkgManager w binPrefixes EmptyString EmptyString
        = (pathJoin binPrefix execName, execName))
  ∨ ((∀ p e, (p, e) ∈ candidates → Stat w (pathJoin p e) ≠ None)
     ∧ findPkgManager w binPrefixes EmptyString EmptyString
       = ("/usr/bin/local/apt-get", EmptyString)).
Proof.
  rewrite findPkgManager_candidates. pose proof (firstExisting_first w candidates) as H.
  destruct (firstExisting w candidates) as [[binPrefix execName]|].
  - left. destruct H as (i & Hi & Hs & Hbefore). by exists i, binPrefix, execName.
  - by right.
Qed.

(** ** The programs that the maintenance runs *)

Lemma installPackage_invoked w env path args name s :
  invoked (installPackage w env path args name s).2
  = invoked s ++ [installInvocation env path args name].
Proof.
  unfold installPackage. rewrite !bind_run. cbn [fst snd logLine invokeProgram invoked].
  destruct (InvokeProgram w _ env (5 * 60) path (args ++ [name])) as [result err].
  cbv beta iota. rewrite bind_run. done.
Qed.

Lemma installPackages_invoked w env path args names : ∀ out s,
  invoked (installPackages w env path args names out s).2
  = invoked s ++ (installInvocation env path args <$> names).
Proof.
  induction names as [|name names IH]; intros out s.
  - simpl. by rewrite app_nil_r.
  - cbn [installPackages]. rewrite bind_run, IH, installPackage_invoked.
    rewrite fmap_cons, <- app_assoc. done.
Qed.

Lemma updateAptManifests_invoked w name path s :
  invoked (updateAptManifests w name path s).2
  = invoked s ++ (if String.eqb name "apt-get"
                  then [ {| invEnv := ["DEBIAN_FRONTEND=noninteractive"];
                            invTimeoutSec := 5 * 60; invProgram := path;
                            invArgs := ["update"] |} ]
                  else []).
Proof.
  unfold updateAptManifests. destruct (String.eqb name "apt-get").
  - rewrite !bind_run. cbn [fst snd logLine invokeProgram invoked].
    destruct (InvokeProgram w _ _ (5 * 60) path ["update"]) as [result err]. done.
  - simpl. by rewrite app_nil_r.
Qed.

Lemma upgradeAndInstall_invoked w env name path upgradeArgs installArgs s :
  invoked (upgradeAndInstall w env name path upgradeArgs installArgs s).2
  = invoked s ++ (if isEmpty name then []
                  else {| invEnv := env; invTimeoutSec := 2 * 3600; invProgram := path;
                          invArgs := upgradeArgs |}
                       :: (installInvocation env path installArgs <$> pkgs)).
Proof.
  unfold upgradeAndInstall. destruct (isEmpty name); cbn [negb].
  - simpl. by rewrite app_nil_r.
  - rewrite !bind_run. cbn [fst snd logLine invokeProgram invoked].
    destruct (InvokeProgram w _ env (2 * 3600) path upgradeArgs) as [result err].
    cbv beta iota. rewrite bind_run, installPackages_invoked.
    cbn [fst snd logLine invoked]. by rewrite <- app_assoc.
Qed.

Lemma synchroniseClock_invoked w s :
  invoked (synchroniseClock w s).2 = invoked s ++ clockInvocations w.
Proof.
  unfold synchroniseClock, clockEnv. rewrite bind_run. cbn [fst snd invokeProgram invoked].
  destruct (InvokeProgram w _ _ 60 "ntpdate" _) as [r1 e1]. cbv beta iota.
  rewrite bind_run. cbn [fst snd invokeProgram invoked].
  destruct (InvokeProgram w _ _ 60 "chronyd" _) as [r2 e2]. cbv beta iota.
  rewrite bind_run. cbn [fst snd invokeProgram invoked].
  destruct (InvokeProgram w _ _ 60 "busybox" _) as [r3 e3]. cbv beta iota.
  cbn [ret snd invoked]. unfold clockInvocations. by rewrite <- !app_assoc.
Qed.

Lemma correctStartupTime_invoked w s :
  invoked (correctStartupTime w s).2 = invoked s.
Proof.
  unfold correctStartupTime, getStartupTime, timeNow, setStartupTime, bind, ret. simpl.
  by destruct (After _ _).
Qed.

Lemma SystemMaintenance_invoked w daemon s :
  invoked (SystemMaintenance w daemon s).2
  = invoked s
    ++ (let '(path, name) := findPkgManager w binPrefixes EmptyString EmptyString in
        if isEmpty name then [] else packageInvocations path name)
    ++ clockInvocations w.
Proof.
  unfold SystemMaintenance.
  destruct (findPkgManager w binPrefixes EmptyString EmptyString) as [path name].
  rewrite bind_run.
  set (s1 := (logLine Info "SystemMaintenance" EmptyString None _ s).2).
  rewrite bind_run.
  pose proof (updateAptManifests_invoked w name path s1) as Hu.
  pose proof (updateAptManifests_run w name path s1) as [Henv _].
  destruct (updateAptManifests w name path s1) as [[env written] s2].
  cbn [fst snd] in Hu, Henv |- *.
  destruct (pkgManagerArgs name) as [[upgradeArgs installArgs] written'] eqn:Hargs.
  rewrite bind_run.
  pose proof (upgradeAndInstall_invoked w env name path upgradeArgs installArgs s2) as Hi.
  destruct (upgradeAndInstall w env name path upgradeArgs installArgs s2) as [written1 s3].
  cbn [fst snd] in Hi |- *.
  rewrite bind_run.
  pose proof (synchroniseClock_invoked w s3) as Hc.
  destruct (synchroniseClock w s3) as [written2 s4]. cbn [fst snd] in Hc |- *.
  rewrite bind_run.
  pose proof (correctStartupTime_invoked w s4) as Hk.
  destruct (correctStartupTime w s4) as [written3 s5]. cbn [fst snd] in Hk |- *.
  rewrite bind_run. cbn [logLine snd invoked ret].
  rewrite Hk, Hc, Hi, Hu. subst s1 env. cbn [logLine snd invoked].
  rewrite <- !app_assoc. f_equal. rewrite app_assoc. f_equal.
  unfold packageInvocations. rewrite Hargs. cbn [fst snd].
  destruct (isEmpty name) eqn:He; [|by destruct (String.eqb name _)].
  destruct name; [|done]. by rewrite app_nil_r.
Qed.

Lemma candidates_named p e : (p, e) ∈ candidates → isEmpty e = false.
Proof.
  unfold candidates. intros H. apply list_elem_of_bind in H as (p' & H & _).
  apply list_elem_of_fmap in H as (e' & [= -> ->] & Hin).
  repeat (apply elem_of_cons in Hin as [->|Hin]; [done|]). by apply elem_of_nil in Hin.
Qed.

(** X15. [SystemMaintenance] runs the package manager that it finds first, and
    nothing else but the three clock tools: with no package manager on the
    system it invokes ntpdate, chronyd and busybox only; with one, it first
    updates the manifests (apt-get only), upgrades the system with a timeout of
    two hours, and then installs every package of the list on an invocation of
    its own, in the order of the list, with a timeout of five minutes. *)
Theorem SystemMaintenance_invocations w daemon s :
  invoked (SystemMaintenance w daemon s).2
  = invoked s
    ++ match firstExisting w candidates with
       | Some (binPrefix, execName) =>
           packageInvocations (pathJoin binPrefix execName) execName
       | None => []
       end
    ++ clockInvocations w.
Proof.
  rewrite SystemMaintenance_invoked, findPkgManager_candidates.
  destruct (firstExisting w candidates) as [[p e]|] eqn:Hf; [|done].
  apply firstExisting_elem in Hf as [Hin _]. by rewrite (candidates_named _ _ Hin).
Qed.

Lemma suppressOutput_existsb markers replacement result :
  suppressOutput markers replacement result
  = if existsb (Contains result) markers then replacement else result.
Proof.
  induction markers as [|m markers IH]; [done|]. simpl.
  by destruct (Contains result m).
Qed.

Lemma upgradeAndInstall_upgrade w env name path upgradeArgs installArgs s :
  name ≠ EmptyString →
  HasPrefix (upgradeAndInstall w env name path upgradeArgs installArgs s).1
    (let answer := InvokeProgram w (length (invoked s)) env (2 * 3600) path upgradeArgs in
     "--- Upgrading system packages..." +:+ LF
     +:+ "--- System upgrade result: " +:+ fmtErr answer.2 +:+ " - "
     +:+ shownOutput "skipped" answer.1 +:+ LF +:+ LF) = true.
Proof.
  intros Hname. unfold upgradeAndInstall.
  destruct name as [|c name]; [done|].
  change (negb (isEmpty (String c name))) with true. cbv iota.
  rewrite !bind_run. cbn [fst snd logLine invokeProgram invoked].
  destruct (InvokeProgram w (length (invoked s)) env (2 * 3600) path upgradeArgs)
    as [result err] eqn:HI. cbv beta iota zeta.
  rewrite ?bind_run. cbn [fst snd].
  rewrite installPackages_out. apply HasPrefix_append_l.
  unfold shownOutput. rewrite suppressOutput_existsb. apply HasPrefix_refl.
Qed.

Lemma HasPrefix_Contains s x : HasPrefix s x = true → Contains s x = true.
Proof.
  destruct s as [|c s]; simpl; [destruct x; done|].
  intros H. by rewrite H.
Qed.

(** X16. When a package manager is found, the report of [SystemMaintenance]
    shows the result of the system upgrade: the error of the invocation and its
    output with the space around it trimmed, or the word [skipped] in place of
    an output that contains one of the suppression markers. *)
Theorem system_upgrade_is_reported w daemon s pkgManagerPath pkgManagerName :
  findPkgManager w binPrefixes EmptyString EmptyString = (pkgManagerPath, pkgManagerName) →
  pkgManagerName ≠ EmptyString →
  let apt := String.eqb pkgManagerName "apt-get" in
  let answer :=
    InvokeProgram w (length (invoked s) + (if apt then 1 else 0))
      (if apt then ["DEBIAN_FRONTEND=noninteractive"] else []) (2 * 3600) pkgManagerPath
      (pkgManagerArgs pkgManagerName).1.1 in
  Contains (SystemMaintenance w daemon s).1
    ("--- Upgrading system packages..." +:+ LF
     +:+ "--- System upgrade result: " +:+ fmtErr answer.2 +:+ " - "
     +:+ TrimSpace (if existsb (Contains answer.1) suppressOutputMarkers
                    then "skipped" else answer.1)
     +:+ LF +:+ LF) = true.
Proof.
  intros Hfind Hname apt answer. unfold SystemMaintenance. rewrite Hfind.
  rewrite bind_run.
  set (s1 := (logLine Info "SystemMaintenance" EmptyString None
                ("package manager is " +:+ QUOTE +:+ pkgManagerPath +:+ QUOTE) s).2).
  rewrite bind_run.
  destruct (updateAptManifests_run w pkgManagerName pkgManagerPath s1) as [Henv Hlen].
  destruct (updateAptManifests w pkgManagerName pkgManagerPath s1) as [[env written] s2].
  cbn [fst snd] in Henv, Hlen |- *.
  destruct (pkgManagerArgs pkgManagerName) as [[upgradeArgs installArgs] written'] eqn:Hargs.
  rewrite !bind_run. unfold ret. cbn [fst].
  do 3 apply Contains_append_l. apply Contains_append_r.
  pose proof (upgradeAndInstall_upgrade w env pkgManagerName pkgManagerPath upgradeArgs
                installArgs s2 Hname) as H.
  subst answer apt s1. cbn [fst snd logLine invoked] in Hlen |- *.
  rewrite Hlen in H. subst env. unfold shownOutput in H. cbv zeta in H.
  apply HasPrefix_Contains. exact H.
Qed.

(** At a concrete run: yum finds nothing to upgrade. *)
Lemma system_upgrade_is_reported_witness :
  Contains (SystemMaintenance Scenarios.yumWorld Scenarios.hourlyDaemon
              Scenarios.freshState).1
    ("--- Upgrading system packages..." +:+ LF
     +:+ "--- System upgrade result: <nil> - skipped" +:+ LF +:+ LF) = true.
Proof.
  apply (system_upgrade_is_reported Scenarios.yumWorld Scenarios.hourlyDaemon
           Scenarios.freshState "/usr/bin/yum" "yum").
  - reflexivity.
  - discriminate.
Defined.

(** ** Stopping and initialising the daemon *)

Lemma timerFires_daemon r sch it l :
  loopDaemon (timerFires r sch it l) = loopDaemon l
  ∧ length (runs (timerFires r sch it l)) = S (length (runs l)).
Proof.
  unfold timerFires. destruct (Execute (world it) r sch (loopDaemon l) (loopState l)).
  cbn [loopDaemon runs]. split; [done|]. rewrite length_app. cbn [length]. lia.
Qed.

Lemma loopFrom_running r sch its : ∀ l,
  forallb continuing its = true →
  ∃ l', loopFrom r sch its l = inl l'
        ∧ length (runs l') = (length (runs l) + length its)%nat
        ∧ loopDaemon l' = match its with
                          | [] => loopDaemon l
                          | _ :: _ => setLoopIsRunning (loopDaemon l) 1
                          end.
Proof.
  induction its as [|it its IH]; intros l H; cbn [loopFrom].
  - exists l. split; [done|]. split; [cbn [length]; lia|done].
  - cbn [forallb] in H. apply andb_prop in H as [H1 H2].
    rewrite (iterate_continuing _ _ _ _ H1).
    destruct (IH (timerFires r sch it (withDaemon l (setLoopIsRunning (loopDaemon l) 1))) H2)
      as (l' & Hl' & Hlen & Hd).
    destruct (timerFires_daemon r sch it (withDaemon l (setLoopIsRunning (loopDaemon l) 1)))
      as [Hd1 Hlen1].
    exists l'. split; [exact Hl'|]. split.
    + rewrite Hlen, Hlen1. cbn [withDaemon runs length]. lia.
    + rewrite Hd, Hd1. by destruct its.
Qed.

Lemma iterate_stop r sch it l :
  EmergencyLockDown it = false → stopReceived it = true →
  iterate r sch it l = inr (withDaemon l (setLoopIsRunning (loopDaemon l) 0), None).
Proof.
  intros H1 H2. unfold iterate. rewrite H1. cbv zeta. rewrite H2.
  by destruct (firstTime _).
Qed.

(** X17. When the stop channel delivers before the timer fires, after any
    number of iterations in which the timer fired, [StartAndBlock] returns nil:
    it has run [Execute] once in each of the iterations before and not again,
    it clears the running flag, and it leaves the rest of the daemon as it
    was. *)
Theorem stop_ends_the_loop r sch daemon st now before it rest :
  forallb continuing before = true →
  EmergencyLockDown it = false →
  stopReceived it = true →
  ∃ l', StartAndBlock r sch daemon st now (before ++ it :: rest) = inr (l', None)
        ∧ length (runs l') = length before
        ∧ loopDaemon l' = setLoopIsRunning daemon 0.
Proof.
  intros Hb H1 H2. unfold StartAndBlock. rewrite loopFrom_app.
  destruct (loopFrom_running r sch before
              {| firstTime := true; nextRunAt := now + 10 * Minute; clock := now;
                 loopDaemon := daemon; loopState := st; runs := [] |} Hb)
    as (l1 & -> & Hlen & Hd).
  cbn [loopFrom]. rewrite (iterate_stop _ _ _ _ H1 H2).
  eexists. split; [reflexivity|]. cbn [withDaemon runs loopDaemon] in *.
  split; [exact Hlen|]. rewrite Hd. by destruct before.
Qed.

(** At a concrete run: the timer fires twice, then the stop is received. *)
Lemma stop_ends_the_loop_witness :
  ∃ l', StartAndBlock plainRange fifoScheduler Scenarios.hourlyDaemon Scenarios.freshState 0
          ([Scenarios.fires 5; Scenarios.fires 5] ++ Scenarios.stopped :: [Scenarios.fires 5])
        = inr (l', None)
        ∧ length (runs l') = 2%nat
        ∧ loopDaemon l' = setLoopIsRunning Scenarios.hourlyDaemon 0.
Proof.
  apply (stop_ends_the_loop plainRange fifoScheduler Scenarios.hourlyDaemon
           Scenarios.freshState 0 [Scenarios.fires 5; Scenarios.fires 5] Scenarios.stopped
           [Scenarios.fires 5]).
  - reflexivity.
  - reflexivity.
  - reflexivity.
Defined.



(** X19. A successful [Initialise] leaves an interval of at least
    MinimumIntervalSec, makes the stop channel, names the logger after the
    interval that it leaves (86400 for an interval below 1), and changes
    nothing else; initialising again succeeds as well, and leaves the same
    interval and the same logger.  A failed [Initialise] leaves the daemon as
    it was: no stop channel is made. *)
Theorem Initialise_prepares_the_daemon daemon :
  match (Initialise daemon).2 with
  | None =>
      let daemon' := (Initialise daemon).1 in
      MinimumIntervalSec ≤ IntervalSec daemon'
      ∧ stop daemon' = true
      ∧ logger daemon' = {| ComponentName := "maintenance";
                            ComponentID := Itoa (IntervalSec daemon') |}
      ∧ makeStopAndLogger (setIntervalSec daemon (IntervalSec daemon')) = daemon'
      ∧ (Initialise daemon').2 = None
      ∧ IntervalSec (Initialise daemon').1 = IntervalSec daemon'
      ∧ logger (Initialise daemon').1 = logger daemon'
  | Some _ => (Initialise daemon).1 = daemon
  end.
Proof.
  unfold Initialise, MinimumIntervalSec.
  destruct (Z.ltb_spec (IntervalSec daemon) 1) as [H1|H1]; cbn [fst snd].
  - cbn [IntervalSec setIntervalSec makeStopAndLogger stop logger].
    change (24 * 3600 <? 1) with false. change (24 * 3600 <? 3600) with false.
    cbv iota. split; [lia|]. done.
  - destruct (Z.ltb_spec (IntervalSec daemon) 3600) as [H2|H2]; cbn [fst snd]; [done|].
    cbn [IntervalSec setIntervalSec makeStopAndLogger stop logger].
    destruct (Z.ltb_spec (IntervalSec daemon) 1); [lia|].
    destruct (Z.ltb_spec (IntervalSec daemon) 3600); [lia|].
    split; [lia|]. done.
Qed.

(** ** The ports that the check leaves out *)

Lemma knockHost_skipped w host ports :
  (knockHost w host ports).2
  = (λ job, logMessage (skipLine job))
      <$> filter (λ job, negb (knockable w job)) ((λ port, (host, port)) <$> ports).
Proof.
  induction ports as [|port ports IH]; [done|]. simpl.
  destruct (knockHost w host ports) as [jobs skipped]. simpl in IH.
  rewrite filter_cons.
  destruct (decide (negb (knockable w (host, port)))) as [Hk|Hk]; unfold knockable in Hk;
    simpl in Hk; destruct ((port =? 25) && (IsGCE w || IsAzure w)); simpl in *;
    try done; by rewrite IH.
Qed.

Lemma knockHosts_skipped w entries :
  (knockHosts w entries).2
  = (λ job, logMessage (skipLine job))
      <$> filter (λ job, negb (knockable w job)) (entries ≫= portsOfEntry).
Proof.
  induction entries as [|[host ports] entries IH]; [done|].
  change (((host, ports) :: entries) ≫= portsOfEntry)
    with (portsOfEntry (host, ports) ++ (entries ≫= portsOfEntry)).
  rewrite filter_app, fmap_app, <- IH. cbn [knockHosts].
  destruct (knockHosts w entries) as [jobs skipped]. cbn [snd].
  unfold portsOfEntry. cbn [fst snd]. destruct ports as [ports|]; [|done].
  destruct (isEmpty host); cbn [orb]; [done|].
  destruct (Z.eqb_spec (Z.of_nat (length ports)) 0) as [Hz|Hz].
  - destruct ports; [done|]. simpl in Hz. lia.
  - pose proof (knockHost_skipped w host ports) as Hk.
    destruct (knockHost w host ports) as [jobs1 skipped1]. cbn [snd] in *. by rewrite Hk.
Qed.

Lemma logAll_logged fn msgs : ∀ s,
  logged (logAll fn msgs s).2
  = logged s ++ ((λ msg, {| logLevel := Info; logFun := fn; logAction := EmptyString;
                            logErr := None; logMessage := msg |}) <$> msgs).
Proof.
  induction msgs as [|msg msgs IH]; intros s; cbn [logAll].
  - simpl. by rewrite app_nil_r.
  - rewrite bind_run, IH. cbn [logLine snd logged fmap list_fmap]. by rewrite <- app_assoc.
Qed.

(** X20. [runPortsCheck] logs one line for each port that it leaves out on
    Google compute engine and on Azure (port 25 of a host with a name), in the
    order in which the map is visited, and nothing else; on both clouds the
    line names Google cloud.  With the ports that it dials, these are all the
    ports of the hosts with a name: none is left out silently. *)
Theorem runPortsCheck_logs_skipped_ports w r sch daemon s m :
  CheckTCPPorts daemon = Some m →
  ∃ skipped,
    logged (runPortsCheck w r sch daemon s).2 = logged s ++ (skipLine <$> skipped)
    ∧ skipped ≡ₚ filter (λ job, negb (knockable w job)) (map_to_list m ≫= portsOfEntry)
    ∧ dialed (runPortsCheck w r sch daemon s).2 ++ skipped
      ≡ₚ dialed s ++ (map_to_list m ≫= portsOfEntry).
Proof.
  intros Hm.
  exists (filter (λ job, negb (knockable w job)) (rangeEntries r m ≫= portsOfEntry)).
  destruct (runPortsCheck_run w r sch daemon s m Hm) as [Hd _]. rewrite Hd.
  split; [|rewrite schedule_perm, knockHosts_jobs, !rangeEntries_perm; split; [done|]].
  - unfold runPortsCheck. rewrite Hm.
    pose proof (knockHosts_skipped w (rangeEntries r m)) as Hs.
    destruct (knockHosts w (rangeEntries r m)) as [js skipped]. cbn [snd] in Hs.
    rewrite !bind_run.
    destruct (Z.of_nat (length _) =? 0);
      unfold ret, recordDials; cbn [snd logged]; rewrite logAll_logged, Hs, <- list_fmap_compose;
      done.
  - rewrite <- app_assoc. apply Permutation_app_head.
    set (l := map_to_list m ≫= portsOfEntry). clearbody l.
    induction l as [|job l IH]; [done|]. rewrite !filter_cons.
    destruct (knockable w job); simpl.
    + by rewrite IH.
    + rewrite <- Permutation_middle. by rewrite IH.
Qed.

(** At a concrete run: the daemon of the test on Google compute engine. *)
Lemma runPortsCheck_logs_skipped_ports_witness :
  ∃ skipped,
    logged (runPortsCheck Scenarios.gceWorld plainRange fifoScheduler Scenarios.knockingDaemon
              Scenarios.freshState).2
    = logged Scenarios.freshState ++ (skipLine <$> skipped)
    ∧ skipped ≡ₚ filter (λ job, negb (knockable Scenarios.gceWorld job))
                   (map_to_list (<["mx.example.com" := Some [25]]>
                                   (<["localhost" := Some [11334]]> ∅)) ≫= portsOfEntry)
    ∧ dialed (runPortsCheck Scenarios.gceWorld plainRange fifoScheduler
                Scenarios.knockingDaemon Scenarios.freshState).2 ++ skipped
      ≡ₚ dialed Scenarios.freshState
         ++ (map_to_list (<["mx.example.com" := Some [25]]>
                            (<["localhost" := Some [11334]]> ∅)) ≫= portsOfEntry).
Proof.
  apply (runPortsCheck_logs_skipped_ports Scenarios.gceWorld plainRange fifoScheduler
           Scenarios.knockingDaemon Scenarios.freshState
           (<["mx.example.com" := Some [25]]> (<["localhost" := Some [11334]]> ∅))).
  reflexivity.
Defined.

(** ** The log of [Execute] *)

Lemma extendsLog_ret {A} (a : A) : extendsLog (ret a).
Proof. intros s. exists []. by rewrite app_nil_r. Qed.

Lemma extendsLog_bind {A B} (m : M A) (k : A → M B) :
  extendsLog m → (∀ a, extendsLog (k a)) → extendsLog (bind m k).
Proof.
  intros Hm Hk s. rewrite bind_run.
  destruct (Hk (m s).1 (m s).2) as [lines2 ->]. destruct (Hm s) as [lines1 ->].
  exists (lines1 ++ lines2). by rewrite app_assoc.
Qed.

Lemma extendsLog_logLine lvl fn action err msg : extendsLog (logLine lvl fn action err msg).
Proof. intros s. by eexists. Qed.

Lemma extendsLog_invokeProgram w env t prog args :
  extendsLog (invokeProgram w env t prog args).
Proof. intros s. exists []. by rewrite app_nil_r. Qed.

Lemma extendsLog_timeNow w : extendsLog (timeNow w).
Proof. intros s. exists []. by rewrite app_nil_r. Qed.

Lemma extendsLog_getStartupTime : extendsLog getStartupTime.
Proof. intros s. exists []. by rewrite app_nil_r. Qed.

Lemma extendsLog_setStartupTime t : extendsLog (setStartupTime t).
Proof. intros s. exists []. by rewrite app_nil_r. Qed.

Lemma extendsLog_recordDials ds : extendsLog (recordDials ds).
Proof. intros s. exists []. by rewrite app_nil_r. Qed.

Ltac extends_log :=
  repeat first
    [ apply extendsLog_ret
    | apply extendsLog_logLine
    | apply extendsLog_invokeProgram
    | apply extendsLog_timeNow
    | apply extendsLog_getStartupTime
    | apply extendsLog_setStartupTime
    | apply extendsLog_recordDials
    | apply extendsLog_bind
    | intros [? ?]
    | intro ].

Lemma extendsLog_installPackages w env path args names : ∀ out,
  extendsLog (installPackages w env path args names out).
Proof.
  induction names as [|name names IH]; intros out; simpl; [apply extendsLog_ret|].
  apply extendsLog_bind; [unfold installPackage; extends_log|]. intros written. apply IH.
Qed.

Lemma extendsLog_logAll fn msgs : extendsLog (logAll fn msgs).
Proof.
  induction msgs as [|msg msgs IH]; simpl; [apply extendsLog_ret|].
  apply extendsLog_bind; [apply extendsLog_logLine|]. by intros _.
Qed.

Lemma extendsLog_SystemMaintenance w daemon : extendsLog (SystemMaintenance w daemon).
Proof.
  unfold SystemMaintenance.
  destruct (findPkgManager w binPrefixes EmptyString EmptyString) as [path name].
  apply extendsLog_bind; [apply extendsLog_logLine|]. intros _.
  apply extendsLog_bind.
  { unfold updateAptManifests. destruct (String.eqb name "apt-get"); extends_log. }
  intros [env written]. destruct (pkgManagerArgs name) as [[upgradeArgs installArgs] written'].
  apply extendsLog_bind.
  { unfold upgradeAndInstall. destruct (negb (isEmpty name)); [|apply extendsLog_ret].
    apply extendsLog_bind; [apply extendsLog_logLine|]. intros _.
    apply extendsLog_bind; [apply extendsLog_invokeProgram|]. intros [result err].
    apply extendsLog_bind; [apply extendsLog_logLine|]. intros _.
    apply extendsLog_installPackages. }
  intros written1. apply extendsLog_bind; [unfold synchroniseClock; extends_log|].
  intros written2. apply extendsLog_bind.
  { unfold correctStartupTime. apply extendsLog_bind; [apply extendsLog_getStartupTime|].
    intros t. apply extendsLog_bind; [apply extendsLog_timeNow|]. intros now.
    destruct (After t now); extends_log. }
  intros written3. extends_log.
Qed.

Lemma extendsLog_runPortsCheck w r sch daemon : extendsLog (runPortsCheck w r sch daemon).
Proof.
  unfold runPortsCheck. destruct (CheckTCPPorts daemon) as [m|]; [|apply extendsLog_ret].
  destruct (knockHosts w (rangeEntries r m)) as [jobs skipped].
  apply extendsLog_bind; [apply extendsLog_logAll|]. intros _.
  apply extendsLog_bind; [apply extendsLog_recordDials|]. intros _.
  destruct (_ =? _); apply extendsLog_ret.
Qed.

(** X21. [Execute] logs that it runs before anything else, and its outcome
    after everything else: an information that everything is OK when the flag
    it returns is true and a warning that there are errors otherwise, followed
    by a warning with the error of the mail client when the mail could not be
    sent.  It removes no line from the log. *)
Theorem Execute_logs_the_outcome w r sch daemon s :
  ∃ lines body,
    (Execute w r sch daemon s).1.1 = LintMailBody w body
    ∧ logged (Execute w r sch daemon s).2
      = logged s
        ++ {| logLevel := Info; logFun := "Execute"; logAction := EmptyString;
              logErr := None; logMessage := "running now" |}
        :: lines
        ++ {| logLevel := if (Execute w r sch daemon s).1.2 then Info else Warning;
              logFun := "Execute"; logAction := EmptyString; logErr := None;
              logMessage := if (Execute w r sch daemon s).1.2
                            then "completed with everything being OK"
                            else "completed with some errors" |}
        :: match Send w (OutgoingMailSubjectKeyword w +:+ "-maintenance") body
                   (Recipients daemon) with
           | Some err => [ {| logLevel := Warning; logFun := "Execute";
                              logAction := EmptyString; logErr := Some err;
                              logMessage := "failed to send notification mail" |} ]
           | None => []
           end.
Proof.
  pose proof (Execute_allOK w r sch daemon s) as Hok. rewrite Hok. clear Hok.
  unfold Execute. rewrite !bind_run. cbv zeta.
  set (s1 := (logLine Info "Execute" EmptyString None "running now" s).2).
  destruct (extendsLog_SystemMaintenance w daemon s1) as [lines1 H1].
  set (s2 := (SystemMaintenance w daemon s1).2) in *.
  destruct (extendsLog_runPortsCheck w r sch daemon s2) as [lines2 H2].
  rewrite !(runPortsCheck_result_any_state w r sch daemon s2 s).
  set (s3 := (runPortsCheck w r sch daemon s2).2) in *.
  set (allOK := isNil _ && _ && _ && _).
  set (body := composeReport _ _ _ _ _ _ _).
  exists (lines1 ++ lines2), body. split; [done|].
  assert (H3 : logged s3
               = logged s ++ {| logLevel := Info; logFun := "Execute";
                                logAction := EmptyString; logErr := None;
                                logMessage := "running now" |} :: lines1 ++ lines2).
  { rewrite H2, H1. subst s1. cbn [logLine snd logged].
    rewrite <- !app_assoc. done. }
  clearbody allOK body s3. clear s1 s2 H1 H2.
  destruct allOK; unfold sendMail, logLine; cbn [fst snd logged];
    destruct (Send w _ body (Recipients daemon)); cbn [snd logged ret logLine];
    rewrite H3, <- ?app_assoc; cbn [app]; rewrite <- ?app_assoc; done.
Qed.

(** ** The mails of the loop *)

Lemma timerFires_mail r sch it l :
  ∃ mail,
    mailed (loopState (timerFires r sch it l)) = mailed (loopState l) ++ [mail]
    ∧ mailTo mail = Recipients (loopDaemon l)
    ∧ mailSubject mail = OutgoingMailSubjectKeyword (world it) +:+ "-maintenance"
    ∧ report <$> runs (timerFires r sch it l) = (report <$> runs l) ++ [reportOf (it, mail)].
Proof.
  unfold timerFires.
  destruct (Execute_mail (world it) r sch (loopDaemon l) (loopState l)) as [H1 H2].
  destruct (Execute (world it) r sch (loopDaemon l) (loopState l)) as [result st].
  cbn [fst snd loopState runs] in *. eexists. split; [exact H2|].
  split; [done|]. split; [done|]. rewrite fmap_app. cbn [fmap list_fmap report].
  by rewrite H1.
Qed.

Lemma loopFrom_mails r sch its : ∀ l,
  forallb continuing its = true →
  ∃ l' mails,
    loopFrom r sch its l = inl l'
    ∧ mailed (loopState l') = mailed (loopState l) ++ mails
    ∧ length mails = length its
    ∧ Forall (λ mail, mailTo mail = Recipients (loopDaemon l)) mails
    ∧ report <$> runs l' = (report <$> runs l) ++ (reportOf <$> zip its mails).
Proof.
  induction its as [|it its IH]; intros l H; cbn [loopFrom].
  - exists l, []. rewrite !app_nil_r. done.
  - cbn [forallb] in H. apply andb_prop in H as [H1 H2].
    rewrite (iterate_continuing _ _ _ _ H1).
    set (l0 := withDaemon l (setLoopIsRunning (loopDaemon l) 1)).
    destruct (timerFires_mail r sch it l0) as (mail & Hm & Hto & _ & Hr).
    destruct (timerFires_daemon r sch it l0) as [Hd _].
    destruct (IH (timerFires r sch it l0) H2) as (l' & mails & Hl' & Hm' & Hlen & Hall & Hr').
    exists l', (mail :: mails). split; [exact Hl'|].
    rewrite Hm', Hm, Hr', Hr. subst l0. cbn [withDaemon loopState runs loopDaemon] in *.
    rewrite <- !app_assoc. split; [done|]. split; [cbn [length]; by rewrite Hlen|].
    split; [|done]. constructor; [exact Hto|].
    rewrite Hd in Hall. exact Hall.
Qed.

(** X22. The loop of [StartAndBlock] sends one mail in each iteration in
    which the timer fires, to the recipients of the daemon, each [Execute]
    starting from the state that the one before has left; the report of each
    run is the linted body of the mail of this run. *)
Theorem loop_mails_each_run r sch daemon st now its :
  forallb continuing its = true →
  ∃ l mails,
    StartAndBlock r sch daemon st now its = inl l
    ∧ mailed (loopState l) = mailed st ++ mails
    ∧ length mails = length its
    ∧ Forall (λ mail, mailTo mail = Recipients daemon) mails
    ∧ report <$> runs l = reportOf <$> zip its mails.
Proof.
  intros H. unfold StartAndBlock.
  destruct (loopFrom_mails r sch its
              {| firstTime := true; nextRunAt := now + 10 * Minute; clock := now;
                 loopDaemon := daemon; loopState := st; runs := [] |} H)
    as (l & mails & Hl & Hm & Hlen & Hall & Hr).
  by exists l, mails.
Qed.

(** At a concrete run: the timer fires twice. *)
Lemma loop_mails_each_run_witness :
  ∃ l mails,
    StartAndBlock plainRange fifoScheduler Scenarios.hourlyDaemon Scenarios.freshState 0
      [Scenarios.fires 5; Scenarios.fires 5] = inl l
    ∧ mailed (loopState l) = mailed Scenarios.freshState ++ mails
    ∧ length mails = 2%nat
    ∧ Forall (λ mail, mailTo mail = Recipients Scenarios.hourlyDaemon) mails
    ∧ report <$> runs l = reportOf <$> zip [Scenarios.fires 5; Scenarios.fires 5] mails.
Proof.
  apply (loop_mails_each_run plainRange fifoScheduler Scenarios.hourlyDaemon
           Scenarios.freshState 0 [Scenarios.fires 5; Scenarios.fires 5]).
  reflexivity.
Defined.
